(** * wechat-publisher: a shallow embedding of [scripts/publisher.py]

    The development follows the Python source function by function:
    text and its UTF-8 encoding, the field-length enforcement of
    [create_draft], the token cache and the network calls as a state and
    exception monad over an explicit world, and the regular-expression
    rewrites of the content normaliser over a small backtracking matcher. *)

From Stdlib Require Import String Ascii.
From Stdlib Require Import List ZArith NArith Lia Bool DecimalString.
Import ListNotations.
Open Scope string_scope.
Open Scope list_scope.

(** ** Text *)

(** A Python [str] is a sequence of code points; [len] counts them and a
    slice [text[:i]] is [firstn i]. *)
Definition codepoint := N.
Definition str := list codepoint.

Definition ascii_cp (a : ascii) : codepoint := N_of_ascii a.

(** [lit "..."] is the [str] of an ASCII literal of the source. *)
Definition lit (s : string) : str := map ascii_cp (list_ascii_of_string s).

Definition str_eqb (a b : str) : bool :=
  if list_eq_dec N.eq_dec a b then true else false.

(** ** Exceptions and results *)

(** ** JSON values, as far as the replies of the platform go *)

Inductive jval :=
| JNull
| JNum (n : Z)
| JStr (s : str).

(** A JSON object decoded by [response.json()] or [json.load]: a [dict]
    with string keys. *)
Definition json := list (string * jval).

(** [d[key]], [None] standing for the [KeyError]. *)
Fixpoint jlookup (key : string) (d : json) : option jval :=
  match d with
  | [] => None
  | (k, v) :: d' => if String.eqb k key then Some v else jlookup key d'
  end.

(** [key in d] *)
Definition jhas (key : string) (d : json) : bool :=
  match jlookup key d with Some _ => true | None => false end.

(** [d.get(key, default)] *)
Definition jget (key : string) (default : jval) (d : json) : jval :=
  match jlookup key d with Some v => v | None => default end.

(** [v != 0] on a decoded value. *)
Definition jnonzero (v : jval) : bool :=
  match v with JNum 0 => false | _ => true end.

(** Python truthiness of a decoded value. *)
Definition jtruthy (v : jval) : bool :=
  match v with
  | JNull => false
  | JNum n => negb (n =? 0)%Z
  | JStr s => match s with [] => false | _ :: _ => true end
  end.

Inductive exn :=
| UnicodeEncodeError
| KeyError (key : string)
| TypeError
| FileNotFoundError (path : str)
| ConnectionError
| ApiError (errcode : jval) (context : string).

Inductive result (A : Type) :=
| Ok (a : A)
| Raise (e : exn).
Arguments Ok {A} a.
Arguments Raise {A} e.

Definition rbind {A B} (r : result A) (f : A -> result B) : result B :=
  match r with
  | Ok a => f a
  | Raise e => Raise e
  end.

(** ** [str.encode('utf-8')] *)

Module Utf8.

Definition is_surrogate (c : codepoint) : bool :=
  ((0xD800 <=? c) && (c <=? 0xDFFF))%N.

(** The bytes of one code point; a lone surrogate cannot be encoded, and
    a [str] holds no code point above U+10FFFF. *)
Definition encode_cp (c : codepoint) : option (list N) :=
  (if c <? 0x80 then Some [c]
   else if c <? 0x800 then
     Some [N.lor 0xC0 (N.shiftr c 6); N.lor 0x80 (N.land c 0x3F)]
   else if c <? 0x10000 then
     if is_surrogate c then None
     else Some [N.lor 0xE0 (N.shiftr c 12);
                N.lor 0x80 (N.land (N.shiftr c 6) 0x3F);
                N.lor 0x80 (N.land c 0x3F)]
   else if c <? 0x110000 then
     Some [N.lor 0xF0 (N.shiftr c 18);
           N.lor 0x80 (N.land (N.shiftr c 12) 0x3F);
           N.lor 0x80 (N.land (N.shiftr c 6) 0x3F);
           N.lor 0x80 (N.land c 0x3F)]
   else None)%N.

Fixpoint encode (s : str) : option (list N) :=
  match s with
  | [] => Some []
  | c :: s' =>
      match encode_cp c, encode s' with
      | Some b, Some bs => Some (b ++ bs)
      | _, _ => None
      end
  end.

(** [text.encode('utf-8')] raises on a lone surrogate. *)
Definition encode_r (s : str) : result (list N) :=
  match encode s with
  | Some b => Ok b
  | None => Raise UnicodeEncodeError
  end.

(** [len(text.encode('utf-8'))] when the text encodes. *)
Definition byte_len (s : str) : option Z :=
  option_map (fun b => Z.of_nat (length b)) (encode s).

End Utf8.

(** ** Field-length enforcement of [create_draft] *)

Definition MAX_AUTHOR_BYTES : Z := 20.
Definition MAX_DIGEST_BYTES : Z := 120.
Definition MAX_TITLE_CHARS : Z := 64.
Definition MAX_TITLE_BYTES : Z := 192.

(** [for i in range(len(text), 0, -1)]: the loop variable runs from [i]
    down to 1; falling out of the loop returns the empty string. *)
Fixpoint truncate_loop (text : str) (max_bytes : Z) (i : nat) : result str :=
  match i with
  | O => Ok []
  | S j =>
      let truncated := firstn i text in
      rbind (Utf8.encode_r truncated) (fun e =>
        if (Z.of_nat (length e) <=? max_bytes)%Z then Ok truncated
        else truncate_loop text max_bytes j)
  end.

Definition truncate_by_bytes (text : str) (max_bytes : Z) : result str :=
  rbind (Utf8.encode_r text) (fun encoded =>
    if (Z.of_nat (length encoded) <=? max_bytes)%Z then Ok text
    else truncate_loop text max_bytes (length text)).

(** What [create_draft] prints while it enforces the limits. *)
Inductive notice :=
| TitleTooLong (original : str) (chars : Z) (truncated : str)
| TitleBytesTooLong (original : str) (bytes : Z) (truncated : str)
| AuthorTruncated (original truncated : str)
| DigestTruncated.

(** Python truthiness of a [str] and of an optional argument. *)
Definition truthy (s : str) : bool :=
  match s with [] => false | _ :: _ => true end.

Definition truthy_opt (s : option str) : bool :=
  match s with None => false | Some s => truthy s end.

(** Lines 537-560: the title. *)
Definition enforce_title (title : str) : result (str * list notice) :=
  let original_title := title in
  let title_chars := Z.of_nat (length title) in
  rbind (Utf8.encode_r title) (fun encoded =>
    let title_bytes := Z.of_nat (length encoded) in
    if (title_chars >? MAX_TITLE_CHARS)%Z then
      let title := firstn (Z.to_nat MAX_TITLE_CHARS) title in
      Ok (title, [TitleTooLong original_title title_chars title])
    else if (title_bytes >? MAX_TITLE_BYTES)%Z then
      rbind (truncate_by_bytes title MAX_TITLE_BYTES) (fun title =>
        Ok (title, [TitleBytesTooLong original_title title_bytes title]))
    else Ok (title, [])).

(** Lines 564-572: the author; [None] falls back on the configured one. *)
Definition enforce_author (config_author : str) (author : option str)
  : result (str * list notice) :=
  let author := match author with None => config_author | Some a => a end in
  if truthy author then
    let original_author := author in
    rbind (truncate_by_bytes author MAX_AUTHOR_BYTES) (fun author =>
      Ok (author,
          if str_eqb author original_author then []
          else [AuthorTruncated original_author author]))
  else Ok (author, []).

(** Lines 574-580: the digest, derived from [title] as it stands at that
    point of [create_draft], that is after the title was enforced. *)
Definition enforce_digest (title : str) (digest : option str)
  : result (str * list notice) :=
  rbind (if truthy_opt digest
         then Ok (match digest with Some d => d | None => [] end)
         else truncate_by_bytes title 54) (fun digest =>
    let original_digest := digest in
    rbind (truncate_by_bytes digest MAX_DIGEST_BYTES) (fun digest =>
      Ok (digest,
          if str_eqb digest original_digest then [] else [DigestTruncated]))).

Record fields := {
  f_title : str;
  f_author : str;
  f_digest : str;
  f_notices : list notice
}.

(** Lines 537-580 in order: title, author, digest. *)
Definition enforce_fields (config_author : str)
  (title : str) (author digest : option str) : result fields :=
  rbind (enforce_title title) (fun '(title, n1) =>
  rbind (enforce_author config_author author) (fun '(author, n2) =>
  rbind (enforce_digest title digest) (fun '(digest, n3) =>
    Ok {| f_title := title; f_author := author; f_digest := digest;
          f_notices := n1 ++ n2 ++ n3 |}))).

(** ** The world: clock, token cache file, file system, network *)

(** The token cache file as [get_access_token] meets it. *)
Inductive cache_file :=
| NoFile                      (* [os.path.exists] is false *)
| BadFile                     (* [open] or [json.load] raises *)
| CacheDict (d : json).

(** What a request comes back with. *)
Inductive reply :=
| NetFail                     (* [requests] raises, or the body is not JSON *)
| Reply (r : json).

(** The one article of the payload of [draft/add]; the fields the code
    sets to constants are left out. *)
Record article := {
  a_title : str;
  a_author : str;
  a_digest : str;
  a_content : str;
  a_thumb_media_id : jval;
  a_show_cover_pic : Z
}.

Inductive event :=
| TokenRequest (forced : bool)
| CacheWrite (d : json)
| UploadRequest (token : jval) (path : str)
| DraftRequest (token : jval) (a : article).

(** Times are whole seconds since the epoch; [w_clock] at [w_tick] is the
    next reading of [time.time()]. Each endpoint answers its requests in
    the order of its list. *)
Record world := {
  w_clock : nat -> Z;
  w_tick : nat;
  w_cache : cache_file;
  w_exists : str -> bool;
  w_token_replies : list reply;
  w_upload_replies : list reply;
  w_draft_replies : list reply;
  w_stamp : str;
  w_log : list event
}.

(** State and exceptions: a raise keeps the state reached so far. *)
Definition M (A : Type) : Type := world -> result A * world.

Definition ret {A} (a : A) : M A := fun w => (Ok a, w).

Definition raise {A} (e : exn) : M A := fun w => (Raise e, w).

Definition bind {A B} (m : M A) (f : A -> M B) : M B :=
  fun w =>
    match m w with
    | (Ok a, w') => f a w'
    | (Raise e, w') => (Raise e, w')
    end.

(** [try: m  except Exception: h] *)
Definition catch {A} (m : M A) (h : exn -> M A) : M A :=
  fun w =>
    match m w with
    | (Ok a, w') => (Ok a, w')
    | (Raise e, w') => h e w'
    end.

Declare Scope monad_scope.
Delimit Scope monad_scope with monad.
Notation "x <- m ;; k" := (bind m (fun x => k))
  (at level 61, m at next level, right associativity) : monad_scope.
Notation "m ;;; k" := (bind m (fun _ => k))
  (at level 61, right associativity) : monad_scope.
Open Scope monad_scope.

Definition with_log (e : event) (w : world) : world :=
  {| w_clock := w_clock w; w_tick := w_tick w; w_cache := w_cache w;
     w_exists := w_exists w; w_token_replies := w_token_replies w;
     w_upload_replies := w_upload_replies w;
     w_draft_replies := w_draft_replies w; w_stamp := w_stamp w;
     w_log := w_log w ++ [e] |}.

Definition ticked (w : world) : world :=
  {| w_clock := w_clock w; w_tick := S (w_tick w); w_cache := w_cache w;
     w_exists := w_exists w; w_token_replies := w_token_replies w;
     w_upload_replies := w_upload_replies w;
     w_draft_replies := w_draft_replies w; w_stamp := w_stamp w;
     w_log := w_log w |}.

Definition with_cache (d : json) (w : world) : world :=
  {| w_clock := w_clock w; w_tick := w_tick w; w_cache := CacheDict d;
     w_exists := w_exists w; w_token_replies := w_token_replies w;
     w_upload_replies := w_upload_replies w;
     w_draft_replies := w_draft_replies w; w_stamp := w_stamp w;
     w_log := w_log w |}.

Definition token_answered (w : world) : world :=
  {| w_clock := w_clock w; w_tick := w_tick w; w_cache := w_cache w;
     w_exists := w_exists w; w_token_replies := tl (w_token_replies w);
     w_upload_replies := w_upload_replies w;
     w_draft_replies := w_draft_replies w; w_stamp := w_stamp w;
     w_log := w_log w |}.

Definition upload_answered (w : world) : world :=
  {| w_clock := w_clock w; w_tick := w_tick w; w_cache := w_cache w;
     w_exists := w_exists w; w_token_replies := w_token_replies w;
     w_upload_replies := tl (w_upload_replies w);
     w_draft_replies := w_draft_replies w; w_stamp := w_stamp w;
     w_log := w_log w |}.

Definition draft_answered (w : world) : world :=
  {| w_clock := w_clock w; w_tick := w_tick w; w_cache := w_cache w;
     w_exists := w_exists w; w_token_replies := w_token_replies w;
     w_upload_replies := w_upload_replies w;
     w_draft_replies := tl (w_draft_replies w); w_stamp := w_stamp w;
     w_log := w_log w |}.

Definition emit (e : event) : M unit := fun w => (Ok tt, with_log e w).

(** [time.time()] *)
Definition time_time : M Z :=
  fun w => (Ok (w_clock w (w_tick w)), ticked w).

(** [os.path.exists(path)] on an image path. *)
Definition path_exists (path : str) : M bool :=
  fun w => (Ok (w_exists w path), w).

(** [json.dump(cache_data, f)] into the token cache file. *)
Definition write_cache (d : json) : M unit :=
  fun w => (Ok tt, with_log (CacheWrite d) (with_cache d w)).

Definition answer (r : option reply) : M json :=
  match r with
  | Some (Reply j) => ret j
  | _ => raise ConnectionError
  end.

(** [requests.get(BASE_URL + "/token", ...).json()] *)
Definition request_token (forced : bool) : M json :=
  fun w =>
    answer (hd_error (w_token_replies w))
      (with_log (TokenRequest forced) (token_answered w)).

(** [requests.post(BASE_URL + "/material/add_material", ...).json()] *)
Definition request_upload (token : jval) (path : str) : M json :=
  fun w =>
    answer (hd_error (w_upload_replies w))
      (with_log (UploadRequest token path) (upload_answered w)).

(** [requests.post(BASE_URL + "/draft/add?access_token=...", ...).json()] *)
Definition request_draft (token : jval) (a : article) : M json :=
  fun w =>
    answer (hd_error (w_draft_replies w))
      (with_log (DraftRequest token a) (draft_answered w)).

(** ** [get_access_token] *)

Definition cache_exists : M bool :=
  fun w => (Ok (match w_cache w with NoFile => false | _ => true end), w).

Definition load_cache : M json :=
  fun w =>
    match w_cache w with
    | CacheDict d => (Ok d, w)
    | _ => (Raise TypeError, w)
    end.

(** Lines 225-231, the body of the [try]: [Some token] is the [return],
    [None] is leaving the [if] without returning. *)
Definition read_cached_token : M (option jval) :=
  cache <- load_cache ;;
  now <- time_time ;;
  match jget "expires_at" (JNum 0) cache with
  | JNum expires_at =>
      if (now <? expires_at - 300)%Z then
        match jlookup "access_token" cache with
        | Some token => ret (Some token)
        | None => raise (KeyError "access_token")
        end
      else ret None
  | _ => raise TypeError
  end.

(** Lines 236-270: ask the platform and store the answer. *)
Definition fetch_token (forced : bool) : M jval :=
  result <- request_token forced ;;
  if jhas "errcode" result then
    raise (ApiError (jget "errcode" JNull result) "get_access_token")
  else
    match jlookup "access_token" result with
    | None => raise (KeyError "access_token")
    | Some access_token =>
        let expires_in := jget "expires_in" (JNum 7200) result in
        now <- time_time ;;
        match expires_in with
        | JNum ttl =>
            stamp <- (fun w => (Ok (w_stamp w), w)) ;;
            write_cache [("access_token", access_token);
                         ("expires_at", JNum (now + ttl));
                         ("updated_at", JStr stamp)] ;;;
            ret access_token
        | _ => raise TypeError
        end
    end.

Definition get_access_token (force_refresh : bool) : M jval :=
  present <- cache_exists ;;
  cached <- (if negb force_refresh && present
             then catch read_cached_token (fun _ => ret None)
             else ret None) ;;
  match cached with
  | Some token => ret token
  | None => fetch_token force_refresh
  end.

(** ** [upload_image]; the pair is what [return_url=True] returns, its
    first component what [return_url=False] returns. *)
Definition upload_image (image_path : str) : M (jval * jval) :=
  present <- path_exists image_path ;;
  if negb present then raise (FileNotFoundError image_path)
  else
    token <- get_access_token false ;;
    result <- request_upload token image_path ;;
    if jhas "errcode" result && jnonzero (jget "errcode" JNull result) then
      raise (ApiError (jget "errcode" JNull result) "upload_image")
    else
      ret (jget "media_id" JNull result, jget "url" (JStr []) result).

(** ** Submission: lines 582-635 of [create_draft] *)

(** [result['errcode'] in [40001, 42001]] *)
Definition token_expired (v : jval) : bool :=
  match v with
  | JNum n => (n =? 40001)%Z || (n =? 42001)%Z
  | _ => false
  end.

(** Lines 603-635, once the first token is at hand. *)
Definition post_draft (token : jval) (articles : article) : M json :=
  result <- request_draft token articles ;;
  if jhas "errcode" result && jnonzero (jget "errcode" JNull result) then
    if token_expired (jget "errcode" JNull result) then
      token <- get_access_token true ;;
      result <- request_draft token articles ;;
      if jhas "errcode" result && jnonzero (jget "errcode" JNull result) then
        raise (ApiError (jget "errcode" JNull result) "create_draft")
      else ret result
    else raise (ApiError (jget "errcode" JNull result) "create_draft")
  else ret result.

Definition submit_draft (articles : article) : M json :=
  token <- get_access_token false ;;
  post_draft token articles.

(** How many requests of each kind a log holds. *)
Definition is_draft_request (e : event) : bool :=
  match e with DraftRequest _ _ => true | _ => false end.

Definition is_token_request (e : event) : bool :=
  match e with TokenRequest _ => true | _ => false end.

Definition is_forced_refresh (e : event) : bool :=
  match e with TokenRequest true => true | _ => false end.


Definition count (p : event -> bool) (l : list event) : nat :=
  length (filter p l).

(** ** Worlds to run the code in *)

(** No cache file, no image file, no reply; the clock stands at [now]. *)
Definition quiet_world (now : Z) : world :=
  {| w_clock := fun _ => now; w_tick := 0; w_cache := NoFile;
     w_exists := fun _ => false; w_token_replies := [];
     w_upload_replies := []; w_draft_replies := []; w_stamp := [];
     w_log := [] |}.

Definition with_cache_file (c : cache_file) (w : world) : world :=
  {| w_clock := w_clock w; w_tick := w_tick w; w_cache := c;
     w_exists := w_exists w; w_token_replies := w_token_replies w;
     w_upload_replies := w_upload_replies w;
     w_draft_replies := w_draft_replies w; w_stamp := w_stamp w;
     w_log := w_log w |}.

Definition with_files (f : str -> bool) (w : world) : world :=
  {| w_clock := w_clock w; w_tick := w_tick w; w_cache := w_cache w;
     w_exists := f; w_token_replies := w_token_replies w;
     w_upload_replies := w_upload_replies w;
     w_draft_replies := w_draft_replies w; w_stamp := w_stamp w;
     w_log := w_log w |}.

Definition with_replies (token upload draft : list reply) (w : world)
  : world :=
  {| w_clock := w_clock w; w_tick := w_tick w; w_cache := w_cache w;
     w_exists := w_exists w; w_token_replies := token;
     w_upload_replies := upload; w_draft_replies := draft;
     w_stamp := w_stamp w; w_log := w_log w |}.

(** A cache file holding [token], expiring [left] seconds after [now]. *)
Definition cached_world (now left : Z) (token : str) : world :=
  with_cache_file
    (CacheDict [("access_token", JStr token);
                ("expires_at", JNum (now + left));
                ("updated_at", JStr [])])
    (quiet_world now).

(** A successful answer of the token endpoint. *)
Definition token_reply (token : str) (expires_in : Z) : reply :=
  Reply [("access_token", JStr token); ("expires_in", JNum expires_in)].

(** An error answer of any endpoint. *)
Definition error_reply (errcode : Z) : reply :=
  Reply [("errcode", JNum errcode); ("errmsg", JStr (lit "error"))].

(** An article to submit. *)
Definition sample_article : article :=
  {| a_title := lit "title"; a_author := lit "YanG";
     a_digest := lit "title"; a_content := lit "<p>body</p>";
     a_thumb_media_id := JStr (lit "MEDIA"); a_show_cover_pic := 1 |}.

(** The retry as the specification words it, for one submission: an
    answer with code 40001 or 42001 is followed by one forced refresh and
    one resubmission. *)
Definition retries_once (w : world) (token : jval) (a : article) : Prop :=
  let log := w_log (snd (post_draft token a w)) in
  count is_forced_refresh log = (count is_forced_refresh (w_log w) + 1)%nat /\
  count is_draft_request log = (count is_draft_request (w_log w) + 2)%nat.

(** ** Regular expressions: the part of [re] the source uses *)

Definition charset := codepoint -> bool.

(** Repetition is only ever applied to a character class in the source
    ([[^>]*], [\s+], [[^;]+], [[^>]*?], ...), so [Star] takes a class. *)
Inductive regex :=
| Eps
| Chr (c : codepoint)
| Cls (p : charset)
| Cat (r1 r2 : regex)
| Alt (r1 r2 : regex)
| Star (greedy : bool) (p : charset)
| Group (n : nat) (r : regex)
| NotAhead (r : regex).

(** [p+] and [p+?] *)
Definition Plus (greedy : bool) (p : charset) : regex :=
  Cat (Cls p) (Star greedy p).

(** [r?] *)
Definition Opt (r : regex) : regex := Alt r Eps.

(** A literal run of characters. *)
Fixpoint Lit (s : str) : regex :=
  match s with
  | [] => Eps
  | c :: s' => Cat (Chr c) (Lit s')
  end.

(** Case folding under [re.IGNORECASE], on the characters that can meet
    the letters of the patterns: the ASCII capitals and the four letters
    U+0130, U+0131, U+017F and U+212A that Python folds onto i, s and k. *)
Definition fold_case (c : codepoint) : codepoint :=
  (if (0x41 <=? c) && (c <=? 0x5A) then c + 32
   else if (c =? 0x130) || (c =? 0x131) then 0x69
   else if c =? 0x17F then 0x73
   else if c =? 0x212A then 0x6B
   else c)%N.

Definition chr_eqb (ignorecase : bool) (c x : codepoint) : bool :=
  if ignorecase then (fold_case c =? fold_case x)%N else (c =? x)%N.

(** The text captured by each group. *)
Definition captures := list (nat * str).

Definition set_group (n : nat) (s : str) (caps : captures) : captures :=
  (n, s) :: caps.

(** [match.group(n)] for a group that took part in the match. *)
Fixpoint group (n : nat) (caps : captures) : str :=
  match caps with
  | [] => []
  | (k, s) :: caps' => if Nat.eqb k n then s else group n caps'
  end.

(** The matcher backtracks as [re] does: alternatives left to right, a
    greedy star longest first, a lazy star shortest first, and the first
    way through the whole pattern wins. [k] is what remains to be matched
    after the current piece. *)
Fixpoint star_greedy (R : Type) (p : charset) (s : str)
  (k : str -> option R) : option R :=
  match s with
  | [] => k []
  | c :: s' =>
      if p c then
        match star_greedy R p s' k with
        | Some x => Some x
        | None => k s
        end
      else k s
  end.

Fixpoint star_lazy (R : Type) (p : charset) (s : str)
  (k : str -> option R) : option R :=
  match k s with
  | Some x => Some x
  | None =>
      match s with
      | [] => None
      | c :: s' => if p c then star_lazy R p s' k else None
      end
  end.

Fixpoint run (R : Type) (ignorecase : bool) (r : regex) (caps : captures)
  (s : str) (k : captures -> str -> option R) {struct r} : option R :=
  match r with
  | Eps => k caps s
  | Chr c =>
      match s with
      | x :: s' => if chr_eqb ignorecase c x then k caps s' else None
      | [] => None
      end
  | Cls p =>
      match s with
      | x :: s' => if p x then k caps s' else None
      | [] => None
      end
  | Cat r1 r2 =>
      run R ignorecase r1 caps s
        (fun caps' s' => run R ignorecase r2 caps' s' k)
  | Alt r1 r2 =>
      match run R ignorecase r1 caps s k with
      | Some x => Some x
      | None => run R ignorecase r2 caps s k
      end
  | Star true p => star_greedy R p s (k caps)
  | Star false p => star_lazy R p s (k caps)
  | Group n r' =>
      run R ignorecase r' caps s
        (fun caps' s' =>
           k (set_group n (firstn (length s - length s') s) caps') s')
  | NotAhead r' =>
      match run unit ignorecase r' caps s (fun _ _ => Some tt) with
      | Some _ => None
      | None => k caps s
      end
  end.

(** A match object: the text of the match ([group(0)]) and the groups. *)
Record rmatch := {
  m_text : str;
  m_caps : captures
}.

(** [pattern.match] at the head of [s]. *)
Definition match_at (ignorecase : bool) (r : regex) (s : str)
  : option rmatch :=
  run rmatch ignorecase r [] s
    (fun caps s' =>
       Some {| m_text := firstn (length s - length s') s; m_caps := caps |}).

(** [re.sub] walks the subject from left to right and cuts it into the
    characters it copies and the matches it replaces. [skip] counts the
    characters still covered by the last match, [limit] is what is left
    of [count] ([None]: no limit). None of the patterns of the source
    matches the empty string; an empty match is followed by one copied
    character. *)
Inductive piece :=
| Copied (c : codepoint)
| Matched (m : rmatch).

Definition spent (limit : option nat) : bool :=
  match limit with Some O => true | _ => false end.

Definition after_match (limit : option nat) : option nat :=
  option_map pred limit.

Fixpoint scan (ignorecase : bool) (r : regex) (limit : option nat)
  (skip : nat) (s : str) : list piece :=
  match s with
  | [] =>
      if spent limit then []
      else match match_at ignorecase r [] with
           | Some m => [Matched m]
           | None => []
           end
  | c :: s' =>
      match skip with
      | S n => scan ignorecase r limit n s'
      | O =>
          if spent limit then Copied c :: scan ignorecase r limit 0 s'
          else
            match match_at ignorecase r s with
            | Some m =>
                Matched m ::
                match length (m_text m) with
                | O => Copied c :: scan ignorecase r (after_match limit) 0 s'
                | S n => scan ignorecase r (after_match limit) n s'
                end
            | None => Copied c :: scan ignorecase r limit 0 s'
            end
      end
  end.

(** The text a piece stands for in the subject. *)
Definition piece_text (p : piece) : str :=
  match p with
  | Copied c => [c]
  | Matched m => m_text m
  end.

(** [re.sub(pattern, repl, s, count, flags)] with a function [repl]. *)
Definition re_sub (ignorecase : bool) (r : regex) (repl : rmatch -> str)
  (limit : option nat) (s : str) : str :=
  concat (map (fun p => match p with
                        | Copied c => [c]
                        | Matched m => repl m
                        end)
              (scan ignorecase r limit 0 s)).

(** A pattern written as the sequence of its parts. *)
Fixpoint Seq (l : list regex) : regex :=
  match l with
  | [] => Eps
  | [r] => r
  | r :: l' => Cat r (Seq l')
  end.

(** *** Character classes of the source *)

(** [[^>]] *)
Definition not_gt : charset := fun c => negb (c =? 0x3E)%N.

(** The class of the two quote characters, double and single. *)
Definition quote : charset := fun c => ((c =? 0x22) || (c =? 0x27))%N.

(** Every character but the two quote characters. *)
Definition not_quote : charset := fun c => negb (quote c).

(** Every character but the double quote. *)
Definition not_dquote : charset := fun c => negb (c =? 0x22)%N.

(** [[^;]] *)
Definition not_semi : charset := fun c => negb (c =? 0x3B)%N.

(** [[a-z-]] *)
Definition lower_or_dash : charset :=
  fun c => (((0x61 <=? c) && (c <=? 0x7A)) || (c =? 0x2D))%N.

(** [\s] on [str]: the characters for which [str.isspace] holds. *)
Definition space : charset :=
  fun c =>
    (((0x09 <=? c) && (c <=? 0x0D)) || ((0x1C <=? c) && (c <=? 0x20)) ||
     (c =? 0x85) || (c =? 0xA0) || (c =? 0x1680) ||
     ((0x2000 <=? c) && (c <=? 0x200A)) || (c =? 0x2028) || (c =? 0x2029) ||
     (c =? 0x202F) || (c =? 0x205F) || (c =? 0x3000))%N.

(** *** String tests of the source *)

(** [s.startswith(prefix)] *)
Fixpoint startswith (prefix s : str) : bool :=
  match prefix, s with
  | [], _ => true
  | p :: prefix', c :: s' => (p =? c)%N && startswith prefix' s'
  | _ :: _, [] => false
  end.

(** [needle in s] *)
Fixpoint contains (needle s : str) : bool :=
  startswith needle s ||
  match s with
  | [] => false
  | _ :: s' => contains needle s'
  end.

(** [s.lower()], on the ASCII capitals. No other character lowers to a
    letter of "cover", so ['cover' in src.lower()] is not affected. *)
Definition lower_cp (c : codepoint) : codepoint :=
  (if (0x41 <=? c) && (c <=? 0x5A) then c + 32 else c)%N.

Definition lower (s : str) : str := map lower_cp s.

(** 封面 and 标题 *)
Definition cover_word : str := [0x5C01; 0x9762]%N.
Definition title_word : str := [0x6807; 0x9898]%N.

(** ** [_remove_cover_image] *)

(** [<img[^>]*src=Qcover\.(png|jpg|jpeg|gif)Q[^>]*>], where [Q] is the
    class of the two quote characters and [NQ], below, its complement. *)
Definition cover_src_pattern : regex :=
  Seq [Lit (lit "<img"); Star true not_gt; Lit (lit "src="); Cls quote;
       Lit (lit "cover.");
       Group 1 (Alt (Lit (lit "png"))
                  (Alt (Lit (lit "jpg"))
                     (Alt (Lit (lit "jpeg")) (Lit (lit "gif")))));
       Cls quote; Star true not_gt; Chr 0x3E%N].

(** [<img[^>]*alt=Q NQ* 封面 NQ* Q[^>]*>] and the same with [title=]. *)
Definition cover_attr_pattern (attr : string) : regex :=
  Seq [Lit (lit "<img"); Star true not_gt; Lit (lit attr); Cls quote;
       Star true not_quote; Lit cover_word; Star true not_quote;
       Cls quote; Star true not_gt; Chr 0x3E%N].

Definition cover_patterns : list regex :=
  [cover_src_pattern; cover_attr_pattern "alt="; cover_attr_pattern "title="].

(** [(<!--[^>]*标题[^>]*-->)\s*<img[^>]*>] *)
Definition title_comment_pattern : regex :=
  Seq [Group 1 (Seq [Lit (lit "<!--"); Star true not_gt; Lit title_word;
                     Star true not_gt; Lit (lit "-->")]);
       Star true space; Lit (lit "<img"); Star true not_gt; Chr 0x3E%N].

(** The [for] loop over [cover_patterns]. *)
Definition remove_cover_tags (content : str) : str :=
  fold_left (fun content pattern =>
               re_sub true pattern (fun _ => []) None content)
            cover_patterns content.

(** The second strategy: [count=1], replacement [\1]. *)
Definition collapse_title_comment (content : str) : str :=
  re_sub true title_comment_pattern (fun m => group 1 (m_caps m))
    (Some 1%nat) content.

Definition _remove_cover_image (content : str) : str :=
  collapse_title_comment (remove_cover_tags content).

(** ** [_upload_content_images] *)

(** The double quote character. *)
Definition dq : str := [0x22]%N.

(** [<img([^>]*?)src=Q(NQ+)Q([^>]*?)>] *)
Definition img_pattern : regex :=
  Seq [Lit (lit "<img"); Group 1 (Star false not_gt); Lit (lit "src=");
       Cls quote; Group 2 (Plus true not_quote); Cls quote;
       Group 3 (Star false not_gt); Chr 0x3E%N].

(** [re.sub] with a replacement function that acts on the world. *)
Fixpoint sub_pieces (repl : rmatch -> M str) (ps : list piece) : M str :=
  match ps with
  | [] => ret []
  | Copied c :: ps' =>
      rest <- sub_pieces repl ps' ;; ret (c :: rest)
  | Matched m :: ps' =>
      out <- repl m ;;
      rest <- sub_pieces repl ps' ;; ret (out ++ rest)
  end.

Definition re_sub_M (ignorecase : bool) (r : regex) (repl : rmatch -> M str)
  (limit : option nat) (s : str) : M str :=
  sub_pieces repl (scan ignorecase r limit 0 s).

(** [str(Path(base_dir) / src)], up to the normalisation [pathlib] does:
    an absolute [src] stands for itself. *)
Definition path_join (base_dir src : str) : str :=
  if startswith (lit "/") src then src
  else if str_eqb base_dir (lit ".") then src
  else base_dir ++ lit "/" ++ src.

(** A decoded value inside an f-string. *)
Definition format_jval (v : jval) : str :=
  match v with
  | JStr s => s
  | JNum n => lit (DecimalString.NilZero.string_of_int (Z.to_int n))
  | JNull => lit "None"
  end.

(** The tag written for an uploaded image. *)
Definition rewritten_tag (before_src url after_src : str) : str :=
  lit "<img" ++ before_src ++ lit "src=" ++ dq ++ url ++ dq ++ after_src
    ++ lit ">".

(** The inner function [replace_image]. *)
Definition replace_image (base_dir : str) (m : rmatch) : M str :=
  let before_src := group 1 (m_caps m) in
  let src := group 2 (m_caps m) in
  let after_src := group 3 (m_caps m) in
  if startswith (lit "http://") src || startswith (lit "https://") src then
    ret (m_text m)
  else if contains (lit "cover") (lower src) then ret (m_text m)
  else
    let image_path := path_join base_dir src in
    present <- path_exists image_path ;;
    if negb present then ret (m_text m)
    else
      catch
        (uploaded <- upload_image image_path ;;
         let wechat_url := snd uploaded in
         if jtruthy wechat_url then
           ret (rewritten_tag before_src (format_jval wechat_url) after_src)
         else ret (m_text m))
        (fun _ => ret (m_text m)).

Definition _upload_content_images (content base_dir : str) : M str :=
  re_sub_M false img_pattern (replace_image base_dir) None content.

(** ** [_fix_wechat_editor_issues] *)

(** [>\s+<] *)
Definition blank_between_tags : regex :=
  Seq [Chr 0x3E%N; Plus true space; Chr 0x3C%N].

(** [([a-z-]+:\s*[^;]+);] *)
Definition declaration_pattern : regex :=
  Seq [Group 1 (Seq [Plus true lower_or_dash; Chr 0x3A%N; Star true space;
                     Plus true not_semi]);
       Chr 0x3B%N].

(** The inner function [add_important]. *)
Definition add_important (m : rmatch) : str :=
  let prop := group 1 (m_caps m) in
  if contains (lit "!important") prop then prop ++ lit ";"
  else prop ++ lit " !important;".

(** [style=DQ(?!N*text-indent)(N* )DQ], where [DQ] is the double quote
    and [N] any other character. *)
Definition style_pattern : regex :=
  Seq [Lit (lit "style=" ++ dq);
       NotAhead (Seq [Star true not_dquote; Lit (lit "text-indent")]);
       Group 1 (Star true not_dquote); Lit dq].

Definition add_text_indent (m : rmatch) : str :=
  lit "style=" ++ dq ++ group 1 (m_caps m)
    ++ lit " text-indent: 0 !important;" ++ dq.

(** [property:[^;]+;?\s*] for one of the four unsupported properties. *)
Definition unsupported_pattern (property : string) : regex :=
  Seq [Lit (lit property); Plus true not_semi; Opt (Chr 0x3B%N);
       Star true space].

Definition _fix_wechat_editor_issues (content : str) : str :=
  let content :=
    re_sub false blank_between_tags (fun _ => lit "><") None content in
  let content :=
    re_sub false declaration_pattern add_important None content in
  let content := re_sub false style_pattern add_text_indent None content in
  let content :=
    re_sub false (unsupported_pattern "box-shadow:") (fun _ => []) None
      content in
  let content :=
    re_sub false (unsupported_pattern "text-shadow:") (fun _ => []) None
      content in
  let content :=
    re_sub false (unsupported_pattern "transform:") (fun _ => []) None
      content in
  let content :=
    re_sub false (unsupported_pattern "transition:") (fun _ => []) None
      content in
  content.

(** ** [create_draft] *)

(** [os.path.join(SKILL_ROOT, "assets", "default_cover.png")] *)
Definition default_cover : str := lit "assets/default_cover.png".

Definition lift {A} (r : result A) : M A := fun w => (r, w).

Definition create_draft (config_author : str) (title content : str)
  (author : option str) (thumb_media_id : jval) (digest : option str)
  (show_cover_pic : Z) (content_base_dir : str) : M json :=
  thumb_media_id <-
    (if negb (jtruthy thumb_media_id) then
       present <- path_exists default_cover ;;
       if present then
         uploaded <- upload_image default_cover ;; ret (fst uploaded)
       else ret thumb_media_id
     else ret thumb_media_id) ;;
  let content := _remove_cover_image content in
  content <- _upload_content_images content content_base_dir ;;
  let content := _fix_wechat_editor_issues content in
  f <- lift (enforce_fields config_author title author digest) ;;
  submit_draft {| a_title := f_title f; a_author := f_author f;
                  a_digest := f_digest f; a_content := content;
                  a_thumb_media_id := thumb_media_id;
                  a_show_cover_pic := show_cover_pic |}.

(** ** What a pattern matches, stated without the matcher

    [matches ic r caps m rest caps'] says that [r] can match the text [m]
    when [rest] follows it, taking the captured groups from [caps] to
    [caps']. The look-ahead is why [rest] is there. *)
Fixpoint matches (ignorecase : bool) (r : regex) (caps : captures)
  (m rest : str) (caps' : captures) {struct r} : Prop :=
  match r with
  | Eps => m = [] /\ caps' = caps
  | Chr c =>
      exists x, m = [x] /\ chr_eqb ignorecase c x = true /\ caps' = caps
  | Cls p => exists x, m = [x] /\ p x = true /\ caps' = caps
  | Cat r1 r2 =>
      exists m1 m2 caps1,
        m = m1 ++ m2 /\
        matches ignorecase r1 caps m1 (m2 ++ rest) caps1 /\
        matches ignorecase r2 caps1 m2 rest caps'
  | Alt r1 r2 =>
      matches ignorecase r1 caps m rest caps' \/
      matches ignorecase r2 caps m rest caps'
  | Star _ p => forallb p m = true /\ caps' = caps
  | Group n r' =>
      exists caps1,
        matches ignorecase r' caps m rest caps1 /\
        caps' = set_group n m caps1
  | NotAhead r' =>
      m = [] /\ caps' = caps /\
      forall m' rest' c',
        rest = m' ++ rest' -> ~ matches ignorecase r' caps m' rest' c'
  end.

(** ** Tags as the cover patterns see them *)

(** [m] is [l] up to case, in the sense of [re.IGNORECASE]. *)
Fixpoint ci_eqb (l m : str) : bool :=
  match l, m with
  | [], [] => true
  | c :: l', x :: m' => chr_eqb true c x && ci_eqb l' m'
  | _, _ => false
  end.

Definition not_lt : charset := fun c => negb (c =? 0x3C)%N.

(** Neither angle bracket. *)
Definition no_angle : charset := fun c => not_lt c && not_gt c.



(** One pass of the [for] loop of [_remove_cover_image]. *)
Definition strip (pattern : regex) (content : str) : str :=
  re_sub true pattern (fun _ => []) None content.


(** Every match of the pattern begins with [<]. *)
Fixpoint starts_with_lt (r : regex) : bool :=
  match r with
  | Chr c => (c =? 0x3C)%N
  | Cat r1 _ => starts_with_lt r1
  | Alt r1 r2 => starts_with_lt r1 && starts_with_lt r2
  | Group _ r' => starts_with_lt r'
  | _ => false
  end.






(** ** Documents to run the normaliser on *)

(** An attribute with its value in double quotes. *)
Definition attr (name value : str) : str := name ++ lit "=" ++ dq ++ value ++ dq.




(** Two local images; the upload of the first is refused, the second is
    answered with a URL. *)
Definition two_images_html : str :=
  lit "<img " ++ attr (lit "src") (lit "a.png") ++ lit "><p>x</p><img class='k' "
    ++ attr (lit "src") (lit "b.png") ++ lit " "
    ++ attr (lit "alt") (lit "y") ++ lit ">".

Definition two_images_world : world :=
  with_files (fun _ => true)
    (with_replies []
       [error_reply 45009;
        Reply [("media_id", JStr (lit "MEDIA"));
               ("url", JStr (lit "http://mmbiz.qpic.cn/b"))]] []
       (cached_world 1000 10000 (lit "TOKEN"))).

(** A world in which a draft is accepted: cached token, no default cover. *)
Definition accepting_world : world :=
  with_replies [] [] [Reply [("media_id", JStr (lit "DRAFT"))]]
    (cached_world 1000 10000 (lit "TOKEN")).

(** The titles of the articles a log shows as submitted. *)
Definition submitted_titles (log : list event) : list str :=
  flat_map (fun e => match e with
                     | DraftRequest _ a => [a_title a]
                     | _ => []
                     end) log.


(** ** Reading the notices of field enforcement *)

Definition is_title_notice (n : notice) : bool :=
  match n with
  | TitleTooLong _ _ _ | TitleBytesTooLong _ _ _ => true
  | _ => false
  end.

Definition is_author_notice (n : notice) : bool :=
  match n with AuthorTruncated _ _ => true | _ => false end.

Definition is_digest_notice (n : notice) : bool :=
  match n with DigestTruncated => true | _ => false end.

(** The author [create_draft] works with, and the text its digest is cut
    from. *)
Definition effective_author (config_author : str) (author : option str)
  : str :=
  match author with None => config_author | Some a => a end.

Definition digest_source (title : str) (digest : option str) : str :=
  if truthy_opt digest
  then match digest with Some d => d | None => [] end
  else title.

(** Every code point below U+10000, that is of at most three bytes. *)
Definition in_bmp (s : str) : bool := forallb (fun c => (c <? 0x10000)%N) s.

Definition is_upload_request (e : event) : bool :=
  match e with UploadRequest _ _ => true | _ => false end.

(** Events of the token endpoint and its cache file. *)
Definition is_token_event (e : event) : bool :=
  match e with TokenRequest _ | CacheWrite _ => true | _ => false end.

(** Every match of the pattern, taken without [IGNORECASE], holds the
    character [x]. *)
Fixpoint needs (x : codepoint) (r : regex) : bool :=
  match r with
  | Chr c => (c =? x)%N
  | Cat r1 r2 => needs x r1 || needs x r2
  | Alt r1 r2 => needs x r1 && needs x r2
  | Group _ r' => needs x r'
  | _ => false
  end.

(** The text holds none of [<], [:] and [=]. *)
Definition plain_text (s : str) : bool :=
  forallb (fun c => negb ((c =? 0x3C) || (c =? 0x3A) || (c =? 0x3D))%N) s.

Definition is_matched (p : piece) : bool :=
  match p with Matched _ => true | Copied _ => false end.


(** Step 0 of [create_draft], lines 499-505: the cover to submit. *)
Definition prepare_cover (thumb_media_id : jval) : M jval :=
  if negb (jtruthy thumb_media_id) then
    present <- path_exists default_cover ;;
    if present then
      uploaded <- upload_image default_cover ;; ret (fst uploaded)
    else ret thumb_media_id
  else ret thumb_media_id.


(** ** Text constants

    The messages of the source are written as UTF-8 literals; [u] decodes
    one into its code points. *)
Fixpoint utf8_decode (need : nat) (acc : N) (bs : list N) : str :=
  match bs with
  | [] => []
  | b :: bs' =>
      match need with
      | O =>
          if (b <? 0x80)%N then b :: utf8_decode 0 0 bs'
          else if (b <? 0xE0)%N then utf8_decode 1 (b - 0xC0) bs'
          else if (b <? 0xF0)%N then utf8_decode 2 (b - 0xE0) bs'
          else utf8_decode 3 (b - 0xF0) bs'
      | S O => (acc * 64 + (b - 0x80))%N :: utf8_decode 0 0 bs'
      | S n => utf8_decode n (acc * 64 + (b - 0x80))%N bs'
      end
  end.

Definition utf8_bytes (s : string) : list N :=
  map N_of_ascii (list_ascii_of_string s).

Definition u (s : string) : str := utf8_decode 0 0 (utf8_bytes s).

(** The line feed of the [\n] escapes. *)
Definition nl : str := [0x0A]%N.

(** ** [str.strip()] and [re.search] *)

Fixpoint lstrip (s : str) : str :=
  match s with
  | [] => []
  | c :: s' => if space c then lstrip s' else s
  end.

Definition rstrip (s : str) : str := rev (lstrip (rev s)).

(** [s.strip()]: the white space of [str.isspace] goes from both ends. *)
Definition str_strip (s : str) : str := rstrip (lstrip s).

(** [re.search(pattern, s)]: the first position, from the left, at which
    the pattern matches. *)
Fixpoint re_search (ignorecase : bool) (r : regex) (s : str)
  : option rmatch :=
  match match_at ignorecase r s with
  | Some m => Some m
  | None =>
      match s with
      | [] => None
      | _ :: s' => re_search ignorecase r s'
      end
  end.

(** [x in l] on a list of strings. *)
Definition str_in (x : str) (l : list str) : bool := existsb (str_eqb x) l.

(** ** [_get_public_ip] and [_handle_api_error] *)

(** What [requests.get(url, timeout=5)] comes to. *)
Inductive ip_answer :=
| IpFail                                 (* the request raises *)
| IpResponse (status_code : Z) (text : str).

Definition ipip_url : str := lit "https://myip.ipip.net".

Definition services : list (str * string) :=
  [(ipip_url, "cn");
   (lit "https://api-ipv4.ip.sb/ip", "intl");
   (lit "https://api.ipify.org", "intl");
   (lit "https://ifconfig.me/ip", "intl")].

Definition unavailable : str := u "无法获取".

Definition ERROR_CODES : list (Z * str) :=
  [(40001, u "AppSecret错误或者AppSecret不属于这个AppID");
   (40002, u "请确保grant_type字段值为client_credential");
   (40013, u "不合法的AppID，请检查AppID是否正确");
   (40125, u "无效的appsecret，请检查AppSecret是否正确");
   (40164, u "调用接口的IP地址不在白名单中");
   (41001, u "缺少access_token参数");
   (42001, u "access_token超时，请检查缓存是否正常");
   (45009, u "接口调用超过限制（每日API调用量已用完）");
   (47003, u "参数错误，请检查必填字段是否完整");
   (48001, u "api功能未授权，请确认公众号类型");
   (50005, u "用户未关注公众号");
   (-1, u "系统繁忙，请稍后重试")]%Z.

(** [table.get(errcode)] for an integer key. *)
Fixpoint error_text (errcode : Z) (table : list (Z * str)) : option str :=
  match table with
  | [] => None
  | (k, text) :: table' =>
      if (k =? errcode)%Z then Some text else error_text errcode table'
  end.

(** [ERROR_CODES.get(errcode, errmsg)], as the f-string shows it. *)
Definition chinese_msg (errcode errmsg : jval) : str :=
  match errcode with
  | JNum n =>
      match error_text n ERROR_CODES with
      | Some text => text
      | None => format_jval errmsg
      end
  | _ => format_jval errmsg
  end.

(** [errcode == n] and [errcode in l] on a decoded value. *)
Definition jnum_eqb (v : jval) (n : Z) : bool :=
  match v with JNum k => (k =? n)%Z | _ => false end.

Definition jnum_in (v : jval) (l : list Z) : bool := existsb (jnum_eqb v) l.

(** The first line of every message. *)
Definition headline (errcode errmsg : jval) (context : str) : str :=
  context ++ u "失败 (错误码" ++ format_jval errcode ++ lit "): "
    ++ chinese_msg errcode errmsg.

Definition whitelist_steps : str :=
  nl ++ nl ++ u "💡 解决方法：" ++
  nl ++ u "  1. 登录微信公众平台 https://mp.weixin.qq.com" ++
  nl ++ u "  2. 设置与开发 → 基本配置 → IP白名单" ++
  nl ++ u "  3. 添加以下公网IP到白名单".

Definition detected_ip (public_ip : str) : str :=
  nl ++ nl ++ u "  需要添加到白名单的IP: " ++ public_ip ++
  nl ++ u "  （这是微信服务器看到的您的真实公网IP）".

Definition manual_lookup : str :=
  nl ++ nl ++ u "  无法自动检测公网IP，请手动查询：" ++
  nl ++ u "  - 访问 https://ipinfo.io 查看您的公网IP" ++
  nl ++ u "  - 或访问 https://ifconfig.me".

Definition credential_steps (config_file : str) : str :=
  nl ++ nl ++ u "💡 解决方法：" ++
  nl ++ u "  1. 检查配置文件中的AppID和AppSecret是否正确" ++
  nl ++ u "  2. 配置文件位置: " ++ config_file ++
  nl ++ u "  3. AppID应该以wx开头，长度18位".

Definition quota_steps : str :=
  nl ++ nl ++ u "💡 解决方法：" ++
  nl ++ u "  API调用次数已达上限，请明天再试" ++
  nl ++ u "  或联系微信公众平台提升配额".

Section ErrorReport.

(** The class [\d] of the interpreter's Unicode tables, the answers of
    the address services, and the path [CONFIG_FILE]. *)
Variable decimal : charset.
Variable fetch : str -> ip_answer.
Variable config_file : str.

(** [(\d+\.\d+\.\d+\.\d+)] *)
Definition ip_pattern : regex :=
  Group 1 (Seq [Plus true decimal; Chr 0x2E; Plus true decimal; Chr 0x2E;
                Plus true decimal; Chr 0x2E; Plus true decimal]%N).

(** The body of the [for] loop: the address one service gives, if any. *)
Definition ask_service (url : str) : option str :=
  match fetch url with
  | IpFail => None
  | IpResponse status_code text =>
      if (status_code =? 200)%Z then
        let text := str_strip text in
        if contains (lit "ipip.net") url then
          match re_search false ip_pattern text with
          | Some m => Some (group 1 (m_caps m))
          | None => None
          end
        else if truthy text && contains (lit ".") text
                && (length text <=? 15)%nat
        then Some text
        else None
      else None
  end.

Fixpoint first_answer (l : list (str * string)) : option str :=
  match l with
  | [] => None
  | (url, region) :: l' =>
      match ask_service url with
      | Some ip => Some ip
      | None => first_answer l'
      end
  end.

Definition _get_public_ip : str :=
  match first_answer services with
  | Some ip => ip
  | None => unavailable
  end.

Definition _handle_api_error (errcode errmsg : jval) (context : str) : str :=
  let error_detail := headline errcode errmsg context in
  if jnum_eqb errcode 40164 then
    let error_detail := error_detail ++ whitelist_steps in
    let public_ip := _get_public_ip in
    if negb (str_eqb public_ip unavailable) then
      error_detail ++ detected_ip public_ip
    else error_detail ++ manual_lookup
  else if jnum_in errcode [40001; 40125; 40013]%Z then
    error_detail ++ credential_steps config_file
  else if jnum_eqb errcode 45009 then error_detail ++ quota_steps
  else error_detail.

End ErrorReport.

(** The digits 0 to 9, which every [\d] holds. *)
Definition ascii_digit : charset :=
  fun c => ((0x30 <=? c) && (c <=? 0x39))%N.

(** Every text constant above, for checking the decoder against
    [Utf8.encode]. *)
Definition decodes_well (s : string) : bool :=
  match Utf8.encode (u s) with
  | Some b => if list_eq_dec N.eq_dec b (utf8_bytes s) then true else false
  | None => false
  end.

(** Four runs of decimal digits with dots between them. *)
Definition dotted_quad (decimal : charset) (ip : str) : Prop :=
  exists a b c d,
    ip = a ++ lit "." ++ b ++ lit "." ++ c ++ lit "." ++ d /\
    a <> [] /\ b <> [] /\ c <> [] /\ d <> [] /\
    forallb decimal (a ++ b ++ c ++ d) = true.

(** The answers of a machine whose address services all refuse but the
    last one. *)
Definition last_service_only (url : str) : ip_answer :=
  if str_eqb url (lit "https://ifconfig.me/ip")
  then IpResponse 200 (lit " 203.0.113.7" ++ nl)
  else if str_eqb url ipip_url then IpResponse 200 (u "当前 IP：未知")
  else if str_eqb url (lit "https://api.ipify.org") then IpResponse 503 []
  else IpFail.

(** An answer of ipip.net in its usual form. *)
Definition ipip_only (url : str) : ip_answer :=
  if str_eqb url ipip_url
  then IpResponse 200 (u "当前 IP：198.51.100.24  来自于：中国" ++ nl)
  else IpFail.

Definition no_service (url : str) : ip_answer := IpFail.

(** ** [load_config] and [_interactive_setup] *)

(** What [json.load] makes of the configuration file. *)
Inductive config_text :=
| NotJson                        (* [JSONDecodeError] *)
| NotObject                      (* JSON, but no object *)
| Object (d : json).

Inductive config_problem := BadJson | BadAppid | BadAppsecret.

Inductive setup_exn :=
| EOFError                       (* [input] at the end of the input *)
| UnencodableInput               (* [UnicodeEncodeError] while saving *)
| ConfigMissing                  (* [FileNotFoundError], line 69 *)
| OpenError                      (* [open] of a file that is not there *)
| AttributeError                 (* [.get] or [.strip] on a value without *)
| ValueError (what : config_problem).   (* lines 79, 87 and 89 *)

(** The prints that say something about the configuration. *)
Inductive setup_notice :=
| AppidPrefixWarning             (* line 112 *)
| ConfigSaved                    (* line 126 *)
| AuthorMissing                  (* line 93 *)
| AppidFormatWarning             (* line 98 *)
| ConfigLoaded (appid_shown author : str).   (* line 101 *)

(** The lines still to be read from the standard input, the
    configuration file if there is one, and what was printed. *)
Record console := {
  c_stdin : list str;
  c_config : option config_text;
  c_out : list setup_notice
}.

(** The attributes [load_config] sets. *)
Record publisher := {
  appid : str;
  appsecret : str;
  author : str
}.

Inductive outcome (A : Type) :=
| Done (a : A)
| Fails (e : setup_exn).
Arguments Done {A} a.
Arguments Fails {A} e.

Definition C (A : Type) : Type := console -> outcome A * console.

Definition cret {A} (a : A) : C A := fun c => (Done a, c).

Definition cfail {A} (e : setup_exn) : C A := fun c => (Fails e, c).

Definition cbind {A B} (m : C A) (f : A -> C B) : C B :=
  fun c =>
    match m c with
    | (Done a, c') => f a c'
    | (Fails e, c') => (Fails e, c')
    end.

Notation "x <~ m ;; k" := (cbind m (fun x => k))
  (at level 61, m at next level, right associativity) : monad_scope.
Notation "m ~;; k" := (cbind m (fun _ => k))
  (at level 61, right associativity) : monad_scope.

(** [input(prompt)] *)
Definition input : C str :=
  fun c =>
    match c_stdin c with
    | [] => (Fails EOFError, c)
    | line :: rest =>
        (Done line,
         {| c_stdin := rest; c_config := c_config c; c_out := c_out c |})
    end.

Definition say (n : setup_notice) : C unit :=
  fun c =>
    (Done tt,
     {| c_stdin := c_stdin c; c_config := c_config c;
        c_out := c_out c ++ [n] |}).

Definition with_config (t : config_text) (c : console) : console :=
  {| c_stdin := c_stdin c; c_config := Some t; c_out := c_out c |}.

(** Lines 116-123: [json.dump] into the file opened for writing in UTF-8.
    An answer that cannot be encoded raises in the middle of the writing
    and leaves a file that is no JSON. *)
Definition save_config (appid appsecret author : str) : C unit :=
  fun c =>
    match Utf8.encode appid, Utf8.encode appsecret, Utf8.encode author with
    | Some _, Some _, Some _ =>
        (Done tt,
         with_config (Object [("appid", JStr appid);
                              ("appsecret", JStr appsecret);
                              ("author", JStr author)]) c)
    | _, _, _ => (Fails UnencodableInput, with_config NotJson c)
    end.

Definition _interactive_setup : C unit :=
  appid <~ input ;;
  let appid := str_strip appid in
  appsecret <~ input ;;
  let appsecret := str_strip appsecret in
  author <~ input ;;
  let author := str_strip author in
  (if negb (startswith (lit "wx") appid) then say AppidPrefixWarning
   else cret tt) ~;;
  save_config appid appsecret author ~;;
  say ConfigSaved.

(** [os.path.exists(self.CONFIG_FILE)] *)
Definition config_exists : C bool :=
  fun c =>
    (Done (match c_config c with Some _ => true | None => false end), c).

(** Lines 75-79: the decoded file, [None] for JSON that is no object. *)
Definition read_config : C (option json) :=
  fun c =>
    match c_config c with
    | None => (Fails OpenError, c)
    | Some NotJson => (Fails (ValueError BadJson), c)
    | Some NotObject => (Done None, c)
    | Some (Object d) => (Done (Some d), c)
    end.

(** [config.get(key, '').strip()] *)
Definition stripped_field (key : string) (config : option json) : C str :=
  match config with
  | Some d =>
      match jget key (JStr []) d with
      | JStr s => cret (str_strip s)
      | _ => cfail AttributeError
      end
  | None => cfail AttributeError
  end.

(** The answers that start the set-up. [lower] is enough for
    [.lower()] here: only the ASCII capitals lower to y, e or s. *)
Definition accepts (answer : str) : bool :=
  str_in (lower (str_strip answer)) [[]; lit "y"; lit "yes"].

Definition appid_placeholders : list str :=
  [lit "your_appid_here"; lit "your_appid"].

Definition appsecret_placeholders : list str :=
  [lit "your_appsecret_here"; lit "your_appsecret"].

Definition author_placeholders : list str :=
  [lit "Your Name"; lit "your_name_here"].

Definition load_config : C publisher :=
  present <~ config_exists ;;
  (if negb present then
     should_setup <~ input ;;
     if accepts should_setup then _interactive_setup
     else cfail ConfigMissing
   else cret tt) ~;;
  config <~ read_config ;;
  appid <~ stripped_field "appid" config ;;
  appsecret <~ stripped_field "appsecret" config ;;
  author <~ stripped_field "author" config ;;
  if negb (truthy appid) || str_in appid appid_placeholders then
    cfail (ValueError BadAppid)
  else if negb (truthy appsecret) || str_in appsecret appsecret_placeholders
  then cfail (ValueError BadAppsecret)
  else
    author <~ (if negb (truthy author) || str_in author author_placeholders
               then say AuthorMissing ~;; cret []
               else cret author) ;;
    (if negb (startswith (lit "wx") appid)
        || negb (length appid =? 18)%nat
     then say AppidFormatWarning else cret tt) ~;;
    say (ConfigLoaded (firstn 6 appid) author) ~;;
    cret {| appid := appid; appsecret := appsecret; author := author |}.

(** What [load_config] accepts as an AppID or an AppSecret. *)
Definition usable (placeholders : list str) (s : str) : bool :=
  truthy s && negb (str_in s placeholders).

(** The author kept from a configured one. *)
Definition kept_author (s : str) : str :=
  if negb (truthy s) || str_in s author_placeholders then [] else s.

(** A first start: no configuration file, and the answers typed. *)
Definition first_start (answers : list str) : console :=
  {| c_stdin := answers; c_config := None; c_out := [] |}.

Definition configured (d : json) : console :=
  {| c_stdin := []; c_config := Some (Object d); c_out := [] |}.

(** The two halves of [load_config]: lines 55-72, which see to it that
    there is a file, and lines 74-101, which read and check it. *)
Definition ensure_config : C unit :=
  present <~ config_exists ;;
  if negb present then
    should_setup <~ input ;;
    if accepts should_setup then _interactive_setup
    else cfail ConfigMissing
  else cret tt.

Definition validate_config : C publisher :=
  config <~ read_config ;;
  appid <~ stripped_field "appid" config ;;
  appsecret <~ stripped_field "appsecret" config ;;
  author <~ stripped_field "author" config ;;
  if negb (truthy appid) || str_in appid appid_placeholders then
    cfail (ValueError BadAppid)
  else if negb (truthy appsecret) || str_in appsecret appsecret_placeholders
  then cfail (ValueError BadAppsecret)
  else
    author <~ (if negb (truthy author) || str_in author author_placeholders
               then say AuthorMissing ~;; cret []
               else cret author) ;;
    (if negb (startswith (lit "wx") appid)
        || negb (length appid =? 18)%nat
     then say AppidFormatWarning else cret tt) ~;;
    say (ConfigLoaded (firstn 6 appid) author) ~;;
    cret {| appid := appid; appsecret := appsecret; author := author |}.

(** The file the set-up writes for three answers. *)
Definition saved_config (a s au : str) : config_text :=
  Object [("appid", JStr (str_strip a)); ("appsecret", JStr (str_strip s));
          ("author", JStr (str_strip au))].

(** What the check makes of an AppID, an AppSecret and an author read
    from the file. *)
Definition checked (a s au : str) : outcome publisher :=
  if negb (usable appid_placeholders (str_strip a)) then
    Fails (ValueError BadAppid)
  else if negb (usable appsecret_placeholders (str_strip s)) then
    Fails (ValueError BadAppsecret)
  else Done {| appid := str_strip a; appsecret := str_strip s;
               author := kept_author (str_strip au) |}.

Definition sample_config : json :=
  [("appid", JStr (lit "  wx0123456789abcdef "));
   ("appsecret", JStr (lit "0123456789abcdef0123456789abcdef"));
   ("author", JStr (lit "Your Name"))].
(* ================================================================== *)
(** * Properties *)

Lemma str_eqb_eq (a b : str) : str_eqb a b = true <-> a = b.
Proof.
  unfold str_eqb. destruct (list_eq_dec N.eq_dec a b); split; congruence.
Qed.

(** ** UTF-8 encoding of prefixes *)

Module Utf8Facts.
Import Utf8.

Lemma encode_app (a b : str) :
  encode (a ++ b) =
  match encode a, encode b with
  | Some x, Some y => Some (x ++ y)
  | _, _ => None
  end.
Proof.
  induction a as [|c a IH]; simpl.
  - destruct (encode b); reflexivity.
  - rewrite IH. destruct (encode_cp c), (encode a), (encode b);
      try reflexivity. now rewrite app_assoc.
Qed.

Lemma encode_app_inv (a b : str) (e : list N) :
  encode (a ++ b) = Some e ->
  exists ea eb, encode a = Some ea /\ encode b = Some eb /\ e = ea ++ eb.
Proof.
  rewrite encode_app. destruct (encode a) as [ea|], (encode b) as [eb|];
    try discriminate.
  intros [= <-]. now exists ea, eb.
Qed.

Lemma encode_split (i : nat) (s : str) (e : list N) :
  encode s = Some e ->
  exists e1 e2,
    encode (firstn i s) = Some e1 /\ encode (skipn i s) = Some e2 /\
    e = e1 ++ e2.
Proof.
  intros H. rewrite <- (firstn_skipn i s) in H.
  now apply encode_app_inv.
Qed.

(** Every code point that encodes takes at least one byte. *)
Lemma encode_cp_nonempty (c : codepoint) (b : list N) :
  encode_cp c = Some b -> (1 <= length b)%nat.
Proof.
  unfold encode_cp.
  repeat match goal with
         | |- context [if ?x then _ else _] => destruct x
         end; intros [= <-]; simpl; lia.
Qed.

Lemma encode_cp_le4 (c : codepoint) (b : list N) :
  encode_cp c = Some b -> (length b <= 4)%nat.
Proof.
  unfold encode_cp.
  repeat match goal with
         | |- context [if ?x then _ else _] => destruct x
         end; intros [= <-]; simpl; lia.
Qed.

Lemma encode_length_ge (s : str) (e : list N) :
  encode s = Some e -> (length s <= length e)%nat.
Proof.
  revert e. induction s as [|c s IH]; intros e; simpl.
  - intros [= <-]. simpl. lia.
  - destruct (encode_cp c) as [b|] eqn:Hc; [|discriminate].
    destruct (encode s) as [bs|]; [|discriminate].
    intros [= <-]. rewrite length_app.
    apply encode_cp_nonempty in Hc. specialize (IH bs eq_refl). lia.
Qed.

Lemma encode_length_le (s : str) (e : list N) :
  encode s = Some e -> (length e <= 4 * length s)%nat.
Proof.
  revert e. induction s as [|c s IH]; intros e; simpl.
  - intros [= <-]. simpl. lia.
  - destruct (encode_cp c) as [b|] eqn:Hc; [|discriminate].
    destruct (encode s) as [bs|]; [|discriminate].
    intros [= <-]. rewrite length_app.
    apply encode_cp_le4 in Hc. specialize (IH bs eq_refl). lia.
Qed.

(** The encoding of a prefix is no longer than that of the text. *)
Lemma encode_prefix_le (p q : str) (ep e : list N) :
  encode (p ++ q) = Some e -> encode p = Some ep ->
  (length ep <= length e)%nat.
Proof.
  intros H Hp. apply encode_app_inv in H as (ea & eb & Ha & _ & ->).
  rewrite Hp in Ha. injection Ha as <-. rewrite length_app. lia.
Qed.

End Utf8Facts.

(** ** [truncate_by_bytes] *)

Section Truncate.
Import Utf8 Utf8Facts.

Variable text : str.
Variable etext : list N.
Hypothesis text_encodes : encode text = Some etext.

(** The loop returns the longest slice [text[:j]], [j <= i], that fits. *)
Lemma truncate_loop_spec (max_bytes : Z) (i : nat) :
  (0 <= max_bytes)%Z ->
  exists j e,
    truncate_loop text max_bytes i = Ok (firstn j text) /\
    (j <= i)%nat /\
    encode (firstn j text) = Some e /\
    (Z.of_nat (length e) <= max_bytes)%Z /\
    forall k ek, (k <= i)%nat -> encode (firstn k text) = Some ek ->
                 (Z.of_nat (length ek) <= max_bytes)%Z -> (k <= j)%nat.
Proof.
  intros Hn. induction i as [|i IH].
  - exists 0%nat, []. simpl. repeat split; try lia.
  - destruct (encode_split (S i) text etext text_encodes) as (e1 & e2 & H1 & _ & _).
    cbn [truncate_loop]. unfold encode_r. rewrite H1. cbn [rbind].
    destruct (Z.leb_spec (Z.of_nat (length e1)) max_bytes) as [Hle|Hgt].
    + exists (S i), e1. repeat split; auto.
    + destruct IH as (j & e & Hr & Hj & He & Hb & Hmax).
      exists j, e. repeat split; auto.
      intros k ek Hk Hek Hfit.
      destruct (Nat.eq_dec k (S i)) as [->|Hne].
      * rewrite H1 in Hek. injection Hek as <-. lia.
      * apply (Hmax k ek); auto. lia.
Qed.

End Truncate.

Lemma firstn_prefix_length (A : Type) (p q : list A) :
  firstn (length p) (p ++ q) = p.
Proof.
  rewrite firstn_app, Nat.sub_diag, firstn_all. simpl. apply app_nil_r.
Qed.

(** [truncate_by_bytes] as an index: the result is [text[:j]] for the
    largest [j] whose slice fits. *)
Lemma truncate_by_bytes_spec (s : str) (es : list N) (n : Z) :
  Utf8.encode s = Some es -> (0 <= n)%Z ->
  exists j e,
    truncate_by_bytes s n = Ok (firstn j s) /\
    (j <= length s)%nat /\
    Utf8.encode (firstn j s) = Some e /\
    (Z.of_nat (length e) <= n)%Z /\
    (forall k ek, (k <= length s)%nat ->
                  Utf8.encode (firstn k s) = Some ek ->
                  (Z.of_nat (length ek) <= n)%Z -> (k <= j)%nat) /\
    ((Z.of_nat (length es) <= n)%Z -> j = length s).
Proof.
  intros Hs Hn. unfold truncate_by_bytes, Utf8.encode_r. rewrite Hs.
  cbn [rbind].
  destruct (Z.leb_spec (Z.of_nat (length es)) n) as [Hle|Hgt].
  - exists (length s), es. rewrite firstn_all. repeat split; auto.
  - destruct (@truncate_loop_spec s es Hs n (length s) Hn)
      as (j & e & Hr & Hj & He & Hb & Hmax).
    exists j, e. repeat split; auto. lia.
Qed.

(** C1. For every encodable text [s] and limit [n >= 0],
    [truncate_by_bytes s n] returns a prefix [r] of [s] cut at a code-point
    boundary (the bytes of [s] are those of [r] followed by those of the
    rest), of at most [n] bytes, at least as long as every other prefix of
    at most [n] bytes, and equal to [s] when [s] already fits. *)
Theorem truncate_by_bytes_longest_prefix (s : str) (n : Z) (es : list N) :
  (0 <= n)%Z ->
  Utf8.encode s = Some es ->
  exists r rest er erest,
    truncate_by_bytes s n = Ok r /\
    s = r ++ rest /\
    Utf8.encode r = Some er /\ Utf8.encode rest = Some erest /\
    es = er ++ erest /\
    (Z.of_nat (length er) <= n)%Z /\
    (forall p q ep, s = p ++ q -> Utf8.encode p = Some ep ->
                    (Z.of_nat (length ep) <= n)%Z ->
                    (length p <= length r)%nat) /\
    ((Z.of_nat (length es) <= n)%Z -> r = s).
Proof.
  intros Hn Hs.
  destruct (truncate_by_bytes_spec s es n Hs Hn)
    as (j & e & Hr & Hj & He & Hb & Hmax & Hall).
  destruct (Utf8Facts.encode_split j s es Hs) as (e1 & e2 & H1 & H2 & Hes).
  rewrite He in H1. injection H1 as <-.
  exists (firstn j s), (skipn j s), e, e2.
  repeat split; auto.
  - symmetry. apply firstn_skipn.
  - intros p q ep Hpq Hp Hfit.
    rewrite length_firstn, Nat.min_l by exact Hj.
    apply (Hmax (length p) ep); auto.
    + rewrite Hpq, length_app. lia.
    + rewrite Hpq, firstn_prefix_length. exact Hp.
  - intros Hfit. rewrite (Hall Hfit). apply firstn_all.
Qed.

Lemma truncate_by_bytes_longest_prefix_witness :
  exists r rest er erest,
    truncate_by_bytes [0x4E2D; 0x6587; 0x61]%N 4 = Ok r /\
    [0x4E2D; 0x6587; 0x61]%N = r ++ rest /\
    Utf8.encode r = Some er /\ Utf8.encode rest = Some erest /\
    [0xE4; 0xB8; 0xAD; 0xE6; 0x96; 0x87; 0x61]%N = er ++ erest /\
    (Z.of_nat (length er) <= 4)%Z /\
    (forall p q ep, [0x4E2D; 0x6587; 0x61]%N = p ++ q ->
                    Utf8.encode p = Some ep ->
                    (Z.of_nat (length ep) <= 4)%Z ->
                    (length p <= length r)%nat) /\
    ((Z.of_nat (length [0xE4; 0xB8; 0xAD; 0xE6; 0x96; 0x87; 0x61]%N) <= 4)%Z ->
     r = [0x4E2D; 0x6587; 0x61]%N).
Proof.
  apply (@truncate_by_bytes_longest_prefix [0x4E2D; 0x6587; 0x61]%N 4).
  - lia.
  - reflexivity.
Defined.

(** A text holding a lone surrogate cannot be encoded: the call raises. *)
Lemma truncate_by_bytes_unencodable (s : str) (n : Z) :
  Utf8.encode s = None -> truncate_by_bytes s n = Raise UnicodeEncodeError.
Proof.
  intros H. unfold truncate_by_bytes, Utf8.encode_r. now rewrite H.
Qed.

Example truncate_by_bytes_cjk :
  truncate_by_bytes [0x4E2D; 0x6587; 0x61]%N 4 = Ok [0x4E2D]%N.
Proof. reflexivity. Qed.

(** ** Field enforcement *)

Lemma firstn_firstn_le (A : Type) (j m : nat) (s : list A) :
  (j <= m)%nat -> firstn j (firstn m s) = firstn j s.
Proof. intros H. rewrite firstn_firstn, Nat.min_l by exact H. reflexivity. Qed.

(** Truncating a slice that is long enough gives what truncating the whole
    text gives. *)
Lemma truncate_by_bytes_of_slice (s : str) (es : list N) (n : Z) (m : nat)
  (r : str) :
  Utf8.encode s = Some es -> (0 <= n)%Z ->
  truncate_by_bytes s n = Ok r -> (length r <= m)%nat ->
  truncate_by_bytes (firstn m s) n = Ok r.
Proof.
  intros Hs Hn Hr Hlen.
  destruct (Utf8Facts.encode_split m s es Hs) as (et & _ & Ht & _ & _).
  destruct (truncate_by_bytes_spec s es n Hs Hn)
    as (j & e & Hj & Hjl & He & Hfit & Hmax & _).
  destruct (truncate_by_bytes_spec (firstn m s) et n Ht Hn)
    as (j' & e' & Hj' & Hjl' & He' & Hfit' & Hmax' & _).
  rewrite Hj in Hr. injection Hr as <-.
  rewrite length_firstn, Nat.min_l in Hlen by exact Hjl.
  rewrite length_firstn in Hjl', Hmax'.
  rewrite firstn_firstn_le in He' by lia.
  assert (j' <= j)%nat by (apply (Hmax j' e'); auto; lia).
  assert (j <= j')%nat.
  { apply (Hmax' j e); auto; [lia|]. rewrite firstn_firstn_le by lia. exact He. }
  rewrite Hj'. rewrite firstn_firstn_le by lia. f_equal. f_equal. lia.
Qed.

(** What [truncate_by_bytes] returns fits and encodes. *)
Lemma truncate_by_bytes_fits (s : str) (es : list N) (n : Z) :
  Utf8.encode s = Some es -> (0 <= n)%Z ->
  exists r er,
    truncate_by_bytes s n = Ok r /\ Utf8.encode r = Some er /\
    (Z.of_nat (length er) <= n)%Z /\ (length r <= length s)%nat /\
    r = firstn (length r) s.
Proof.
  intros Hs Hn.
  destruct (truncate_by_bytes_spec s es n Hs Hn)
    as (j & e & Hj & Hjl & He & Hfit & _ & _).
  exists (firstn j s), e. rewrite length_firstn, Nat.min_l by exact Hjl.
  repeat split; auto.
Qed.

(** A text that fits is returned as it is. *)
Lemma truncate_by_bytes_id (s : str) (es : list N) (n : Z) :
  Utf8.encode s = Some es -> (Z.of_nat (length es) <= n)%Z ->
  truncate_by_bytes s n = Ok s.
Proof.
  intros Hs Hfit. unfold truncate_by_bytes, Utf8.encode_r. rewrite Hs.
  cbn [rbind]. destruct (Z.leb_spec (Z.of_nat (length es)) n); [reflexivity|lia].
Qed.

(** C4. The title: more than 64 characters gives exactly the first 64 and
    a notice; within 64 characters but more than 192 bytes gives
    [truncate_by_bytes title 192] and a notice; otherwise the title is
    kept and nothing is reported. *)
Theorem title_chars_then_bytes (title : str) (et : list N) :
  Utf8.encode title = Some et ->
  ((64 < length title)%nat ->
     enforce_title title =
       Ok (firstn 64 title,
           [TitleTooLong title (Z.of_nat (length title)) (firstn 64 title)]) /\
     length (firstn 64 title) = 64%nat) /\
  ((length title <= 64)%nat -> (192 < length et)%nat ->
     exists t,
       truncate_by_bytes title 192 = Ok t /\
       enforce_title title =
         Ok (t, [TitleBytesTooLong title (Z.of_nat (length et)) t])) /\
  ((length title <= 64)%nat -> (length et <= 192)%nat ->
     enforce_title title = Ok (title, [])).
Proof.
  intros Ht. unfold enforce_title, Utf8.encode_r, MAX_TITLE_CHARS,
    MAX_TITLE_BYTES. rewrite Ht. cbn [rbind].
  repeat split.
  - destruct (Z.gtb_spec (Z.of_nat (length title)) 64); [reflexivity|lia].
  - rewrite length_firstn. lia.
  - intros Hc Hb.
    destruct (Z.gtb_spec (Z.of_nat (length title)) 64); [lia|].
    destruct (Z.gtb_spec (Z.of_nat (length et)) 192); [|lia].
    destruct (@truncate_by_bytes_fits title et 192 Ht ltac:(lia))
      as (r & er & Hr & _).
    exists r. rewrite Hr. split; reflexivity.
  - intros Hc Hb.
    destruct (Z.gtb_spec (Z.of_nat (length title)) 64); [lia|].
    destruct (Z.gtb_spec (Z.of_nat (length et)) 192); [lia|reflexivity].
Qed.

Lemma title_chars_then_bytes_witness :
  ((64 < length (repeat 0x41%N 70))%nat ->
     enforce_title (repeat 0x41%N 70) =
       Ok (firstn 64 (repeat 0x41%N 70),
           [TitleTooLong (repeat 0x41%N 70)
              (Z.of_nat (length (repeat 0x41%N 70)))
              (firstn 64 (repeat 0x41%N 70))]) /\
     length (firstn 64 (repeat 0x41%N 70)) = 64%nat) /\
  ((length (repeat 0x41%N 70) <= 64)%nat ->
   (192 < length (repeat 0x41%N 70))%nat ->
     exists t,
       truncate_by_bytes (repeat 0x41%N 70) 192 = Ok t /\
       enforce_title (repeat 0x41%N 70) =
         Ok (t, [TitleBytesTooLong (repeat 0x41%N 70)
                   (Z.of_nat (length (repeat 0x41%N 70))) t])) /\
  ((length (repeat 0x41%N 70) <= 64)%nat ->
   (length (repeat 0x41%N 70) <= 192)%nat ->
     enforce_title (repeat 0x41%N 70) = Ok (repeat 0x41%N 70, [])).
Proof.
  apply (@title_chars_then_bytes (repeat 0x41%N 70) (repeat 0x41%N 70)).
  reflexivity.
Defined.

(** The fallback at work: 50 code points of four bytes each. *)
Example title_bytes_fallback :
  enforce_title (repeat 0x1F600%N 50) =
    Ok (repeat 0x1F600%N 48,
        [TitleBytesTooLong (repeat 0x1F600%N 50) 200 (repeat 0x1F600%N 48)]).
Proof. vm_compute. reflexivity. Qed.

(** The title after enforcement is a slice of the original that still
    holds the first 54 bytes' worth of it: deriving the digest from it or
    from the original title gives the same text. *)
Lemma enforce_title_keeps_digest_source (title : str) (et : list N) :
  Utf8.encode title = Some et ->
  exists t n1 e,
    enforce_title title = Ok (t, n1) /\
    Utf8.encode t = Some e /\
    (length t <= 64)%nat /\
    truncate_by_bytes t 54 = truncate_by_bytes title 54.
Proof.
  intros Ht.
  destruct (@truncate_by_bytes_spec title et 54 Ht ltac:(lia))
    as (j & e & Hj & Hjl & He & Hfit & Hmax & _).
  pose proof (Utf8Facts.encode_length_ge _ _ He) as Hge.
  rewrite length_firstn, Nat.min_l in Hge by exact Hjl.
  unfold enforce_title, Utf8.encode_r, MAX_TITLE_CHARS, MAX_TITLE_BYTES.
  rewrite Ht. cbn [rbind].
  destruct (Z.gtb_spec (Z.of_nat (length title)) 64) as [Hc|Hc].
  - destruct (Utf8Facts.encode_split 64 title et Ht) as (e1 & _ & H1 & _ & _).
    eexists _, _, e1. repeat split.
    + exact H1.
    + rewrite length_firstn. lia.
    + rewrite Hj. apply (truncate_by_bytes_of_slice title et); [exact Ht|lia|exact Hj|].
      rewrite length_firstn. lia.
  - destruct (Z.gtb_spec (Z.of_nat (length et)) 192) as [Hb|Hb].
    + destruct (@truncate_by_bytes_spec title et 192 Ht ltac:(lia))
        as (j2 & e2 & Hj2 & Hjl2 & He2 & Hfit2 & Hmax2 & _).
      rewrite Hj2. cbn [rbind]. eexists _, _, e2. repeat split.
      * exact He2.
      * rewrite length_firstn. lia.
      * rewrite Hj. apply (truncate_by_bytes_of_slice title et); [exact Ht|lia|exact Hj|].
        rewrite length_firstn, Nat.min_l by exact Hjl.
        apply (Hmax2 j e); auto; lia.
    + eexists _, _, et. repeat split; auto. lia.
Qed.

(** The author after enforcement is at most 20 bytes. *)
Lemma enforce_author_fits (cfg : str) (author : option str) (ea : list N) :
  Utf8.encode (match author with None => cfg | Some a => a end) = Some ea ->
  exists a n2 e,
    enforce_author cfg author = Ok (a, n2) /\
    Utf8.encode a = Some e /\ (length e <= 20)%nat /\
    (truthy (match author with None => cfg | Some a => a end) = true ->
     truncate_by_bytes (match author with None => cfg | Some a => a end)
       MAX_AUTHOR_BYTES = Ok a).
Proof.
  unfold enforce_author.
  set (au := match author with None => cfg | Some a => a end).
  intros Ha. destruct au as [|c au'] eqn:Hau.
  - exists [], [], []. simpl. repeat split; auto; try lia; try discriminate.
  - cbn [truthy].
    destruct (@truncate_by_bytes_fits (c :: au') ea 20 Ha ltac:(lia))
      as (r & er & Hr & Her & Hfit & _).
    unfold MAX_AUTHOR_BYTES. rewrite Hr. cbn [rbind].
    eexists _, _, er. repeat split; auto. lia.
Qed.

(** The digest after enforcement is at most 120 bytes; a derived digest is
    [truncate_by_bytes title 54] untouched. *)
Lemma enforce_digest_fits (t : str) (digest : option str) (e ed : list N) :
  Utf8.encode t = Some e ->
  Utf8.encode (match digest with Some d => d | None => [] end) = Some ed ->
  exists d n3 e',
    enforce_digest t digest = Ok (d, n3) /\
    Utf8.encode d = Some e' /\ (length e' <= 120)%nat /\
    (truthy_opt digest = false -> truncate_by_bytes t 54 = Ok d) /\
    (truthy_opt digest = true ->
     truncate_by_bytes (match digest with Some d => d | None => [] end)
       MAX_DIGEST_BYTES = Ok d).
Proof.
  intros Ht Hd. unfold enforce_digest, MAX_DIGEST_BYTES.
  destruct (truthy_opt digest) eqn:Htr.
  - cbn [rbind].
    destruct (@truncate_by_bytes_fits _ ed 120 Hd ltac:(lia))
      as (r & er & Hr & Her & Hfit & _).
    rewrite Hr. cbn [rbind]. eexists _, _, er.
    repeat split; auto; try lia; try discriminate.
  - destruct (@truncate_by_bytes_fits t e 54 Ht ltac:(lia))
      as (r & er & Hr & Her & Hfit & _).
    rewrite Hr. cbn [rbind].
    rewrite (@truncate_by_bytes_id r er 120 Her ltac:(lia)). cbn [rbind].
    eexists _, _, er. repeat split; auto; try lia; try discriminate.
Qed.

(** C5. With no digest supplied the digest is [truncate_by_bytes] of the
    original title at 54 bytes; a supplied digest is truncated at 120
    bytes and the author at 20 bytes, so both fit their limits. *)
Theorem digest_and_author_limits
  (cfg title : str) (author digest : option str) (et ea ed : list N) :
  Utf8.encode title = Some et ->
  Utf8.encode (match author with None => cfg | Some a => a end) = Some ea ->
  Utf8.encode (match digest with Some d => d | None => [] end) = Some ed ->
  exists f e_digest e_author,
    enforce_fields cfg title author digest = Ok f /\
    (truthy_opt digest = false ->
     truncate_by_bytes title 54 = Ok (f_digest f)) /\
    (truthy_opt digest = true ->
     truncate_by_bytes (match digest with Some d => d | None => [] end) 120
       = Ok (f_digest f)) /\
    (truthy (match author with None => cfg | Some a => a end) = true ->
     truncate_by_bytes (match author with None => cfg | Some a => a end) 20
       = Ok (f_author f)) /\
    Utf8.encode (f_digest f) = Some e_digest /\
    (length e_digest <= 120)%nat /\
    Utf8.encode (f_author f) = Some e_author /\
    (length e_author <= 20)%nat.
Proof.
  intros Ht Ha Hd. unfold enforce_fields.
  destruct (enforce_title_keeps_digest_source title et Ht)
    as (t & n1 & e & Het & Hte & _ & Hsame).
  destruct (enforce_author_fits cfg author ea Ha)
    as (a & n2 & e2 & Hea & Hae & Hafit & Hatr).
  destruct (enforce_digest_fits t digest e ed Hte Hd)
    as (d & n3 & e3 & Hed & Hde & Hdfit & Hder & Hsup).
  rewrite Het. cbn [rbind]. rewrite Hea. cbn [rbind]. rewrite Hed.
  cbn [rbind]. eexists _, e3, e2. cbn [f_digest f_author].
  repeat split; auto.
  intros Hno. rewrite <- Hsame. auto.
Qed.

Lemma digest_and_author_limits_witness :
  exists f e_digest e_author,
    enforce_fields (lit "YanG") (repeat 0x4E2D%N 70) None None = Ok f /\
    (truthy_opt None = false ->
     truncate_by_bytes (repeat 0x4E2D%N 70) 54 = Ok (f_digest f)) /\
    (truthy_opt None = true ->
     truncate_by_bytes [] 120 = Ok (f_digest f)) /\
    (truthy (lit "YanG") = true ->
     truncate_by_bytes (lit "YanG") 20 = Ok (f_author f)) /\
    Utf8.encode (f_digest f) = Some e_digest /\
    (length e_digest <= 120)%nat /\
    Utf8.encode (f_author f) = Some e_author /\
    (length e_author <= 20)%nat.
Proof.
  apply (@digest_and_author_limits (lit "YanG") (repeat 0x4E2D%N 70)
           None None (concat (repeat [0xE4; 0xB8; 0xAD]%N 70))
           (lit "YanG") []);
    reflexivity.
Defined.

(** C6. The byte limit of the title is only checked when the character
    limit holds: a title of 65 code points of four bytes each leaves
    enforcement with 64 code points, which is 256 bytes, above the 192
    bytes of [MAX_TITLE_BYTES], and [create_draft] submits it so. *)
Theorem title_over_byte_limit_after_enforcement :
  exists f e,
    enforce_fields [] (repeat 0x1F600%N 65) None None = Ok f /\
    length (f_title f) = 64%nat /\
    Utf8.encode (f_title f) = Some e /\
    length e = 256%nat /\
    (MAX_TITLE_BYTES < Z.of_nat (length e))%Z /\
    submitted_titles
      (w_log (snd (create_draft [] (repeat 0x1F600%N 65) (lit "<p>x</p>")
                     None (JStr []) None 1 (lit ".") accepting_world))) =
      [f_title f].
Proof.
  eexists _, _. split; [vm_compute; reflexivity|].
  cbn [f_title]. split; [reflexivity|].
  split; [vm_compute; reflexivity|].
  split; [reflexivity|]. split; vm_compute; reflexivity.
Qed.

(** What enforcement does guarantee for every article: the title is at most
    64 characters, the author at most 20 bytes, the digest at most 120. *)
Lemma enforce_fields_bounds
  (cfg title : str) (author digest : option str) (et ea ed : list N) :
  Utf8.encode title = Some et ->
  Utf8.encode (match author with None => cfg | Some a => a end) = Some ea ->
  Utf8.encode (match digest with Some d => d | None => [] end) = Some ed ->
  exists f e_author e_digest,
    enforce_fields cfg title author digest = Ok f /\
    (length (f_title f) <= 64)%nat /\
    Utf8.encode (f_author f) = Some e_author /\
    (length e_author <= 20)%nat /\
    Utf8.encode (f_digest f) = Some e_digest /\
    (length e_digest <= 120)%nat.
Proof.
  intros Ht Ha Hd. unfold enforce_fields.
  destruct (enforce_title_keeps_digest_source title et Ht)
    as (t & n1 & e & Het & Hte & Hlen & _).
  destruct (enforce_author_fits cfg author ea Ha)
    as (a & n2 & e2 & Hea & Hae & Hafit & _).
  destruct (enforce_digest_fits t digest e ed Hte Hd)
    as (d & n3 & e3 & Hed & Hde & Hdfit & _).
  rewrite Het. cbn [rbind]. rewrite Hea. cbn [rbind]. rewrite Hed.
  cbn [rbind]. eexists _, e2, e3. cbn [f_title f_digest f_author].
  repeat split; auto.
Qed.

(** ** The token cache *)

(** What [fetch_token] writes for a token [tok] with a lifetime [ttl],
    read at the world [w]. *)
Lemma fetch_token_stores (forced : bool) (w : world) (r : json)
  (rest : list reply) (tok : jval) (ttl : Z) :
  w_token_replies w = Reply r :: rest ->
  jhas "errcode" r = false ->
  jlookup "access_token" r = Some tok ->
  jget "expires_in" (JNum 7200) r = JNum ttl ->
  let d := [("access_token", tok);
            ("expires_at", JNum (w_clock w (w_tick w) + ttl));
            ("updated_at", JStr (w_stamp w))] in
  fetch_token forced w =
    (Ok tok,
     with_log (CacheWrite d)
       (with_cache d
          (ticked (with_log (TokenRequest forced) (token_answered w))))).
Proof.
  intros Hq He Ht Httl. unfold fetch_token, bind, request_token, answer.
  rewrite Hq. cbn [hd_error ret]. rewrite He, Ht, Httl. reflexivity.
Qed.

(** A request to the token endpoint is logged whatever comes back. *)
Lemma fetch_token_requests (forced : bool) (w : world) :
  exists l,
    w_log (snd (fetch_token forced w)) = w_log w ++ TokenRequest forced :: l.
Proof.
  unfold fetch_token, bind, request_token, answer.
  destruct (w_token_replies w) as [|[|r] rest]; cbn [hd_error raise ret].
  - exists []. reflexivity.
  - exists []. reflexivity.
  - destruct (jhas "errcode" r); [exists []; reflexivity|].
    destruct (jlookup "access_token" r) as [tok|]; [|exists []; reflexivity].
    unfold time_time.
    destruct (jget "expires_in" (JNum 7200) r);
      try (exists []; reflexivity).
    eexists [_]. cbn. rewrite <- app_assoc. reflexivity.
Qed.

(** An unforced call over a readable cache, by cases on what it holds. *)
Lemma get_access_token_cached (w : world) (d : json) :
  w_cache w = CacheDict d ->
  get_access_token false w =
    match jget "expires_at" (JNum 0) d with
    | JNum e =>
        if (w_clock w (w_tick w) <? e - 300)%Z then
          match jlookup "access_token" d with
          | Some t => (Ok t, ticked w)
          | None => fetch_token false (ticked w)
          end
        else fetch_token false (ticked w)
    | _ => fetch_token false (ticked w)
    end.
Proof.
  intros Hc.
  unfold get_access_token, bind, cache_exists, catch, read_cached_token,
    bind, load_cache, time_time.
  cbv beta iota. rewrite !Hc. cbn [negb andb]. cbv beta iota.
  rewrite ?Hc. cbv beta iota.
  destruct (jget "expires_at" (JNum 0) d) as [|e|s]; try reflexivity.
  cbn [w_clock w_tick ticked].
  destruct (w_clock w (w_tick w) <? e - 300)%Z; [|reflexivity].
  destruct (jlookup "access_token" d); reflexivity.
Qed.

(** A forced call, or a call with no cache file, goes to the endpoint. *)
Lemma get_access_token_forced (w : world) :
  get_access_token true w = fetch_token true w.
Proof.
  unfold get_access_token, bind, cache_exists. cbv beta iota.
  cbn [negb andb]. reflexivity.
Qed.

(** C2. With a readable cache holding a token and an expiry: while the
    clock is before the expiry less 300 seconds, an unforced call returns
    the cached token and leaves log, replies and cache file as they were;
    from then on it goes to the token endpoint; and a token that was
    fetched is stored with expiry = clock reading + the lifetime the
    platform declared, 7200 seconds when it declared none. *)
Theorem token_cache_reuse_and_refresh
  (w : world) (d : json) (t : jval) (e : Z) :
  w_cache w = CacheDict d ->
  jlookup "access_token" d = Some t ->
  jlookup "expires_at" d = Some (JNum e) ->
  ((w_clock w (w_tick w) < e - 300)%Z ->
     get_access_token false w = (Ok t, ticked w) /\
     w_log (ticked w) = w_log w /\
     w_token_replies (ticked w) = w_token_replies w /\
     w_cache (ticked w) = w_cache w) /\
  ((e - 300 <= w_clock w (w_tick w))%Z ->
     get_access_token false w = fetch_token false (ticked w) /\
     exists l,
       w_log (snd (get_access_token false w)) =
       w_log w ++ TokenRequest false :: l) /\
  (forall (forced : bool) (w0 : world) (r : json) (rest : list reply)
          (tok : jval),
     w_token_replies w0 = Reply r :: rest ->
     jhas "errcode" r = false ->
     jlookup "access_token" r = Some tok ->
     exists ttl,
       (forall n, jlookup "expires_in" r = Some (JNum n) -> ttl = n) /\
       (jlookup "expires_in" r = None -> ttl = 7200%Z) /\
       (jget "expires_in" (JNum 7200) r = JNum ttl ->
        fst (fetch_token forced w0) = Ok tok /\
        w_cache (snd (fetch_token forced w0)) =
          CacheDict [("access_token", tok);
                     ("expires_at", JNum (w_clock w0 (w_tick w0) + ttl));
                     ("updated_at", JStr (w_stamp w0))])).
Proof.
  intros Hc Ht He.
  pose proof (get_access_token_cached w d Hc) as Hget.
  unfold jget in Hget. rewrite He, Ht in Hget.
  repeat split.
  - rewrite Hget.
    destruct (Z.ltb_spec (w_clock w (w_tick w)) (e - 300)); [reflexivity|lia].
  - rewrite Hget.
    destruct (Z.ltb_spec (w_clock w (w_tick w)) (e - 300)); [lia|reflexivity].
  - rewrite Hget.
    destruct (Z.ltb_spec (w_clock w (w_tick w)) (e - 300)); [lia|].
    apply (fetch_token_requests false (ticked w)).
  - intros forced w0 r rest tok Hq Herr Htok.
    exists (match jlookup "expires_in" r with
            | Some (JNum n) => n
            | _ => 7200%Z
            end).
    split; [intros n ->; reflexivity|].
    split; [intros ->; reflexivity|].
    intros Httl.
    rewrite (fetch_token_stores forced w0 r rest tok _ Hq Herr Htok Httl).
    split; reflexivity.
Qed.

Lemma token_cache_reuse_and_refresh_witness :
  get_access_token false (cached_world 1000 10000 (lit "TOKEN")) =
    (Ok (JStr (lit "TOKEN")), ticked (cached_world 1000 10000 (lit "TOKEN")))
  /\ w_log (ticked (cached_world 1000 10000 (lit "TOKEN"))) = [].
Proof.
  destruct (token_cache_reuse_and_refresh
              (cached_world 1000 10000 (lit "TOKEN"))
              [("access_token", JStr (lit "TOKEN"));
               ("expires_at", JNum (1000 + 10000));
               ("updated_at", JStr [])]
              (JStr (lit "TOKEN")) (1000 + 10000)
              eq_refl eq_refl eq_refl) as (Hfresh & _ & _).
  destruct Hfresh as (Hget & Hlog & _).
  - vm_compute. reflexivity.
  - split; [exact Hget | exact Hlog].
Defined.

(** A token with 10000 seconds left is used as it is, with no request. *)
Example cached_token_used :
  get_access_token false (cached_world 1000 10000 (lit "TOKEN")) =
    (Ok (JStr (lit "TOKEN")), ticked (cached_world 1000 10000 (lit "TOKEN"))).
Proof. reflexivity. Qed.

(** A token with 100 seconds left is inside the margin: the endpoint is
    asked, and the new token is stored for its declared 7200 seconds. *)
Example stale_token_refreshed :
  let w := with_replies [token_reply (lit "NEW") 7200] [] []
             (cached_world 1000 100 (lit "OLD")) in
  fst (get_access_token false w) = Ok (JStr (lit "NEW")) /\
  w_log (snd (get_access_token false w)) =
    [TokenRequest false;
     CacheWrite [("access_token", JStr (lit "NEW"));
                 ("expires_at", JNum 8200); ("updated_at", JStr [])]] /\
  w_cache (snd (get_access_token false w)) =
    CacheDict [("access_token", JStr (lit "NEW"));
               ("expires_at", JNum 8200); ("updated_at", JStr [])].
Proof. vm_compute. repeat split. Qed.

(** ** Submission and the single retry *)

(** What a visit to the token endpoint leaves in the log: the request,
    and the cache write when a token came back. The draft endpoint is not
    touched. *)
Lemma fetch_token_log (forced : bool) (w : world) :
  w_draft_replies (snd (fetch_token forced w)) = w_draft_replies w /\
  match fst (fetch_token forced w) with
  | Ok _ =>
      exists d, w_log (snd (fetch_token forced w)) =
                w_log w ++ [TokenRequest forced; CacheWrite d]
  | Raise _ =>
      w_log (snd (fetch_token forced w)) = w_log w ++ [TokenRequest forced]
  end.
Proof.
  unfold fetch_token, bind, request_token, answer.
  destruct (w_token_replies w) as [|[|r] rest]; cbn [hd_error raise ret];
    try (split; reflexivity).
  destruct (jhas "errcode" r); [split; reflexivity|].
  destruct (jlookup "access_token" r) as [tok|]; [|split; reflexivity].
  unfold time_time.
  destruct (jget "expires_in" (JNum 7200) r); try (split; reflexivity).
  split; [reflexivity|]. eexists. cbn. rewrite <- app_assoc. reflexivity.
Qed.

(** [post_draft] after its first request was answered by [r]. *)
Lemma post_draft_answered (w : world) (token : jval) (a : article)
  (r : json) (rest : list reply) :
  w_draft_replies w = Reply r :: rest ->
  post_draft token a w =
    let w1 := with_log (DraftRequest token a) (draft_answered w) in
    if jhas "errcode" r && jnonzero (jget "errcode" JNull r) then
      if token_expired (jget "errcode" JNull r) then
        match get_access_token true w1 with
        | (Ok token', w2) =>
            match hd_error (w_draft_replies w2) with
            | Some (Reply r2) =>
                (if jhas "errcode" r2 && jnonzero (jget "errcode" JNull r2)
                 then Raise (ApiError (jget "errcode" JNull r2) "create_draft")
                 else Ok r2,
                 with_log (DraftRequest token' a) (draft_answered w2))
            | _ => (Raise ConnectionError,
                    with_log (DraftRequest token' a) (draft_answered w2))
            end
        | (Raise e, w2) => (Raise e, w2)
        end
      else (Raise (ApiError (jget "errcode" JNull r) "create_draft"), w1)
    else (Ok r, w1).
Proof.
  intros Hq. unfold post_draft, bind, request_draft, answer.
  rewrite Hq. cbn [hd_error ret]. cbv zeta.
  destruct (jhas "errcode" r && jnonzero (jget "errcode" JNull r));
    [|reflexivity].
  destruct (token_expired (jget "errcode" JNull r)); [|reflexivity].
  destruct (get_access_token true _) as [[t'|e] w2]; [|reflexivity].
  destruct (w_draft_replies w2) as [|[|r2] rest2]; cbn [hd_error];
    try reflexivity.
  cbn [ret]. destruct (jhas "errcode" r2 && jnonzero (jget "errcode" JNull r2));
    reflexivity.
Qed.

Lemma token_expired_is_error (r : json) :
  token_expired (jget "errcode" JNull r) = true ->
  jhas "errcode" r && jnonzero (jget "errcode" JNull r) = true.
Proof.
  unfold jget, jhas. destruct (jlookup "errcode" r) as [[|n|s]|];
    cbn; try discriminate.
  destruct n; try discriminate; reflexivity.
Qed.

Lemma count_app (p : event -> bool) (l1 l2 : list event) :
  count p (l1 ++ l2) = (count p l1 + count p l2)%nat.
Proof. unfold count. now rewrite filter_app, length_app. Qed.

(** C3, as amended. After a first answer [r] of the draft endpoint:
    with code 40001 or 42001 there is one forced refresh; when it gives a
    token the same article is resubmitted once with it, and the second
    answer decides (an error code there fails); when the refresh raises,
    its exception leaves [create_draft] with no resubmission. Any other
    nonzero code fails at once with no further request, code 0 or no code
    succeeds, and no more than two submissions are ever issued. *)
Theorem draft_retry_policy
  (w : world) (token : jval) (a : article) (r : json) (rest : list reply) :
  w_draft_replies w = Reply r :: rest ->
  let c := jget "errcode" JNull r in
  let w1 := with_log (DraftRequest token a) (draft_answered w) in
  (token_expired c = true ->
     (forall token', fst (get_access_token true w1) = Ok token' ->
        exists d,
          w_log (snd (post_draft token a w)) =
            w_log w ++ [DraftRequest token a; TokenRequest true;
                        CacheWrite d; DraftRequest token' a] /\
          fst (post_draft token a w) =
            match hd_error rest with
            | Some (Reply r2) =>
                if jhas "errcode" r2 && jnonzero (jget "errcode" JNull r2)
                then Raise (ApiError (jget "errcode" JNull r2) "create_draft")
                else Ok r2
            | _ => Raise ConnectionError
            end) /\
     (forall e, fst (get_access_token true w1) = Raise e ->
        fst (post_draft token a w) = Raise e /\
        w_log (snd (post_draft token a w)) =
          w_log w ++ [DraftRequest token a; TokenRequest true])) /\
  (jhas "errcode" r = true -> jnonzero c = true -> token_expired c = false ->
     post_draft token a w = (Raise (ApiError c "create_draft"), w1)) /\
  (jhas "errcode" r && jnonzero c = false ->
     post_draft token a w = (Ok r, w1)) /\
  (count is_draft_request (w_log (snd (post_draft token a w))) <=
   count is_draft_request (w_log w) + 2)%nat.
Proof.
  intros Hq c w1. rewrite (post_draft_answered w token a r rest Hq).
  cbv zeta. subst c. fold w1.
  assert (Hrest : w_draft_replies w1 = rest).
  { unfold w1. cbn. now rewrite Hq. }
  assert (Hlog1 : w_log w1 = w_log w ++ [DraftRequest token a])
    by reflexivity.
  pose proof (fetch_token_log true w1) as (Hdr & Hfl).
  rewrite <- (get_access_token_forced w1) in Hdr, Hfl.
  split; [|split; [|split]].
  - intros Hexp. rewrite (token_expired_is_error r Hexp), Hexp. split.
    + intros token' Hget.
      destruct (get_access_token true w1) as [[t'|e] w2] eqn:Hg;
        cbn [fst snd] in *; [|discriminate].
      injection Hget as ->. destruct Hfl as (d & Hfl). exists d.
      rewrite Hdr, Hrest.
      destruct rest as [|[|r2] rest2]; cbn [hd_error fst snd with_log w_log draft_answered];
        rewrite ?Hfl, ?Hlog1, <- ?app_assoc; split; reflexivity.
    + intros e Hget.
      destruct (get_access_token true w1) as [[t'|e'] w2];
        cbn [fst snd] in *; [discriminate|].
      injection Hget as ->. split; [reflexivity|].
      rewrite Hfl, Hlog1, <- app_assoc. reflexivity.
  - intros Hh Hn Hexp. rewrite Hh, Hn, Hexp. reflexivity.
  - intros ->. reflexivity.
  - destruct (jhas "errcode" r && jnonzero (jget "errcode" JNull r));
      [|cbn [snd]; rewrite Hlog1, count_app; cbn; lia].
    destruct (token_expired (jget "errcode" JNull r));
      [|cbn [snd]; rewrite Hlog1, count_app; cbn; lia].
    destruct (get_access_token true w1) as [[t'|e'] w2];
      cbn [fst snd] in *.
    + destruct Hfl as (d & Hfl).
      destruct (hd_error (w_draft_replies w2)) as [[|r2]|];
        cbn [snd with_log w_log draft_answered];
        rewrite Hfl, Hlog1, !count_app; cbn; lia.
    + rewrite Hfl, Hlog1, !count_app. cbn. lia.
Qed.

Lemma draft_retry_policy_witness :
  post_draft (JStr (lit "OLD")) sample_article
    (with_replies [] [] [error_reply 45009] (quiet_world 1000)) =
  (Raise (ApiError (JNum 45009) "create_draft"),
   with_log (DraftRequest (JStr (lit "OLD")) sample_article)
     (draft_answered
        (with_replies [] [] [error_reply 45009] (quiet_world 1000)))).
Proof.
  destruct (draft_retry_policy
              (with_replies [] [] [error_reply 45009] (quiet_world 1000))
              (JStr (lit "OLD")) sample_article
              [("errcode", JNum 45009); ("errmsg", JStr (lit "error"))] []
              eq_refl) as (_ & Hother & _).
  apply Hother; reflexivity.
Defined.

(** Code 42001, a refresh that succeeds and a second answer that carries
    the draft: two submissions of the same article, one forced refresh. *)
Example retry_after_expiry :
  let w := with_replies [token_reply (lit "NEW") 7200] []
             [error_reply 42001; Reply [("media_id", JStr (lit "DRAFT"))]]
             (quiet_world 1000) in
  fst (post_draft (JStr (lit "OLD")) sample_article w) =
    Ok [("media_id", JStr (lit "DRAFT"))] /\
  w_log (snd (post_draft (JStr (lit "OLD")) sample_article w)) =
    [DraftRequest (JStr (lit "OLD")) sample_article;
     TokenRequest true;
     CacheWrite [("access_token", JStr (lit "NEW"));
                 ("expires_at", JNum 8200); ("updated_at", JStr [])];
     DraftRequest (JStr (lit "NEW")) sample_article].
Proof. vm_compute. split; reflexivity. Qed.

(** Counterexample to C3 as stated: the first answer carries 42001 and the
    token endpoint answers the forced refresh with 40164. The refresh
    raises and the article is not submitted a second time. *)
Lemma retry_without_resubmission :
  let w := with_replies [error_reply 40164] [] [error_reply 42001]
             (quiet_world 1000) in
  hd_error (w_draft_replies w) = Some (error_reply 42001) /\
  fst (post_draft (JStr (lit "OLD")) sample_article w) =
    Raise (ApiError (JNum 40164) "get_access_token") /\
  w_log (snd (post_draft (JStr (lit "OLD")) sample_article w)) =
    [DraftRequest (JStr (lit "OLD")) sample_article; TokenRequest true] /\
  ~ retries_once w (JStr (lit "OLD")) sample_article.
Proof.
  cbv zeta. repeat split.
  intros [_ H]. vm_compute in H. discriminate.
Qed.

(** ** The success criterion of each operation *)

Lemma get_access_token_no_file (w : world) :
  w_cache w = NoFile -> get_access_token false w = fetch_token false w.
Proof.
  intros Hc. unfold get_access_token, bind, cache_exists. cbv beta iota.
  rewrite Hc. reflexivity.
Qed.

Lemma upload_image_answered (path : str) (w w1 : world) (tok : jval)
  (r : json) (rest : list reply) :
  w_exists w path = true ->
  get_access_token false w = (Ok tok, w1) ->
  w_upload_replies w1 = Reply r :: rest ->
  upload_image path w =
    (if jhas "errcode" r && jnonzero (jget "errcode" JNull r)
     then Raise (ApiError (jget "errcode" JNull r) "upload_image")
     else Ok (jget "media_id" JNull r, jget "url" (JStr []) r),
     with_log (UploadRequest tok path) (upload_answered w1)).
Proof.
  intros Hex Hget Hq. unfold upload_image, bind, path_exists.
  cbv beta iota. rewrite Hex. cbn [negb]. rewrite Hget.
  unfold request_upload, answer. rewrite Hq. cbn [hd_error ret].
  destruct (jhas "errcode" r && jnonzero (jget "errcode" JNull r));
    reflexivity.
Qed.

(** C10. For an answer [r] that carries the key [errcode] with value [v]:
    [get_access_token] raises whatever [v] is, also for 0, while
    [upload_image] and [create_draft] raise only when [v] is not 0 and
    return normally when it is 0. *)
Theorem errcode_criteria_differ (r : json) (v : jval) :
  jlookup "errcode" r = Some v ->
  (forall forced w rest,
     w_token_replies w = Reply r :: rest ->
     forced = true \/ w_cache w = NoFile ->
     fst (get_access_token forced w) =
       Raise (ApiError v "get_access_token")) /\
  (forall path w w1 tok rest,
     w_exists w path = true ->
     get_access_token false w = (Ok tok, w1) ->
     w_upload_replies w1 = Reply r :: rest ->
     fst (upload_image path w) =
       if jnonzero v then Raise (ApiError v "upload_image")
       else Ok (jget "media_id" JNull r, jget "url" (JStr []) r)) /\
  (forall token a w rest,
     w_draft_replies w = Reply r :: rest ->
     token_expired v = false ->
     fst (post_draft token a w) =
       if jnonzero v then Raise (ApiError v "create_draft") else Ok r).
Proof.
  intros Hv.
  assert (Hhas : jhas "errcode" r = true) by (unfold jhas; now rewrite Hv).
  assert (Hget : jget "errcode" JNull r = v) by (unfold jget; now rewrite Hv).
  split; [|split].
  - intros forced w rest Hq Hwhy.
    assert (get_access_token forced w = fetch_token forced w) as ->.
    { destruct Hwhy as [->|Hc].
      - apply get_access_token_forced.
      - destruct forced; [apply get_access_token_forced|].
        now apply get_access_token_no_file. }
    unfold fetch_token, bind, request_token, answer. rewrite Hq.
    cbn [hd_error ret]. rewrite Hhas, Hget. reflexivity.
  - intros path w w1 tok rest Hex Htok Hq.
    rewrite (upload_image_answered path w w1 tok r rest Hex Htok Hq).
    rewrite Hhas, Hget. cbn [fst andb]. reflexivity.
  - intros token a w rest Hq Hexp.
    rewrite (post_draft_answered w token a r rest Hq). cbv zeta.
    rewrite Hhas, Hget, Hexp. cbn [andb].
    destruct (jnonzero v); reflexivity.
Qed.

Lemma errcode_criteria_differ_witness :
  fst (get_access_token true
         (with_replies [Reply [("errcode", JNum 0)]] [] []
            (quiet_world 1000))) =
    Raise (ApiError (JNum 0) "get_access_token") /\
  fst (post_draft (JStr (lit "TOKEN")) sample_article
         (with_replies [] [] [Reply [("errcode", JNum 0)]]
            (quiet_world 1000))) =
    Ok [("errcode", JNum 0)].
Proof.
  destruct (errcode_criteria_differ [("errcode", JNum 0)] (JNum 0) eq_refl)
    as (Htoken & _ & Hdraft).
  split.
  - apply (Htoken true _ []); [reflexivity | left; reflexivity].
  - apply (Hdraft _ _ _ []); reflexivity.
Defined.

(** An upload answered with [errcode] 0 succeeds. *)
Example upload_errcode_zero :
  fst (upload_image (lit "pic.png")
         (with_files (fun _ => true)
            (with_replies []
               [Reply [("errcode", JNum 0); ("media_id", JStr (lit "M"));
                       ("url", JStr (lit "http://u"))]] []
               (cached_world 1000 10000 (lit "TOKEN"))))) =
    Ok (JStr (lit "M"), JStr (lit "http://u")).
Proof. reflexivity. Qed.

(** ** The matcher against [matches] *)

Module ReFacts.

Lemma star_greedy_sound (R : Type) (p : charset) (s : str)
  (k : str -> option R) (x : R) :
  star_greedy R p s k = Some x ->
  exists m rest, s = m ++ rest /\ forallb p m = true /\ k rest = Some x.
Proof.
  induction s as [|c s IH]; cbn [star_greedy].
  - intros H. exists [], []. auto.
  - destruct (p c) eqn:Hp.
    + destruct (star_greedy R p s k) as [y|] eqn:Hs.
      * intros [= ->]. destruct (IH eq_refl) as (m & rest & -> & Hm & Hk).
        exists (c :: m), rest. cbn. rewrite Hp, Hm. auto.
      * intros H. exists [], (c :: s). auto.
    + intros H. exists [], (c :: s). auto.
Qed.

Lemma star_greedy_complete (R : Type) (p : charset) (m rest : str)
  (k : str -> option R) (x : R) :
  forallb p m = true -> k rest = Some x ->
  exists y, star_greedy R p (m ++ rest) k = Some y.
Proof.
  induction m as [|c m IH]; cbn [forallb app].
  - intros _ Hk. destruct rest as [|c rest]; cbn [star_greedy].
    + eauto.
    + destruct (p c); [|eauto].
      destruct (star_greedy R p rest k); eauto.
  - intros Hm Hk. apply andb_prop in Hm as [Hc Hm].
    cbn [star_greedy]. rewrite Hc.
    destruct (IH Hm Hk) as (y & ->). eauto.
Qed.

Lemma star_lazy_sound (R : Type) (p : charset) (s : str)
  (k : str -> option R) (x : R) :
  star_lazy R p s k = Some x ->
  exists m rest, s = m ++ rest /\ forallb p m = true /\ k rest = Some x.
Proof.
  induction s as [|c s IH]; cbn [star_lazy].
  - destruct (k []) eqn:Hk; [|discriminate].
    intros [= ->]. exists [], []. auto.
  - destruct (k (c :: s)) eqn:Hk.
    + intros [= ->]. exists [], (c :: s). auto.
    + destruct (p c) eqn:Hp; [|discriminate].
      intros H. destruct (IH H) as (m & rest & -> & Hm & Hk').
      exists (c :: m), rest. cbn. rewrite Hp, Hm. auto.
Qed.

Lemma star_lazy_complete (R : Type) (p : charset) (m rest : str)
  (k : str -> option R) (x : R) :
  forallb p m = true -> k rest = Some x ->
  exists y, star_lazy R p (m ++ rest) k = Some y.
Proof.
  induction m as [|c m IH]; cbn [forallb app].
  - intros _ Hk. destruct rest as [|c rest]; cbn [star_lazy];
      rewrite Hk; eauto.
  - intros Hm Hk. apply andb_prop in Hm as [Hc Hm].
    cbn [star_lazy]. destruct (k (c :: m ++ rest)); [eauto|].
    rewrite Hc. apply (IH Hm Hk).
Qed.

Lemma firstn_match_length (m rest : str) :
  firstn (length (m ++ rest) - length rest) (m ++ rest) = m.
Proof.
  rewrite length_app, Nat.add_sub. apply firstn_prefix_length.
Qed.

(** Soundness and completeness of [run], proved together because the
    look-ahead turns each into the other. *)
Lemma run_correct (ic : bool) (r : regex) :
  (forall R caps s k x,
     run R ic r caps s k = Some x ->
     exists m rest caps',
       s = m ++ rest /\ matches ic r caps m rest caps' /\
       k caps' rest = Some x) /\
  (forall R caps m rest caps' k x,
     matches ic r caps m rest caps' -> k caps' rest = Some x ->
     exists y, run R ic r caps (m ++ rest) k = Some y).
Proof.
  induction r as [|c|p|r1 IH1 r2 IH2|r1 IH1 r2 IH2|g p|n r IH|r IH].
  - (* Eps *)
    split.
    + intros R caps s k x H. exists [], s, caps. cbn. auto.
    + intros R caps m rest caps' k x (-> & ->) Hk. cbn. eauto.
  - (* Chr *)
    split.
    + intros R caps s k x H. cbn in H. destruct s as [|y s]; [discriminate|].
      destruct (chr_eqb ic c y) eqn:Hc; [|discriminate].
      exists [y], s, caps. cbn. eauto 6.
    + intros R caps m rest caps' k x (y & -> & Hc & ->) Hk. cbn.
      rewrite Hc. eauto.
  - (* Cls *)
    split.
    + intros R caps s k x H. cbn in H. destruct s as [|y s]; [discriminate|].
      destruct (p y) eqn:Hc; [|discriminate].
      exists [y], s, caps. cbn. eauto 6.
    + intros R caps m rest caps' k x (y & -> & Hc & ->) Hk. cbn.
      rewrite Hc. eauto.
  - (* Cat *)
    destruct IH1 as [S1 C1], IH2 as [S2 C2]. split.
    + intros R caps s k x H. cbn [run] in H.
      apply S1 in H as (m1 & rest1 & caps1 & -> & H1 & H).
      apply S2 in H as (m2 & rest & caps2 & -> & H2 & H).
      exists (m1 ++ m2), rest, caps2. rewrite <- app_assoc.
      split; [reflexivity|]. split; [|exact H].
      cbn [matches]. exists m1, m2, caps1. auto.
    + intros R caps m rest caps' k x (m1 & m2 & caps1 & -> & H1 & H2) Hk.
      cbn [run]. rewrite <- app_assoc.
      destruct (C2 R caps1 m2 rest caps' k x H2 Hk) as (y & Hy).
      apply (C1 R caps m1 (m2 ++ rest) caps1 _ y H1 Hy).
  - (* Alt *)
    destruct IH1 as [S1 C1], IH2 as [S2 C2]. split.
    + intros R caps s k x H. cbn [run] in H.
      destruct (run R ic r1 caps s k) as [y|] eqn:H1.
      * injection H as ->.
        apply S1 in H1 as (m & rest & caps' & -> & Hm & Hk).
        exists m, rest, caps'. cbn [matches]. auto.
      * apply S2 in H as (m & rest & caps' & -> & Hm & Hk).
        exists m, rest, caps'. cbn [matches]. auto.
    + intros R caps m rest caps' k x [H|H] Hk; cbn [run].
      * destruct (C1 R caps m rest caps' k x H Hk) as (y & ->). eauto.
      * destruct (run R ic r1 caps (m ++ rest) k); [eauto|].
        apply (C2 R caps m rest caps' k x H Hk).
  - (* Star *)
    split.
    + intros R caps s k x H. cbn [run] in H. destruct g.
      * apply star_greedy_sound in H as (m & rest & -> & Hm & Hk).
        exists m, rest, caps. cbn. auto.
      * apply star_lazy_sound in H as (m & rest & -> & Hm & Hk).
        exists m, rest, caps. cbn. auto.
    + intros R caps m rest caps' k x (Hm & ->) Hk. cbn [run]. destruct g.
      * apply (star_greedy_complete R p m rest (k caps) x Hm Hk).
      * apply (star_lazy_complete R p m rest (k caps) x Hm Hk).
  - (* Group *)
    destruct IH as [S C]. split.
    + intros R caps s k x H. cbn [run] in H.
      apply S in H as (m & rest & caps1 & -> & Hm & Hk).
      rewrite firstn_match_length in Hk.
      exists m, rest, (set_group n m caps1). cbn [matches]. eauto.
    + intros R caps m rest caps' k x (caps1 & Hm & ->) Hk. cbn [run].
      apply (C R caps m rest caps1 _ x Hm).
      rewrite firstn_match_length. exact Hk.
  - (* NotAhead *)
    destruct IH as [S C]. split.
    + intros R caps s k x H. cbn [run] in H.
      destruct (run unit ic r caps s (fun _ _ => Some tt)) eqn:Hr;
        [discriminate|].
      exists [], s, caps. cbn [matches app]. repeat split; auto.
      intros m' rest' c' -> Hm.
      destruct (C unit caps m' rest' c' (fun _ _ => Some tt) tt Hm eq_refl)
        as (y & Hy).
      congruence.
    + intros R caps m rest caps' k x (-> & -> & Hno) Hk. cbn [run app].
      destruct (run unit ic r caps rest (fun _ _ => Some tt)) eqn:Hr;
        [|eauto].
      apply S in Hr as (m' & rest' & c' & Hrest & Hm & _).
      exfalso. apply (Hno m' rest' c' Hrest Hm).
Qed.

(** What [match_at] returns is a match in the sense of [matches]. *)
Lemma match_at_sound (ic : bool) (r : regex) (s : str) (m : rmatch) :
  match_at ic r s = Some m ->
  exists rest,
    s = m_text m ++ rest /\ matches ic r [] (m_text m) rest (m_caps m).
Proof.
  unfold match_at. intros H.
  apply (proj1 (run_correct ic r)) in H as (t & rest & caps' & -> & Hm & Hk).
  rewrite firstn_match_length in Hk. injection Hk as <-.
  exists rest. auto.
Qed.

(** Where a text matches, [match_at] finds some match. *)
Lemma match_at_complete (ic : bool) (r : regex) (t rest : str)
  (caps' : captures) :
  matches ic r [] t rest caps' ->
  exists m, match_at ic r (t ++ rest) = Some m.
Proof.
  intros H. unfold match_at.
  apply (proj2 (run_correct ic r) rmatch [] t rest caps' _
           {| m_text := t; m_caps := caps' |} H).
  now rewrite firstn_match_length.
Qed.

End ReFacts.

(** ** [re.sub]: the pieces of the subject *)

Module SubFacts.
Import ReFacts.

(** The pieces of a scan, put back together, are the subject. *)
Lemma scan_partition (ic : bool) (r : regex) (s : str) :
  forall limit skip,
    concat (map piece_text (scan ic r limit skip s)) = skipn skip s.
Proof.
  induction s as [|c s IH]; intros limit skip.
  - cbn [scan]. rewrite skipn_nil.
    destruct (spent limit); [reflexivity|].
    destruct (match_at ic r []) as [m|] eqn:Hm; [|reflexivity].
    apply match_at_sound in Hm as (rest & Hs & _).
    symmetry in Hs. apply app_eq_nil in Hs as [Hs _].
    cbn. now rewrite Hs.
  - cbn [scan]. destruct skip as [|n]; [|apply IH].
    cbn [skipn].
    destruct (spent limit); [cbn; now rewrite IH|].
    destruct (match_at ic r (c :: s)) as [m|] eqn:Hm;
      [|cbn; now rewrite IH].
    apply match_at_sound in Hm as (rest & Hs & _).
    cbn [map concat piece_text].
    destruct (m_text m) as [|c' t] eqn:Ht; cbn [length].
    + cbn. now rewrite IH.
    + rewrite IH. cbn [app] in Hs. injection Hs as -> ->.
      cbn [app]. f_equal. rewrite skipn_app, Nat.sub_diag, skipn_all.
      reflexivity.
Qed.



(** Where nothing matches, the character is copied. *)
Lemma scan_copy (ic : bool) (r : regex) (limit : option nat)
  (c : codepoint) (s : str) :
  match_at ic r (c :: s) = None ->
  scan ic r limit 0 (c :: s) = Copied c :: scan ic r limit 0 s.
Proof.
  intros Hm. cbn [scan]. rewrite Hm. destruct (spent limit); reflexivity.
Qed.


Lemma concat_map_copied (f : rmatch -> str) (s : str) :
  concat (map (fun p => match p with
                        | Copied c => [c]
                        | Matched m => f m
                        end) (map Copied s)) = s.
Proof.
  induction s as [|c s IH]; [reflexivity|]. cbn. now rewrite IH.
Qed.

End SubFacts.

(** ** Literal runs and the shape of an [<img>] match *)

Module ShapeFacts.
Import ReFacts.




End ShapeFacts.

(** ** Inline images *)




(** ** The editor rewrite *)







(** On a style that ends its declarations with semicolons a second run
    changes nothing. *)
Example editor_rewrite_twice :
  let x := lit "<p style=" ++ dq ++ lit "color: red; box-shadow: 1px 2px;"
             ++ dq ++ lit ">a</p>  <p>b</p>" in
  _fix_wechat_editor_issues x =
    lit "<p style=" ++ dq
      ++ lit "color: red !important; text-indent: 0 !important;" ++ dq
      ++ lit ">a</p><p>b</p>" /\
  _fix_wechat_editor_issues (_fix_wechat_editor_issues x) =
    _fix_wechat_editor_issues x.
Proof. cbv zeta. split; vm_compute; reflexivity. Qed.

(** ** Patterns that begin with [<] and end with [>] *)

Module AngleFacts.
Import ReFacts SubFacts.

Ltac fold_case_cases :=
  unfold fold_case;
  repeat match goal with
         | |- context [(?a <=? ?b)%N] => destruct (N.leb_spec a b)
         | |- context [(?a =? ?b)%N] => destruct (N.eqb_spec a b)
         end; cbn [andb orb]; intros; try lia.

Lemma fold_case_lt (x : codepoint) : fold_case x = 0x3C%N -> x = 0x3C%N.
Proof. fold_case_cases. Qed.

Lemma fold_case_gt (x : codepoint) : fold_case x = 0x3E%N -> x = 0x3E%N.
Proof. fold_case_cases. Qed.

Lemma chr_eqb_lt (ic : bool) (x : codepoint) :
  chr_eqb ic 0x3C%N x = true -> x = 0x3C%N.
Proof.
  unfold chr_eqb. destruct ic; intros H; apply N.eqb_eq in H.
  - apply fold_case_lt. now rewrite <- H.
  - now symmetry.
Qed.

Lemma chr_eqb_gt (ic : bool) (x : codepoint) :
  chr_eqb ic 0x3E%N x = true -> x = 0x3E%N.
Proof.
  unfold chr_eqb. destruct ic; intros H; apply N.eqb_eq in H.
  - apply fold_case_gt. now rewrite <- H.
  - now symmetry.
Qed.

Lemma matches_starts_with_lt (ic : bool) (r : regex) :
  starts_with_lt r = true ->
  forall caps m rest caps',
    matches ic r caps m rest caps' -> exists m', m = 0x3C%N :: m'.
Proof.
  induction r as [|c|p|r1 IH1 r2 IH2|r1 IH1 r2 IH2|g p|n r IH|r IH];
    cbn [starts_with_lt]; try discriminate; intros Hs caps m rest caps'.
  - apply N.eqb_eq in Hs. subst c. intros (x & -> & Hx & _).
    apply chr_eqb_lt in Hx. subst x. now exists [].
  - intros (m1 & m2 & caps1 & -> & H1 & _).
    destruct (IH1 Hs _ _ _ _ H1) as (m' & ->). now exists (m' ++ m2).
  - apply andb_prop in Hs as [Hs1 Hs2]. intros [H|H]; eauto.
  - intros (caps1 & H & _). eauto.
Qed.


(** Nothing matches at a character other than [<]. *)
Lemma match_at_not_lt (ic : bool) (r : regex) (c : codepoint) (s : str) :
  starts_with_lt r = true -> not_lt c = true ->
  match_at ic r (c :: s) = None.
Proof.
  intros Hr Hc. destruct (match_at ic r (c :: s)) as [m|] eqn:Hm;
    [exfalso|reflexivity].
  apply match_at_sound in Hm as (rest & Hs & Hm).
  destruct (matches_starts_with_lt ic r Hr _ _ _ _ Hm) as (m' & Ht).
  rewrite Ht in Hs. injection Hs as -> _. discriminate.
Qed.

(** Text without [<] is copied. *)
Lemma scan_plain_prefix (ic : bool) (r : regex) (limit : option nat)
  (u s : str) :
  starts_with_lt r = true -> forallb not_lt u = true ->
  scan ic r limit 0 (u ++ s) = map Copied u ++ scan ic r limit 0 s.
Proof.
  intros Hr. induction u as [|c u IH]; [reflexivity|].
  cbn [forallb]. intros H. apply andb_prop in H as [Hc Hu].
  cbn [app map]. rewrite scan_copy by now apply match_at_not_lt.
  now rewrite IH.
Qed.



End AngleFacts.

(** ** One deleting pass over a clean tag *)

Module PassFacts.
Import ReFacts SubFacts AngleFacts.




Lemma no_angle_not_gt (s : str) :
  forallb no_angle s = true -> forallb not_gt s = true.
Proof.
  induction s as [|c s IH]; [reflexivity|]. cbn [forallb]. unfold no_angle.
  intros H. apply andb_prop in H as [Hc Hs]. apply andb_prop in Hc as [_ H2].
  rewrite H2. cbn. auto.
Qed.



End PassFacts.

(** ** Cover tags are clean and match their pattern *)

Module CoverFacts.
Import ReFacts SubFacts AngleFacts PassFacts.






Lemma ci_eqb_no_angle (l m : str) :
  ci_eqb l m = true -> forallb no_angle l = true ->
  forallb no_angle m = true.
Proof.
  revert m. induction l as [|c l IH]; intros [|x m]; cbn [ci_eqb forallb];
    try discriminate; auto.
  intros H Hl. apply andb_prop in H as [Hc H].
  apply andb_prop in Hl as [Hca Hl]. rewrite (IH m H Hl), andb_true_r.
  unfold chr_eqb in Hc. apply N.eqb_eq in Hc.
  unfold no_angle, not_lt, not_gt in *.
  destruct (N.eqb_spec x 0x3C) as [->|_].
  - change (fold_case 0x3C%N) with 0x3C%N in Hc. apply fold_case_lt in Hc.
    subst c. discriminate.
  - destruct (N.eqb_spec x 0x3E) as [->|_]; [|reflexivity].
    change (fold_case 0x3E%N) with 0x3E%N in Hc. apply fold_case_gt in Hc.
    subst c. discriminate.
Qed.




(** [<img], in any case, is [<] and three letters. *)
Lemma ci_img_head (h : str) :
  ci_eqb (lit "<img") h = true ->
  exists h', h = 0x3C%N :: h' /\ forallb no_angle h' = true.
Proof.
  change (lit "<img") with (0x3C%N :: lit "img").
  destruct h as [|x h']; cbn [ci_eqb]; [discriminate|].
  intros H. apply andb_prop in H as [Hx Hh].
  apply chr_eqb_lt in Hx. subst x. exists h'. split; [reflexivity|].
  now apply (ci_eqb_no_angle (lit "img")).
Qed.


End CoverFacts.

Module CoverMatch.
Import ReFacts SubFacts AngleFacts PassFacts CoverFacts.





End CoverMatch.

(** ** The cover-strip stage on a cover tag *)

Module StageFacts.
Import ReFacts SubFacts AngleFacts PassFacts CoverFacts CoverMatch.


Lemma remove_cover_tags_passes (content : str) :
  remove_cover_tags content =
    strip (cover_attr_pattern "title=")
      (strip (cover_attr_pattern "alt=") (strip cover_src_pattern content)).
Proof. reflexivity. Qed.




End StageFacts.

(** ** The title comment followed by a tag *)

Module CommentFacts.
Import ReFacts SubFacts AngleFacts PassFacts CoverFacts CoverMatch.


Lemma not_gt_false (x : codepoint) : not_gt x = false -> x = 0x3E%N.
Proof.
  unfold not_gt. destruct (N.eqb_spec x 0x3E); [auto|discriminate].
Qed.

Lemma ci_eqb_not_gt (l m : str) :
  ci_eqb l m = true -> forallb not_gt l = true -> forallb not_gt m = true.
Proof.
  revert m. induction l as [|c l IH]; intros [|x m]; cbn [ci_eqb forallb];
    try discriminate; auto.
  intros H Hl. apply andb_prop in H as [Hc H].
  apply andb_prop in Hl as [Hca Hl]. rewrite (IH m H Hl), andb_true_r.
  unfold chr_eqb in Hc. apply N.eqb_eq in Hc. unfold not_gt in *.
  destruct (N.eqb_spec x 0x3E) as [->|_]; [|reflexivity].
  change (fold_case 0x3E%N) with 0x3E%N in Hc. apply fold_case_gt in Hc.
  subst c. discriminate.
Qed.

(** With [IGNORECASE] a literal matches the texts equal to it up to
    case. *)
Lemma matches_ci_lit_inv (l : str) :
  forall caps m rest caps',
    matches true (Lit l) caps m rest caps' ->
    ci_eqb l m = true /\ caps' = caps.
Proof.
  induction l as [|c l IH]; intros caps m rest caps'; cbn [Lit matches].
  - intros (-> & ->). auto.
  - intros (m1 & m2 & caps1 & -> & (x & -> & Hx & ->) & H2).
    apply IH in H2 as (H2 & ->). cbn [app ci_eqb]. now rewrite Hx, H2.
Qed.

(** [-->], in any case, is two dashes and [>]. *)
Lemma ci_comment_end (e : str) :
  ci_eqb (lit "-->") e = true ->
  exists e', e = e' ++ [0x3E%N] /\ forallb not_gt e' = true.
Proof.
  change (lit "-->") with [0x2D; 0x2D; 0x3E]%N.
  destruct e as [|x1 [|x2 [|x3 [|x4 e]]]]; cbn [ci_eqb];
    rewrite ?andb_false_r; try discriminate.
  intros H. apply andb_prop in H as [H1 H].
  apply andb_prop in H as [H2 H]. apply andb_prop in H as [H3 _].
  apply chr_eqb_gt in H3. subst x3. exists [x1; x2]. split; [reflexivity|].
  apply (ci_eqb_not_gt [0x2D; 0x2D]%N [x1; x2]); [|reflexivity].
  cbn [ci_eqb]. now rewrite H1, H2.
Qed.

End CommentFacts.

Module CollapseFacts.
Import ReFacts SubFacts AngleFacts PassFacts CoverFacts CoverMatch.
Import CommentFacts.



(** The text of a match of the title-comment pattern. *)
Lemma title_comment_pattern_shape (m rest : str) (caps' : captures) :
  matches true title_comment_pattern [] m rest caps' ->
  exists gbody w body,
    m = (gbody ++ [0x3E%N]) ++ w ++ (0x3C%N :: body ++ [0x3E%N]) /\
    forallb not_gt gbody = true /\ forallb space w = true /\
    forallb not_gt body = true /\
    group 1 caps' = gbody ++ [0x3E%N].
Proof.
  unfold title_comment_pattern. cbn [Seq matches].
  intros (g & ? & c1 & -> &
            (c1' & (o & ? & d1 & -> & Ho &
                    X & ? & d2 & -> & (HX & ->) &
                    tw & ? & d3 & -> & Htw &
                    Y & e & d4 & -> & (HY & ->) & He) & ->) &
          w & ? & c2 & -> & (Hw & ->) &
          h & ? & c3 & -> & Hh &
          Z & ? & c4 & -> & (HZ & ->) &
          x & -> & Hx & ->).
  apply matches_ci_lit_inv in Ho as (Ho & ->).
  apply matches_ci_lit_inv in Htw as (Htw & ->).
  apply matches_ci_lit_inv in He as (He & ->).
  apply matches_ci_lit_inv in Hh as (Hh & ->).
  apply chr_eqb_gt in Hx. subst x.
  destruct (ci_comment_end e He) as (e' & -> & He').
  destruct (ci_img_head h Hh) as (h' & -> & Hh').
  exists (o ++ X ++ tw ++ Y ++ e'), w, (h' ++ Z).
  split; [|split; [|split; [|split]]].
  - cbn [app]. repeat (rewrite <- app_assoc || rewrite <- app_comm_cons).
    reflexivity.
  - pose proof (ci_eqb_not_gt (lit "<!--") o Ho eq_refl).
    pose proof (ci_eqb_not_gt title_word tw Htw eq_refl).
    repeat first [rewrite forallb_app | progress cbn [forallb app]];
      repeat (apply andb_true_intro; split); auto.
  - exact Hw.
  - pose proof (no_angle_not_gt h' Hh').
    rewrite forallb_app. apply andb_true_intro. split; assumption.
  - cbn [group set_group Nat.eqb].
    repeat (rewrite <- app_assoc || rewrite <- app_comm_cons).
    reflexivity.
Qed.


End CollapseFacts.

Module CollapseMain.
Import ReFacts SubFacts AngleFacts PassFacts CoverFacts CoverMatch.
Import CommentFacts CollapseFacts StageFacts.







End CollapseMain.

Module SrcExact.
Import ReFacts SubFacts AngleFacts PassFacts CoverFacts CoverMatch.
Import CommentFacts CollapseFacts StageFacts CollapseMain.




End SrcExact.

(** ** The cover-strip stage *)






(** Only the first title comment loses its tag. *)
Example collapse_once :
  _remove_cover_image
    (lit "<!-- " ++ title_word ++ lit " -->  <img src='a'><!--"
       ++ title_word ++ lit "--><img>") =
  lit "<!-- " ++ title_word ++ lit " --><!--" ++ title_word
    ++ lit "--><img>".
Proof. vm_compute. reflexivity. Qed.

(** A refused upload leaves its tag alone and the next image is still
    uploaded and rewritten, its other attributes untouched. *)
Example failed_upload_does_not_stop_the_rest :
  fst (_upload_content_images two_images_html (lit ".") two_images_world) =
    Ok (lit "<img " ++ attr (lit "src") (lit "a.png")
          ++ lit "><p>x</p><img class='k' "
          ++ attr (lit "src") (lit "http://mmbiz.qpic.cn/b") ++ lit " "
          ++ attr (lit "alt") (lit "y") ++ lit ">") /\
  w_log (snd (_upload_content_images two_images_html (lit ".")
                two_images_world)) =
    [UploadRequest (JStr (lit "TOKEN")) (lit "a.png");
     UploadRequest (JStr (lit "TOKEN")) (lit "b.png")].
Proof. split; vm_compute; reflexivity. Qed.

(* ================================================================== *)
(** * Further properties of the code *)

(** ** [truncate_by_bytes] beyond its contract *)

Lemma truncate_loop_negative (text : str) (et : list N) (n : Z) (i : nat) :
  Utf8.encode text = Some et -> (n < 0)%Z ->
  truncate_loop text n i = Ok [].
Proof.
  intros Ht Hn. induction i as [|i IH]; [reflexivity|].
  destruct (Utf8Facts.encode_split (S i) text et Ht) as (e1 & _ & H1 & _ & _).
  cbn [truncate_loop]. unfold Utf8.encode_r. rewrite H1. cbn [rbind].
  destruct (Z.leb_spec (Z.of_nat (length e1)) n); [lia|exact IH].
Qed.

Lemma truncate_ok_encodes (s r : str) (n : Z) :
  truncate_by_bytes s n = Ok r -> exists es, Utf8.encode s = Some es.
Proof.
  unfold truncate_by_bytes, Utf8.encode_r.
  destruct (Utf8.encode s) as [es|]; [eauto|discriminate].
Qed.

(** X1. A negative limit gives the empty string, for every text that
    encodes. *)
Theorem truncate_by_bytes_negative_limit (s : str) (es : list N) (n : Z) :
  Utf8.encode s = Some es -> (n < 0)%Z -> truncate_by_bytes s n = Ok [].
Proof.
  intros Hs Hn. unfold truncate_by_bytes, Utf8.encode_r. rewrite Hs.
  cbn [rbind]. destruct (Z.leb_spec (Z.of_nat (length es)) n); [lia|].
  now apply (truncate_loop_negative s es).
Qed.

Lemma truncate_by_bytes_negative_limit_witness :
  truncate_by_bytes [0x4E2D; 0x61]%N (-1) = Ok [].
Proof.
  apply (truncate_by_bytes_negative_limit [0x4E2D; 0x61]%N
           [0xE4; 0xB8; 0xAD; 0x61]%N (-1)); [reflexivity|lia].
Defined.

(** The result as an index, for any limit. *)
Lemma truncate_by_bytes_index (s : str) (es : list N) (n : Z) :
  Utf8.encode s = Some es ->
  exists j e,
    truncate_by_bytes s n = Ok (firstn j s) /\ (j <= length s)%nat /\
    Utf8.encode (firstn j s) = Some e /\
    ((0 <= n)%Z -> (Z.of_nat (length e) <= n)%Z) /\
    (forall k ek, (k <= length s)%nat ->
                  Utf8.encode (firstn k s) = Some ek ->
                  (Z.of_nat (length ek) <= n)%Z -> (k <= j)%nat).
Proof.
  intros Hs. destruct (Z.lt_ge_cases n 0) as [Hn|Hn].
  - exists 0%nat, []. rewrite (truncate_by_bytes_negative_limit s es n Hs Hn).
    cbn [firstn]. repeat split; auto; try lia.
  - destruct (truncate_by_bytes_spec s es n Hs Hn)
      as (j & e & Hr & Hj & He & Hfit & Hmax & _).
    exists j, e. repeat split; auto.
Qed.

(** X2. Truncating twice at the same limit changes nothing more. *)
Theorem truncate_by_bytes_idempotent (s r : str) (n : Z) :
  truncate_by_bytes s n = Ok r -> truncate_by_bytes r n = Ok r.
Proof.
  intros Hr. destruct (truncate_ok_encodes s r n Hr) as (es & Hs).
  destruct (Z.lt_ge_cases n 0) as [Hn|Hn].
  - rewrite (truncate_by_bytes_negative_limit s es n Hs Hn) in Hr.
    injection Hr as <-. now apply (truncate_by_bytes_negative_limit [] []).
  - destruct (truncate_by_bytes_fits s es n Hs Hn)
      as (r' & er & Hr' & Her & Hfit & _).
    rewrite Hr in Hr'. injection Hr' as <-.
    now apply (truncate_by_bytes_id r er).
Qed.

Lemma truncate_by_bytes_idempotent_witness :
  truncate_by_bytes [0x4E2D]%N 4 = Ok [0x4E2D]%N.
Proof.
  apply (truncate_by_bytes_idempotent [0x4E2D; 0x6587; 0x61]%N [0x4E2D]%N 4).
  reflexivity.
Defined.

(** X3. A larger limit keeps at least as much: the result at the smaller
    limit is a prefix of the result at the larger one. *)
Theorem truncate_by_bytes_monotone (s r1 r2 : str) (n m : Z) :
  (n <= m)%Z ->
  truncate_by_bytes s n = Ok r1 -> truncate_by_bytes s m = Ok r2 ->
  exists t, r2 = r1 ++ t.
Proof.
  intros Hnm H1 H2. destruct (truncate_ok_encodes s r1 n H1) as (es & Hs).
  destruct (truncate_by_bytes_index s es n Hs)
    as (j1 & e1 & Hr1 & Hj1 & He1 & Hfit1 & _).
  destruct (truncate_by_bytes_index s es m Hs)
    as (j2 & e2 & Hr2 & Hj2 & He2 & _ & Hmax2).
  rewrite H1 in Hr1. injection Hr1 as ->.
  rewrite H2 in Hr2. injection Hr2 as ->.
  assert (Hle : (j1 <= j2)%nat).
  { destruct (Z.lt_ge_cases n 0) as [Hn|Hn].
    - rewrite (truncate_by_bytes_negative_limit s es n Hs Hn) in H1.
      injection H1 as H1. apply (f_equal (@length _)) in H1.
      rewrite length_firstn, Nat.min_l in H1 by exact Hj1. cbn in H1. lia.
    - apply (Hmax2 j1 e1 Hj1 He1). specialize (Hfit1 Hn). lia. }
  exists (firstn (j2 - j1) (skipn j1 s)).
  rewrite <- (firstn_skipn j1 (firstn j2 s)) at 1.
  rewrite firstn_firstn, Nat.min_l by exact Hle.
  f_equal. now rewrite skipn_firstn_comm.
Qed.

Lemma truncate_by_bytes_monotone_witness :
  exists t, [0x4E2D; 0x6587]%N = [0x4E2D]%N ++ t.
Proof.
  apply (truncate_by_bytes_monotone [0x4E2D; 0x6587; 0x61]%N
           [0x4E2D]%N [0x4E2D; 0x6587]%N 4 6); [lia|reflexivity|reflexivity].
Defined.

(** X4. What is cut off is the least possible: when the text does not
    fit, the result ends fewer than four bytes below the limit. *)
Theorem truncate_by_bytes_tight (s r : str) (es er : list N) (n : Z) :
  Utf8.encode s = Some es -> (0 <= n < Z.of_nat (length es))%Z ->
  truncate_by_bytes s n = Ok r -> Utf8.encode r = Some er ->
  (n - 3 <= Z.of_nat (length er))%Z.
Proof.
  intros Hs [Hn Hbig] Hr Her.
  destruct (truncate_by_bytes_spec s es n Hs Hn)
    as (j & e & Hj & Hjl & He & Hfit & Hmax & _).
  rewrite Hr in Hj. injection Hj as ->.
  rewrite He in Her. injection Her as <-.
  assert (Hlt : (j < length s)%nat).
  { destruct (Nat.eq_dec j (length s)) as [->|]; [|lia].
    rewrite firstn_all, Hs in He. injection He as <-. lia. }
  destruct (Utf8Facts.encode_split (S j) s es Hs) as (e1 & _ & H1 & _ & _).
  destruct (Z.le_gt_cases (Z.of_nat (length e1)) n) as [Hfit1|Hover].
  { specialize (Hmax (S j) e1 Hlt H1 Hfit1). lia. }
  destruct (Utf8Facts.encode_split j (firstn (S j) s) e1 H1)
    as (ea & eb & Ha & Hb & ->).
  rewrite firstn_firstn, Nat.min_l in Ha by lia.
  rewrite He in Ha. injection Ha as <-.
  assert (length eb <= 4)%nat.
  { pose proof (Utf8Facts.encode_length_le _ _ Hb) as Hle.
    rewrite length_skipn, length_firstn, Nat.min_l in Hle by lia. lia. }
  rewrite length_app in Hover. lia.
Qed.

Lemma truncate_by_bytes_tight_witness :
  (4 - 3 <= Z.of_nat (length [0xE4; 0xB8; 0xAD]%N))%Z.
Proof.
  apply (truncate_by_bytes_tight [0x4E2D; 0x6587; 0x61]%N [0x4E2D]%N
           [0xE4; 0xB8; 0xAD; 0xE6; 0x96; 0x87; 0x61]%N
           [0xE4; 0xB8; 0xAD]%N 4);
    [reflexivity | cbn; lia | reflexivity | reflexivity].
Defined.

(** ** Field enforcement beyond the limits *)

Lemma firstn_eq_all (A : Type) (j : nat) (s : list A) :
  (j <= length s)%nat -> firstn j s = s -> j = length s.
Proof.
  intros Hj H. apply (f_equal (@length A)) in H.
  rewrite length_firstn in H. lia.
Qed.

Lemma str_eqb_firstn (j : nat) (s : str) :
  (j <= length s)%nat ->
  str_eqb (firstn j s) s = if Nat.eqb j (length s) then true else false.
Proof.
  intros Hj. destruct (Nat.eqb_spec j (length s)) as [->|Hne].
  - apply str_eqb_eq. apply firstn_all.
  - destruct (str_eqb (firstn j s) s) eqn:H; [|reflexivity].
    apply str_eqb_eq in H. now apply firstn_eq_all in H.
Qed.

(** The title after enforcement is a slice of the title; a notice says so
    exactly when something was cut. *)
Lemma enforce_title_full (title : str) (et : list N) :
  Utf8.encode title = Some et ->
  exists j e n1,
    enforce_title title = Ok (firstn j title, n1) /\
    (j <= length title)%nat /\ (j <= 64)%nat /\
    Utf8.encode (firstn j title) = Some e /\
    forallb is_title_notice n1 = true /\
    ((n1 = [] /\ j = length title) \/ (n1 <> [] /\ (j < length title)%nat)).
Proof.
  intros Ht. unfold enforce_title, Utf8.encode_r, MAX_TITLE_CHARS,
    MAX_TITLE_BYTES. rewrite Ht. cbn [rbind].
  destruct (Z.gtb_spec (Z.of_nat (length title)) 64) as [Hc|Hc].
  - destruct (Utf8Facts.encode_split 64 title et Ht) as (e1 & _ & H1 & _ & _).
    exists 64%nat, e1. eexists. split; [reflexivity|].
    repeat split; auto; try lia. right. split; [discriminate|lia].
  - destruct (Z.gtb_spec (Z.of_nat (length et)) 192) as [Hb|Hb].
    + destruct (truncate_by_bytes_spec title et 192 Ht ltac:(lia))
        as (j & e & Hj & Hjl & He & Hfit & _ & _).
      rewrite Hj. cbn [rbind]. exists j, e. eexists. split; [reflexivity|].
      repeat split; auto; try lia. right. split; [discriminate|].
      destruct (Nat.eq_dec j (length title)) as [->|]; [|lia].
      rewrite firstn_all, Ht in He. injection He as <-. lia.
    + exists (length title), et, []. rewrite firstn_all.
      repeat split; auto; lia.
Qed.

Lemma enforce_author_full (cfg : str) (author : option str) (ea : list N) :
  Utf8.encode (effective_author cfg author) = Some ea ->
  exists j e n2,
    enforce_author cfg author =
      Ok (firstn j (effective_author cfg author), n2) /\
    (j <= length (effective_author cfg author))%nat /\
    Utf8.encode (firstn j (effective_author cfg author)) = Some e /\
    forallb is_author_notice n2 = true /\
    ((n2 = [] /\ j = length (effective_author cfg author)) \/
     (n2 <> [] /\ (j < length (effective_author cfg author))%nat)).
Proof.
  unfold enforce_author, effective_author.
  set (au := match author with None => cfg | Some a => a end).
  intros Ha. destruct (truthy au) eqn:Htr.
  - destruct (truncate_by_bytes_spec au ea 20 Ha ltac:(lia))
      as (j & e & Hj & Hjl & He & _).
    unfold MAX_AUTHOR_BYTES. rewrite Hj. cbn [rbind].
    exists j, e. eexists. split; [reflexivity|]. rewrite (str_eqb_firstn j au Hjl).
    destruct (Nat.eqb_spec j (length au)) as [Heq|Hne].
    + repeat split; auto.
    + repeat split; auto. right. split; [discriminate|lia].
  - exists (length au), ea, []. rewrite firstn_all. repeat split; auto.
Qed.

Lemma enforce_digest_full (t : str) (digest : option str) (e ed : list N) :
  Utf8.encode t = Some e ->
  Utf8.encode (digest_source t digest) = Some ed ->
  exists j e' n3,
    enforce_digest t digest = Ok (firstn j (digest_source t digest), n3) /\
    (j <= length (digest_source t digest))%nat /\
    Utf8.encode (firstn j (digest_source t digest)) = Some e' /\
    forallb is_digest_notice n3 = true /\
    (truthy_opt digest = false -> n3 = []) /\
    (truthy_opt digest = true ->
     (n3 = [] /\ j = length (digest_source t digest)) \/
     (n3 <> [] /\ (j < length (digest_source t digest))%nat)).
Proof.
  unfold enforce_digest, digest_source, MAX_DIGEST_BYTES.
  intros Ht Hd. destruct (truthy_opt digest) eqn:Htr.
  - set (d := match digest with Some d => d | None => [] end) in *.
    cbn [rbind].
    destruct (truncate_by_bytes_spec d ed 120 Hd ltac:(lia))
      as (j & e' & Hj & Hjl & He & _).
    rewrite Hj. cbn [rbind]. exists j, e'. eexists.
    split; [reflexivity|]. rewrite (str_eqb_firstn j d Hjl).
    destruct (Nat.eqb_spec j (length d)) as [Heq|Hne].
    + repeat split; auto; discriminate.
    + repeat split; auto; try discriminate.
      intros _. right. split; [discriminate|lia].
  - destruct (truncate_by_bytes_spec t e 54 Ht ltac:(lia))
      as (j & e' & Hj & Hjl & He & Hfit & _).
    rewrite Hj. cbn [rbind].
    rewrite (truncate_by_bytes_id (firstn j t) e' 120 He ltac:(lia)).
    cbn [rbind]. exists j, e', [].
    assert (str_eqb (firstn j t) (firstn j t) = true) as ->
      by now apply str_eqb_eq.
    repeat split; auto; discriminate.
Qed.

Lemma existsb_app_notice (p : notice -> bool) (a b : list notice) :
  existsb p (a ++ b) = existsb p a || existsb p b.
Proof. apply existsb_app. Qed.

Lemma forallb_other_notice (p q : notice -> bool) (l : list notice) :
  (forall n, p n = true -> q n = false) ->
  forallb p l = true -> existsb q l = false.
Proof.
  intros Hpq. induction l as [|n l IH]; [reflexivity|]. cbn.
  intros H. apply andb_prop in H as [Hn Hl]. now rewrite (Hpq n Hn), IH.
Qed.

Lemma forallb_same_notice (p : notice -> bool) (l : list notice) :
  forallb p l = true -> l <> [] -> existsb p l = true.
Proof.
  destruct l as [|n l]; [congruence|]. cbn. intros H _.
  apply andb_prop in H as [-> _]. reflexivity.
Qed.

Lemma encode_firstn (j : nat) (s : str) (es : list N) :
  Utf8.encode s = Some es -> exists e, Utf8.encode (firstn j s) = Some e.
Proof.
  intros Hs. destruct (Utf8Facts.encode_split j s es Hs) as (e & _ & H & _).
  eauto.
Qed.

(** Field enforcement in one piece, for texts that encode. *)
Lemma enforce_fields_full (cfg title : str) (author digest : option str)
  (et ea ed : list N) :
  Utf8.encode title = Some et ->
  Utf8.encode (effective_author cfg author) = Some ea ->
  Utf8.encode (match digest with Some d => d | None => [] end) = Some ed ->
  exists jt ja jd n1 n2 n3,
    let t := firstn jt title in
    enforce_fields cfg title author digest =
      Ok {| f_title := t;
            f_author := firstn ja (effective_author cfg author);
            f_digest := firstn jd (digest_source t digest);
            f_notices := n1 ++ n2 ++ n3 |} /\
    (jt <= length title)%nat /\ (jt <= 64)%nat /\
    (ja <= length (effective_author cfg author))%nat /\
    (jd <= length (digest_source t digest))%nat /\
    forallb is_title_notice n1 = true /\
    forallb is_author_notice n2 = true /\
    forallb is_digest_notice n3 = true /\
    ((n1 = [] /\ jt = length title) \/ (n1 <> [] /\ (jt < length title)%nat))
    /\
    ((n2 = [] /\ ja = length (effective_author cfg author)) \/
     (n2 <> [] /\ (ja < length (effective_author cfg author))%nat)) /\
    (truthy_opt digest = false -> n3 = []) /\
    (truthy_opt digest = true ->
     (n3 = [] /\ jd = length (digest_source t digest)) \/
     (n3 <> [] /\ (jd < length (digest_source t digest))%nat)).
Proof.
  intros Ht Ha Hd.
  destruct (enforce_title_full title et Ht)
    as (jt & e1 & n1 & H1 & Hjt & Hjt64 & He1 & Hn1 & Hc1).
  destruct (enforce_author_full cfg author ea Ha)
    as (ja & e2 & n2 & H2 & Hja & He2 & Hn2 & Hc2).
  assert (exists ed', Utf8.encode (digest_source (firstn jt title) digest)
                      = Some ed') as (ed' & Hd').
  { unfold digest_source. destruct (truthy_opt digest); eauto. }
  destruct (enforce_digest_full (firstn jt title) digest e1 ed' He1 Hd')
    as (jd & e3 & n3 & H3 & Hjd & He3 & Hn3 & Hc3 & Hc3').
  exists jt, ja, jd, n1, n2, n3. cbv zeta.
  unfold enforce_fields. rewrite H1. cbn [rbind]. rewrite H2. cbn [rbind].
  rewrite H3. cbn [rbind]. repeat split; auto.
Qed.

(** Field enforcement returns only for texts that encode. *)
Lemma enforce_fields_ok_encodes (cfg title : str)
  (author digest : option str) (f : fields) :
  enforce_fields cfg title author digest = Ok f ->
  exists et ea ed,
    Utf8.encode title = Some et /\
    Utf8.encode (effective_author cfg author) = Some ea /\
    Utf8.encode (match digest with Some d => d | None => [] end) = Some ed.
Proof.
  unfold enforce_fields. intros H.
  destruct (Utf8.encode title) as [et|] eqn:Ht.
  2: { unfold enforce_title, Utf8.encode_r in H. rewrite Ht in H.
       discriminate. }
  destruct (enforce_title title) as [[t n1]|] eqn:H1; [|discriminate].
  cbn [rbind] in H.
  destruct (Utf8.encode (effective_author cfg author)) as [ea|] eqn:Ha.
  2: { unfold enforce_author in H. fold (effective_author cfg author) in H.
       destruct (truthy (effective_author cfg author)) eqn:Htr.
       - rewrite (truncate_by_bytes_unencodable _ _ Ha) in H. discriminate.
       - destruct (effective_author cfg author); cbn in *; discriminate. }
  destruct (enforce_author cfg author) as [[a n2]|] eqn:H2; [|discriminate].
  cbn [rbind] in H.
  destruct (Utf8.encode (match digest with Some d => d | None => [] end))
    as [ed|] eqn:Hd.
  2: { unfold enforce_digest in H. destruct (truthy_opt digest) eqn:Htr.
       - cbn [rbind] in H.
         rewrite (truncate_by_bytes_unencodable _ _ Hd) in H. discriminate.
       - destruct digest as [[|c d]|]; cbn in *; discriminate. }
  exists et, ea, ed. auto.
Qed.

Lemma firstn_is_prefix (A : Type) (j : nat) (s : list A) :
  exists t, s = firstn j s ++ t.
Proof. exists (skipn j s). symmetry. apply firstn_skipn. Qed.

Lemma firstn_neq (A : Type) (j : nat) (s : list A) :
  (j < length s)%nat -> firstn j s <> s.
Proof.
  intros Hj H. apply firstn_eq_all in H; lia.
Qed.

(** X5. Enforcement only ever cuts at the end: the title, the author and
    the digest it returns are prefixes of the title, of the author in force
    and of the supplied digest (of the title when none was supplied). *)
Theorem enforced_fields_are_prefixes (cfg title : str)
  (author digest : option str) (f : fields) :
  enforce_fields cfg title author digest = Ok f ->
  (exists t, title = f_title f ++ t) /\
  (exists t, effective_author cfg author = f_author f ++ t) /\
  (exists t, digest_source title digest = f_digest f ++ t).
Proof.
  intros Hf.
  destruct (enforce_fields_ok_encodes cfg title author digest f Hf)
    as (et & ea & ed & Ht & Ha & Hd).
  destruct (enforce_fields_full cfg title author digest et ea ed Ht Ha Hd)
    as (jt & ja & jd & n1 & n2 & n3 & Heq & _).
  cbv zeta in Heq. rewrite Hf in Heq. injection Heq as ->.
  cbn [f_title f_author f_digest].
  split; [apply firstn_is_prefix|]. split; [apply firstn_is_prefix|].
  unfold digest_source. destruct (truthy_opt digest).
  - apply firstn_is_prefix.
  - exists (skipn jd (firstn jt title) ++ skipn jt title).
    rewrite app_assoc, firstn_skipn, firstn_skipn. reflexivity.
Qed.

Lemma enforced_fields_are_prefixes_witness :
  (exists t, repeat 0x4E2D%N 70 = repeat 0x4E2D%N 64 ++ t) /\
  (exists t, lit "YanG" = lit "YanG" ++ t) /\
  (exists t, repeat 0x4E2D%N 70 = repeat 0x4E2D%N 18 ++ t).
Proof.
  apply (enforced_fields_are_prefixes (lit "YanG") (repeat 0x4E2D%N 70)
           None None
           {| f_title := repeat 0x4E2D%N 64; f_author := lit "YanG";
              f_digest := repeat 0x4E2D%N 18;
              f_notices := [TitleTooLong (repeat 0x4E2D%N 70) 70
                              (repeat 0x4E2D%N 64)] |}).
  vm_compute. reflexivity.
Defined.

(** X6. Every cut is reported and nothing else is: a title notice is given
    exactly when the title was changed, an author notice exactly when the
    author was, and a digest notice exactly when a supplied digest was; a
    digest derived from the title is never reported. *)
Theorem truncation_is_reported_exactly (cfg title : str)
  (author digest : option str) (f : fields) :
  enforce_fields cfg title author digest = Ok f ->
  (existsb is_title_notice (f_notices f) = true <-> f_title f <> title) /\
  (existsb is_author_notice (f_notices f) = true <->
   f_author f <> effective_author cfg author) /\
  (existsb is_digest_notice (f_notices f) = true <->
   truthy_opt digest = true /\ f_digest f <> digest_source title digest).
Proof.
  intros Hf.
  destruct (enforce_fields_ok_encodes cfg title author digest f Hf)
    as (et & ea & ed & Ht & Ha & Hd).
  destruct (enforce_fields_full cfg title author digest et ea ed Ht Ha Hd)
    as (jt & ja & jd & n1 & n2 & n3 & Heq & Hjt & _ & Hja & Hjd &
        Hn1 & Hn2 & Hn3 & Hc1 & Hc2 & Hc3 & Hc3').
  cbv zeta in Heq. rewrite Hf in Heq. injection Heq as ->.
  cbn [f_title f_author f_digest f_notices].
  rewrite !existsb_app_notice.
  rewrite (forallb_other_notice is_author_notice is_title_notice n2)
    by first [assumption | now intros []].
  rewrite (forallb_other_notice is_digest_notice is_title_notice n3)
    by first [assumption | now intros []].
  rewrite (forallb_other_notice is_title_notice is_author_notice n1)
    by first [assumption | now intros []].
  rewrite (forallb_other_notice is_digest_notice is_author_notice n3)
    by first [assumption | now intros []].
  rewrite (forallb_other_notice is_title_notice is_digest_notice n1)
    by first [assumption | now intros []].
  rewrite (forallb_other_notice is_author_notice is_digest_notice n2)
    by first [assumption | now intros []].
  rewrite !orb_false_r. cbn [orb].
  split; [|split].
  - destruct Hc1 as [(-> & ->)|(Hne & Hlt)].
    + rewrite firstn_all. cbn. split; [discriminate|congruence].
    + rewrite (forallb_same_notice _ _ Hn1 Hne).
      split; [intros _; now apply firstn_neq|reflexivity].
  - destruct Hc2 as [(-> & ->)|(Hne & Hlt)].
    + rewrite firstn_all. cbn. split; [discriminate|congruence].
    + rewrite (forallb_same_notice _ _ Hn2 Hne).
      split; [intros _; now apply firstn_neq|reflexivity].
  - destruct (truthy_opt digest) eqn:Htr.
    + assert (Hsrc : digest_source (firstn jt title) digest =
                     digest_source title digest)
        by (unfold digest_source; now rewrite Htr).
      rewrite Hsrc in *.
      destruct (Hc3' eq_refl) as [(-> & ->)|(Hne & Hlt)].
      * rewrite firstn_all. cbn. split; [discriminate|intros [_ H]; congruence].
      * rewrite (forallb_same_notice _ _ Hn3 Hne).
        split; [intros _; split; [reflexivity|now apply firstn_neq]
               |reflexivity].
    + rewrite (Hc3 eq_refl). cbn. split; [discriminate|intros [H _]; discriminate].
Qed.

Lemma truncation_is_reported_exactly_witness :
  existsb is_title_notice
    [TitleTooLong (repeat 0x4E2D%N 70) 70 (repeat 0x4E2D%N 64)] = true <->
  repeat 0x4E2D%N 64 <> repeat 0x4E2D%N 70.
Proof.
  apply (truncation_is_reported_exactly (lit "YanG") (repeat 0x4E2D%N 70)
           None None
           {| f_title := repeat 0x4E2D%N 64; f_author := lit "YanG";
              f_digest := repeat 0x4E2D%N 18;
              f_notices := [TitleTooLong (repeat 0x4E2D%N 70) 70
                              (repeat 0x4E2D%N 64)] |}).
  vm_compute. reflexivity.
Defined.

Lemma encode_cp_bmp_le3 (c : codepoint) (b : list N) :
  (c <? 0x10000)%N = true -> Utf8.encode_cp c = Some b ->
  (length b <= 3)%nat.
Proof.
  unfold Utf8.encode_cp. intros Hc. rewrite Hc.
  repeat match goal with
         | |- context [if ?x then _ else _] => destruct x
         end; intros [= <-]; cbn; lia.
Qed.

Lemma encode_bmp_le3 (s : str) (e : list N) :
  in_bmp s = true -> Utf8.encode s = Some e ->
  (length e <= 3 * length s)%nat.
Proof.
  revert e. induction s as [|c s IH]; intros e; cbn [in_bmp forallb].
  - intros _ [= <-]. cbn. lia.
  - intros H. apply andb_prop in H as [Hc Hs]. cbn [Utf8.encode].
    destruct (Utf8.encode_cp c) as [b|] eqn:Hb; [|discriminate].
    destruct (Utf8.encode s) as [bs|]; [|discriminate].
    intros [= <-]. rewrite length_app. cbn [length].
    pose proof (encode_cp_bmp_le3 c b Hc Hb).
    specialize (IH bs Hs eq_refl). lia.
Qed.

Lemma in_bmp_firstn (j : nat) (s : str) :
  in_bmp s = true -> in_bmp (firstn j s) = true.
Proof.
  unfold in_bmp. revert j. induction s as [|c s IH]; intros [|j]; cbn; auto.
  intros H. apply andb_prop in H as [-> Hs]. cbn. auto.
Qed.

(** X7. For a title whose code points all lie below U+10000, the case the
    constant 192 = 64 x 3 is written for, enforcement does keep both
    limits: at most 64 characters and at most 192 bytes. *)
Theorem bmp_title_within_both_limits (cfg title : str)
  (author digest : option str) (f : fields) :
  in_bmp title = true ->
  enforce_fields cfg title author digest = Ok f ->
  (length (f_title f) <= 64)%nat /\
  exists e, Utf8.encode (f_title f) = Some e /\
            (Z.of_nat (length e) <= MAX_TITLE_BYTES)%Z.
Proof.
  intros Hbmp Hf.
  destruct (enforce_fields_ok_encodes cfg title author digest f Hf)
    as (et & ea & ed & Ht & Ha & Hd).
  destruct (enforce_fields_full cfg title author digest et ea ed Ht Ha Hd)
    as (jt & ja & jd & n1 & n2 & n3 & Heq & Hjt & Hjt64 & _).
  cbv zeta in Heq. rewrite Hf in Heq. injection Heq as ->.
  cbn [f_title].
  assert (Hlen : (length (firstn jt title) <= 64)%nat)
    by (rewrite length_firstn; lia).
  split; [exact Hlen|].
  destruct (encode_firstn jt title et Ht) as (e & He). exists e.
  split; [exact He|].
  pose proof (encode_bmp_le3 _ e (in_bmp_firstn jt title Hbmp) He).
  unfold MAX_TITLE_BYTES. lia.
Qed.

Lemma bmp_title_within_both_limits_witness :
  (length (repeat 0x4E2D%N 64) <= 64)%nat /\
  exists e, Utf8.encode (repeat 0x4E2D%N 64) = Some e /\
            (Z.of_nat (length e) <= MAX_TITLE_BYTES)%Z.
Proof.
  apply (bmp_title_within_both_limits (lit "YanG") (repeat 0x4E2D%N 70)
           None None
           {| f_title := repeat 0x4E2D%N 64; f_author := lit "YanG";
              f_digest := repeat 0x4E2D%N 18;
              f_notices := [TitleTooLong (repeat 0x4E2D%N 70) 70
                              (repeat 0x4E2D%N 64)] |});
    vm_compute; reflexivity.
Defined.

(** X8. Field enforcement fails in one way only: it returns exactly when
    the title, the author in force and the supplied digest can be encoded,
    and what it raises otherwise is the encoding error. *)
Theorem enforcement_fails_only_on_unencodable_text (cfg title : str)
  (author digest : option str) :
  ((exists f, enforce_fields cfg title author digest = Ok f) <->
   (exists et ea ed,
      Utf8.encode title = Some et /\
      Utf8.encode (effective_author cfg author) = Some ea /\
      Utf8.encode (match digest with Some d => d | None => [] end)
        = Some ed)) /\
  (forall e, enforce_fields cfg title author digest = Raise e ->
             e = UnicodeEncodeError).
Proof.
  split; [split|].
  - intros (f & Hf). now apply (enforce_fields_ok_encodes cfg title author
                                  digest f).
  - intros (et & ea & ed & Ht & Ha & Hd).
    destruct (enforce_fields_full cfg title author digest et ea ed Ht Ha Hd)
      as (jt & ja & jd & n1 & n2 & n3 & Heq & _).
    eexists. exact Heq.
  - intros e. unfold enforce_fields, enforce_title, enforce_author,
      enforce_digest, truncate_by_bytes, Utf8.encode_r.
    assert (Hloop : forall text n i e',
              truncate_loop text n i = Raise e' -> e' = UnicodeEncodeError).
    { intros text n i. induction i as [|i IH]; intros e'; cbn [truncate_loop].
      - discriminate.
      - unfold Utf8.encode_r. destruct (Utf8.encode (firstn (S i) text));
          cbn [rbind]; [|congruence].
        destruct (_ <=? n)%Z; [discriminate|apply IH]. }
    repeat match goal with
           | |- context [match Utf8.encode ?s with _ => _ end] =>
               destruct (Utf8.encode s); cbn [rbind]
           | |- context [if ?b then _ else _] => destruct b; cbn [rbind]
           | |- context [truncate_loop ?t ?n ?i] =>
               let H := fresh "Hl" in
               destruct (truncate_loop t n i) eqn:H; cbn [rbind];
               [|apply Hloop in H; subst]
           end; congruence.
Qed.

(** ** The token cache beyond the contract *)

(** Every way through [get_access_token]: the cached token, or the fetch
    from the world as it stands or one clock reading later. *)
Lemma get_access_token_ways (force : bool) (w : world) :
  (exists d tok e,
     force = false /\ w_cache w = CacheDict d /\
     jlookup "access_token" d = Some tok /\
     jget "expires_at" (JNum 0) d = JNum e /\
     (w_clock w (w_tick w) < e - 300)%Z /\
     get_access_token force w = (Ok tok, ticked w)) \/
  get_access_token force w = fetch_token force w \/
  get_access_token force w = fetch_token force (ticked w).
Proof.
  destruct force.
  { right. left. apply get_access_token_forced. }
  destruct (w_cache w) as [| |d] eqn:Hc.
  - right. left. now apply get_access_token_no_file.
  - right. left. unfold get_access_token, bind, cache_exists, catch,
      read_cached_token, bind, load_cache.
    cbv beta iota. rewrite !Hc. cbn [negb andb]. cbv beta iota.
    rewrite ?Hc. reflexivity.
  - rewrite (get_access_token_cached w d Hc).
    destruct (jget "expires_at" (JNum 0) d) as [|e|s] eqn:He; auto.
    destruct (Z.ltb_spec (w_clock w (w_tick w)) (e - 300)); auto.
    destruct (jlookup "access_token" d) as [tok|] eqn:Ht; auto.
    left. exists d, tok, e. auto 10.
Qed.



(** X10. Round trip through the cache file: a token that was just fetched
    with a lifetime [ttl] is served by the next unforced call, with no
    request, as long as the clock then reads less than the stored expiry
    less 300 seconds. *)
Theorem fetched_token_is_served_from_cache
  (forced : bool) (w : world) (r : json) (rest : list reply)
  (tok : jval) (ttl : Z) :
  w_token_replies w = Reply r :: rest ->
  jhas "errcode" r = false ->
  jlookup "access_token" r = Some tok ->
  jget "expires_in" (JNum 7200) r = JNum ttl ->
  (w_clock w (S (w_tick w)) < w_clock w (w_tick w) + ttl - 300)%Z ->
  let w1 := snd (fetch_token forced w) in
  fst (fetch_token forced w) = Ok tok /\
  get_access_token false w1 = (Ok tok, ticked w1) /\
  w_log (ticked w1) = w_log w1.
Proof.
  intros Hq Herr Htok Httl Hclock w1. subst w1.
  rewrite (fetch_token_stores forced w r rest tok ttl Hq Herr Htok Httl).
  cbn [fst snd]. split; [reflexivity|]. split; [|reflexivity].
  match goal with |- get_access_token false ?x = _ => set (w1 := x) end.
  rewrite (get_access_token_cached w1 _ eq_refl).
  cbn [jget jlookup String.eqb Ascii.eqb Bool.eqb].
  change (w_clock w1 (w_tick w1)) with (w_clock w (S (w_tick w))).
  destruct (Z.ltb_spec (w_clock w (S (w_tick w)))
              (w_clock w (w_tick w) + ttl - 300)); [reflexivity|lia].
Qed.

Lemma fetched_token_is_served_from_cache_witness :
  fst (fetch_token true
         (with_replies [token_reply (lit "NEW") 7200] [] []
            (quiet_world 1000))) = Ok (JStr (lit "NEW")) /\
  get_access_token false
    (snd (fetch_token true
            (with_replies [token_reply (lit "NEW") 7200] [] []
               (quiet_world 1000)))) =
    (Ok (JStr (lit "NEW")),
     ticked (snd (fetch_token true
                    (with_replies [token_reply (lit "NEW") 7200] [] []
                       (quiet_world 1000))))) /\
  w_log (ticked (snd (fetch_token true
                        (with_replies [token_reply (lit "NEW") 7200] [] []
                           (quiet_world 1000))))) =
    w_log (snd (fetch_token true
                  (with_replies [token_reply (lit "NEW") 7200] [] []
                     (quiet_world 1000)))).
Proof.
  apply (fetched_token_is_served_from_cache true
           (with_replies [token_reply (lit "NEW") 7200] [] []
              (quiet_world 1000))
           [("access_token", JStr (lit "NEW")); ("expires_in", JNum 7200)]
           [] (JStr (lit "NEW")) 7200);
    try reflexivity.
Defined.

(** What a call of [get_access_token] can touch: the clock, the token
    replies, the cache file and the log, which grows by at most one request
    and one cache write. *)
Lemma fetch_token_frame (forced : bool) (w : world) :
  w_exists (snd (fetch_token forced w)) = w_exists w /\
  w_upload_replies (snd (fetch_token forced w)) = w_upload_replies w /\
  w_draft_replies (snd (fetch_token forced w)) = w_draft_replies w /\
  match fst (fetch_token forced w) with
  | Ok tok =>
      exists d,
        w_log (snd (fetch_token forced w)) =
          w_log w ++ [TokenRequest forced; CacheWrite d] /\
        w_cache (snd (fetch_token forced w)) = CacheDict d /\
        jlookup "access_token" d = Some tok
  | Raise _ =>
      w_log (snd (fetch_token forced w)) = w_log w ++ [TokenRequest forced] /\
      w_cache (snd (fetch_token forced w)) = w_cache w
  end.
Proof.
  unfold fetch_token, bind, request_token, answer.
  destruct (w_token_replies w) as [|[|r] rest]; cbn [hd_error raise ret];
    try (repeat split; reflexivity).
  destruct (jhas "errcode" r); [repeat split; reflexivity|].
  destruct (jlookup "access_token" r) as [tok|];
    [|repeat split; reflexivity].
  unfold time_time.
  destruct (jget "expires_in" (JNum 7200) r);
    try (repeat split; reflexivity).
  split; [reflexivity|]. split; [reflexivity|]. split; [reflexivity|].
  eexists. cbn. rewrite <- app_assoc. repeat split.
Qed.

Lemma get_access_token_frame (force : bool) (w : world) :
  w_exists (snd (get_access_token force w)) = w_exists w /\
  w_upload_replies (snd (get_access_token force w)) = w_upload_replies w /\
  w_draft_replies (snd (get_access_token force w)) = w_draft_replies w /\
  match fst (get_access_token force w) with
  | Ok tok =>
      exists d,
        w_cache (snd (get_access_token force w)) = CacheDict d /\
        jlookup "access_token" d = Some tok /\
        (w_log (snd (get_access_token force w)) = w_log w \/
         w_log (snd (get_access_token force w)) =
           w_log w ++ [TokenRequest force; CacheWrite d])
  | Raise _ =>
      w_log (snd (get_access_token force w)) =
        w_log w ++ [TokenRequest force] /\
      w_cache (snd (get_access_token force w)) = w_cache w
  end.
Proof.
  destruct (get_access_token_ways force w)
    as [(d & tok & ex & _ & Hc & Ht & _ & _ & Heq)|[Heq|Heq]]; rewrite Heq.
  - cbn [fst snd]. repeat split. exists d. auto.
  - pose proof (fetch_token_frame force w) as (H1 & H2 & H3 & H4).
    repeat split; auto.
    destruct (fst (fetch_token force w)); [|exact H4].
    destruct H4 as (d & Hl & Hc & Ht). exists d. auto.
  - pose proof (fetch_token_frame force (ticked w)) as (H1 & H2 & H3 & H4).
    repeat split; auto.
    destruct (fst (fetch_token force (ticked w))); [|exact H4].
    destruct H4 as (d & Hl & Hc & Ht). exists d. auto.
Qed.

(** X11. The cache file follows the calls: after a call that returned a
    token the file holds that token, and a call that raised has left the
    file as it was. *)
Theorem cache_file_follows_the_token (force : bool) (w : world) :
  match fst (get_access_token force w) with
  | Ok tok =>
      exists d,
        w_cache (snd (get_access_token force w)) = CacheDict d /\
        jlookup "access_token" d = Some tok
  | Raise _ => w_cache (snd (get_access_token force w)) = w_cache w
  end.
Proof.
  pose proof (get_access_token_frame force w) as (_ & _ & _ & H).
  destruct (fst (get_access_token force w)).
  - destruct H as (d & Hc & Ht & _). eauto.
  - apply H.
Qed.


(** ** [upload_image] *)

Lemma upload_image_frame (path : str) (w : world) :
  exists l,
    w_log (snd (upload_image path w)) = w_log w ++ l /\
    w_exists (snd (upload_image path w)) = w_exists w /\
    w_draft_replies (snd (upload_image path w)) = w_draft_replies w /\
    count is_draft_request l = 0%nat /\
    (count is_upload_request l <= 1)%nat /\
    (forall r, fst (upload_image path w) = Ok r ->
               count is_upload_request l = 1%nat) /\
    (w_exists w path = false -> l = []).
Proof.
  unfold upload_image, bind, path_exists. cbv beta iota.
  destruct (w_exists w path) eqn:Hex; cbn [negb].
  2: { exists []. rewrite app_nil_r. cbn. repeat split; auto; discriminate. }
  pose proof (get_access_token_frame false w) as (He & _ & Hd & H).
  destruct (get_access_token false w) as [[tok|e] w1]; cbn [fst snd] in *.
  2: { destruct H as (Hl & _). exists [TokenRequest false].
       repeat split; auto; discriminate. }
  destruct H as (d & _ & _ & Hl).
  assert (exists l0, w_log w1 = w_log w ++ l0 /\
                     count is_draft_request l0 = 0%nat /\
                     count is_upload_request l0 = 0%nat)
    as (l0 & Hl0 & Hd0 & Hu0).
  { destruct Hl as [Hl|Hl].
    - exists []. rewrite app_nil_r. auto.
    - eexists. split; [exact Hl|]. split; reflexivity. }
  exists (l0 ++ [UploadRequest tok path]).
  unfold request_upload, answer.
  assert (forall X (r : result X),
            w_log (snd (r, with_log (UploadRequest tok path)
                             (upload_answered w1))) =
            w_log w ++ l0 ++ [UploadRequest tok path]) as Hlog.
  { intros X r. cbn. rewrite Hl0. now rewrite <- app_assoc. }
  destruct (hd_error (w_upload_replies w1)) as [[|r]|]; cbn [raise ret];
    try destruct (jhas "errcode" r && jnonzero (jget "errcode" JNull r));
    cbn [raise ret fst snd];
    (split; [cbn; rewrite Hl0, <- app_assoc; reflexivity|]);
    (split; [exact He|]); (split; [exact Hd|]);
    rewrite !count_app, Hd0, Hu0; cbn;
    repeat split; auto; try discriminate.
Qed.

(** X13. One call of [upload_image] sends at most one image and never a
    draft; it sends exactly one when it returns; and for a path that does
    not exist it raises at once, before asking for a token, leaving the
    world untouched. *)
Theorem upload_sends_at_most_one_image (path : str) (w : world) :
  exists l,
    w_log (snd (upload_image path w)) = w_log w ++ l /\
    count is_draft_request l = 0%nat /\
    (count is_upload_request l <= 1)%nat /\
    (forall r, fst (upload_image path w) = Ok r ->
               count is_upload_request l = 1%nat) /\
    (w_exists w path = false ->
     upload_image path w = (Raise (FileNotFoundError path), w)).
Proof.
  destruct (upload_image_frame path w)
    as (l & Hl & _ & _ & Hd & Hu & Hok & _).
  exists l. repeat split; auto.
  intros Hex. unfold upload_image, bind, path_exists. cbv beta iota.
  now rewrite Hex.
Qed.

(** ** The normaliser on text it has nothing to do with *)

Module PlainFacts.
Import ReFacts SubFacts AngleFacts PassFacts.

Lemma matches_needs (x : codepoint) (r : regex) :
  needs x r = true ->
  forall caps m rest caps',
    matches false r caps m rest caps' -> In x m.
Proof.
  induction r as [|c|p|r1 IH1 r2 IH2|r1 IH1 r2 IH2|g p|n r IH|r IH];
    cbn [needs]; try discriminate; intros Hn caps m rest caps'.
  - apply N.eqb_eq in Hn. subst c. intros (y & -> & Hy & _).
    unfold chr_eqb in Hy. apply N.eqb_eq in Hy. subst y. now left.
  - intros (m1 & m2 & caps1 & -> & H1 & H2). apply in_or_app.
    apply orb_prop in Hn as [Hn|Hn]; eauto.
  - apply andb_prop in Hn as [Hn1 Hn2]. intros [H|H]; eauto.
  - intros (caps1 & H & _). eauto.
Qed.

(** A text without the character a pattern needs is copied. *)
Lemma scan_without_needed (x : codepoint) (r : regex)
  (limit : option nat) (s : str) :
  needs x r = true -> ~ In x s ->
  scan false r limit 0 s = map Copied s.
Proof.
  intros Hn. induction s as [|c s IH]; intros Hx.
  - cbn [scan map]. destruct (spent limit); [reflexivity|].
    destruct (match_at false r []) as [m|] eqn:Hm; [exfalso|reflexivity].
    apply match_at_sound in Hm as (rest & Hs & Hm).
    apply (matches_needs x r Hn) in Hm.
    symmetry in Hs. apply app_eq_nil in Hs as [Ht _]. rewrite Ht in Hm.
    exact Hm.
  - assert (Hnone : match_at false r (c :: s) = None).
    { destruct (match_at false r (c :: s)) as [m|] eqn:Hm;
        [exfalso|reflexivity].
      apply match_at_sound in Hm as (rest & Hs & Hm).
      apply (matches_needs x r Hn) in Hm. apply Hx. rewrite Hs.
      apply in_or_app. now left. }
    rewrite (scan_copy false r limit c s Hnone). cbn [map]. f_equal.
    apply IH. intros H. apply Hx. now right.
Qed.

Lemma re_sub_without_needed (x : codepoint) (r : regex) (f : rmatch -> str)
  (limit : option nat) (s : str) :
  needs x r = true -> ~ In x s -> re_sub false r f limit s = s.
Proof.
  intros Hn Hx. unfold re_sub. rewrite (scan_without_needed x r limit s Hn Hx).
  apply concat_map_copied.
Qed.

Lemma match_at_nil (ic : bool) (r : regex) :
  starts_with_lt r = true -> match_at ic r [] = None.
Proof.
  intros Hr. destruct (match_at ic r []) as [m|] eqn:Hm; [exfalso|reflexivity].
  apply match_at_sound in Hm as (rest & Hs & Hm).
  destruct (matches_starts_with_lt ic r Hr _ _ _ _ Hm) as (m' & Ht).
  rewrite Ht in Hs. discriminate.
Qed.

(** A text without [<] is copied by a pattern that begins with [<]. *)
Lemma scan_without_lt (ic : bool) (r : regex) (limit : option nat)
  (s : str) :
  starts_with_lt r = true -> forallb not_lt s = true ->
  scan ic r limit 0 s = map Copied s.
Proof.
  intros Hr Hs. rewrite <- (app_nil_r s) at 1.
  rewrite (scan_plain_prefix ic r limit s [] Hr Hs). cbn [scan].
  rewrite (match_at_nil ic r Hr). destruct (spent limit); apply app_nil_r.
Qed.

Lemma re_sub_without_lt (ic : bool) (r : regex) (f : rmatch -> str)
  (limit : option nat) (s : str) :
  starts_with_lt r = true -> forallb not_lt s = true ->
  re_sub ic r f limit s = s.
Proof.
  intros Hr Hs. unfold re_sub. rewrite (scan_without_lt ic r limit s Hr Hs).
  apply concat_map_copied.
Qed.

Lemma sub_pieces_copied (repl : rmatch -> M str) (s : str) (w : world) :
  sub_pieces repl (map Copied s) w = (Ok s, w).
Proof.
  induction s as [|c s IH]; [reflexivity|]. cbn [map sub_pieces].
  unfold bind. now rewrite IH.
Qed.

Lemma plain_text_facts (s : str) :
  plain_text s = true ->
  forallb not_lt s = true /\ ~ In 0x3C%N s /\ ~ In 0x3A%N s /\
  ~ In 0x3D%N s.
Proof.
  unfold plain_text. induction s as [|c s IH]; cbn [forallb In].
  - tauto.
  - intros H. apply andb_prop in H as [Hc Hs].
    destruct (IH Hs) as (H1 & H2 & H3 & H4).
    apply negb_true_iff in Hc. apply orb_false_iff in Hc as [Hc Hc3].
    apply orb_false_iff in Hc as [Hc1 Hc2].
    apply N.eqb_neq in Hc1, Hc2, Hc3. unfold not_lt.
    rewrite (proj2 (N.eqb_neq c 0x3C) Hc1). cbn [negb andb].
    repeat split; auto; intros [Heq|Hin]; auto; congruence.
Qed.

End PlainFacts.

(** X14. Text that holds no [<], no colon and no [=] goes through the
    three stages of the normaliser unchanged, and the image stage sends
    nothing. *)
Theorem plain_text_is_not_touched (s base_dir : str) (w : world) :
  plain_text s = true ->
  _remove_cover_image s = s /\
  _upload_content_images s base_dir w = (Ok s, w) /\
  _fix_wechat_editor_issues s = s.
Proof.
  intros Hs. destruct (PlainFacts.plain_text_facts s Hs)
    as (Hlt & Hnlt & Hncolon & Hneq).
  split; [|split].
  - unfold _remove_cover_image. rewrite StageFacts.remove_cover_tags_passes.
    unfold strip, collapse_title_comment.
    now rewrite !(PlainFacts.re_sub_without_lt _ _ _ _ s)
      by (reflexivity || assumption).
  - unfold _upload_content_images, re_sub_M.
    rewrite (PlainFacts.scan_without_lt false img_pattern None s eq_refl Hlt).
    apply PlainFacts.sub_pieces_copied.
  - unfold _fix_wechat_editor_issues.
    rewrite (PlainFacts.re_sub_without_needed 0x3C%N blank_between_tags _
               None s eq_refl Hnlt).
    rewrite (PlainFacts.re_sub_without_needed 0x3A%N declaration_pattern _
               None s eq_refl Hncolon).
    rewrite (PlainFacts.re_sub_without_needed 0x3D%N style_pattern _
               None s eq_refl Hneq).
    now rewrite !(PlainFacts.re_sub_without_needed 0x3A%N _ _ _ s)
      by (reflexivity || assumption).
Qed.

Lemma plain_text_is_not_touched_witness :
  _remove_cover_image (lit "Hello, world; 100% > 50%") =
    lit "Hello, world; 100% > 50%" /\
  _upload_content_images (lit "Hello, world; 100% > 50%") (lit ".")
    (quiet_world 1000) =
    (Ok (lit "Hello, world; 100% > 50%"), quiet_world 1000) /\
  _fix_wechat_editor_issues (lit "Hello, world; 100% > 50%") =
    lit "Hello, world; 100% > 50%".
Proof.
  apply (plain_text_is_not_touched (lit "Hello, world; 100% > 50%")
           (lit ".") (quiet_world 1000)).
  reflexivity.
Defined.

(** ** The cover stage only takes away; the image stage without files *)

Module LengthFacts.
Import ReFacts SubFacts AngleFacts PassFacts.

Lemma scan_matched_origin (ic : bool) (r : regex) (s : str) :
  forall limit skip m,
    In (Matched m) (scan ic r limit skip s) ->
    exists s', match_at ic r s' = Some m.
Proof.
  induction s as [|c s IH]; intros limit skip m; cbn [scan].
  - destruct (spent limit); [intros []|].
    destruct (match_at ic r []) as [m0|] eqn:Hm; [|intros []].
    intros [[= <-]|[]]. eauto.
  - destruct skip as [|n]; [|apply IH].
    destruct (spent limit).
    { intros [H|H]; [discriminate|]. eapply IH, H. }
    destruct (match_at ic r (c :: s)) as [m0|] eqn:Hm.
    + intros [[= <-]|H]; [eauto|].
      destruct (length (m_text m0)).
      * destruct H as [H|H]; [discriminate|]. eapply IH, H.
      * eapply IH, H.
    + intros [H|H]; [discriminate|]. eapply IH, H.
Qed.

(** Replacements no longer than their matches give a result no longer
    than the subject. *)
Lemma re_sub_not_longer (ic : bool) (r : regex) (f : rmatch -> str)
  (limit : option nat) (s : str) :
  (forall m s', match_at ic r s' = Some m ->
                (length (f m) <= length (m_text m))%nat) ->
  (length (re_sub ic r f limit s) <= length s)%nat.
Proof.
  intros Hf. unfold re_sub.
  rewrite <- (scan_partition ic r s limit 0) at 2.
  pose proof (scan_matched_origin ic r s limit 0) as Horigin.
  induction (scan ic r limit 0 s) as [|p ps IH]; [cbn; lia|].
  cbn [map concat]. rewrite !length_app.
  assert (length (concat (map (fun p => match p with
                                        | Copied c => [c]
                                        | Matched m => f m
                                        end) ps)) <=
          length (concat (map piece_text ps)))%nat as Hps.
  { apply IH. intros m Hin. apply Horigin. now right. }
  destruct p as [c|m]; cbn [piece_text length]; [lia|].
  destruct (Horigin m (or_introl eq_refl)) as (s' & Hm).
  specialize (Hf m s' Hm). lia.
Qed.

End LengthFacts.

(** X15. The cover stage only takes text away: its output is never longer
    than its input. *)
Theorem cover_stage_never_lengthens (content : str) :
  (length (_remove_cover_image content) <= length content)%nat.
Proof.
  unfold _remove_cover_image. rewrite StageFacts.remove_cover_tags_passes.
  unfold strip, collapse_title_comment.
  assert (Hstrip : forall r s,
            (length (re_sub true r (fun _ => []) None s) <= length s)%nat).
  { intros r s. apply LengthFacts.re_sub_not_longer. intros m s' _. cbn. lia. }
  etransitivity; [apply LengthFacts.re_sub_not_longer|].
  - intros m s' Hm.
    apply ReFacts.match_at_sound in Hm as (rest & _ & Hm).
    destruct (CollapseFacts.title_comment_pattern_shape _ _ _ Hm)
      as (gbody & w & body & Ht & _ & _ & _ & Hg).
    rewrite Hg, Ht, !length_app. lia.
  - etransitivity; [apply Hstrip|]. etransitivity; [apply Hstrip|].
    apply Hstrip.
Qed.





(** ** What the image stage sends *)

Lemma replace_image_frame (base_dir : str) (m : rmatch) (w : world) :
  exists l out w',
    replace_image base_dir m w = (Ok out, w') /\
    w_log w' = w_log w ++ l /\
    w_exists w' = w_exists w /\
    w_draft_replies w' = w_draft_replies w /\
    count is_draft_request l = 0%nat /\
    (count is_upload_request l <= 1)%nat.
Proof.
  assert (Hstay : exists l out w',
            (Ok (m_text m), w) = (Ok out, w') /\
            w_log w' = w_log w ++ l /\ w_exists w' = w_exists w /\
            w_draft_replies w' = w_draft_replies w /\
            count is_draft_request l = 0%nat /\
            (count is_upload_request l <= 1)%nat).
  { exists [], (m_text m), w. rewrite app_nil_r. cbn. repeat split; auto. }
  unfold replace_image.
  destruct (startswith (lit "http://") (group 2 (m_caps m))
            || startswith (lit "https://") (group 2 (m_caps m)));
    [exact Hstay|].
  destruct (contains (lit "cover") (lower (group 2 (m_caps m))));
    [exact Hstay|].
  unfold bind at 1, path_exists. cbv beta iota.
  destruct (w_exists w (path_join base_dir (group 2 (m_caps m))));
    cbn [negb]; [|exact Hstay].
  destruct (upload_image_frame (path_join base_dir (group 2 (m_caps m))) w)
    as (l & Hl & He & Hd & Hcd & Hcu & _).
  unfold catch, bind.
  destruct (upload_image (path_join base_dir (group 2 (m_caps m))) w)
    as [[[mid url]|e] w1]; cbn [fst snd] in *.
  - destruct (jtruthy url); cbn [ret]; exists l; eexists _, w1;
      repeat split; auto.
  - cbn [ret]. exists l. eexists _, w1. repeat split; auto.
Qed.

Lemma sub_pieces_frame (base_dir : str) (ps : list piece) :
  forall w,
    exists l out w',
      sub_pieces (replace_image base_dir) ps w = (Ok out, w') /\
      w_log w' = w_log w ++ l /\
      w_exists w' = w_exists w /\
      w_draft_replies w' = w_draft_replies w /\
      count is_draft_request l = 0%nat /\
      (count is_upload_request l <= length (filter is_matched ps))%nat.
Proof.
  induction ps as [|[c|m] ps IH]; intros w; cbn [sub_pieces].
  - exists [], [], w. rewrite app_nil_r. cbn. repeat split; auto.
  - destruct (IH w) as (l & out & w' & Heq & Hl & He & Hd & Hcd & Hcu).
    unfold bind. rewrite Heq. exists l. eexists _, w'.
    cbn [ret filter is_matched]. repeat split; auto.
  - destruct (replace_image_frame base_dir m w)
      as (l1 & o1 & w1 & Heq1 & Hl1 & He1 & Hd1 & Hcd1 & Hcu1).
    unfold bind. rewrite Heq1.
    destruct (IH w1) as (l & out & w' & Heq & Hl & He & Hd & Hcd & Hcu).
    rewrite Heq. exists (l1 ++ l). eexists _, w'.
    cbn [ret filter is_matched length]. rewrite !count_app, Hcd1, Hcd.
    repeat split; auto; try congruence; try lia.
    rewrite Hl, Hl1. now rewrite app_assoc.
Qed.


(** ** [create_draft] as a whole *)

Lemma post_draft_frame (token : jval) (a : article) (w : world) :
  exists l r w',
    post_draft token a w = (r, w') /\
    w_log w' = w_log w ++ l /\
    (1 <= count is_draft_request l <= 2)%nat /\
    count is_upload_request l = 0%nat /\
    (forall t' a', In (DraftRequest t' a') l -> a' = a).
Proof.
  unfold post_draft, bind, request_draft, answer.
  set (w1 := with_log (DraftRequest token a) (draft_answered w)).
  assert (Hlog1 : w_log w1 = w_log w ++ [DraftRequest token a])
    by reflexivity.
  assert (Hone : forall r : result json,
            exists l r' w',
              (r, w1) = (r', w') /\ w_log w' = w_log w ++ l /\
              (1 <= count is_draft_request l <= 2)%nat /\
              count is_upload_request l = 0%nat /\
              (forall t' a', In (DraftRequest t' a') l -> a' = a)).
  { intros r. exists [DraftRequest token a], r, w1.
    repeat split; auto; cbn; try lia.
    intros t' a' [[= _ ->]|[]]. reflexivity. }
  destruct (hd_error (w_draft_replies w)) as [[|r]|]; cbn [raise ret];
    try apply Hone.
  destruct (jhas "errcode" r && jnonzero (jget "errcode" JNull r));
    [|apply Hone].
  destruct (token_expired (jget "errcode" JNull r)); [|apply Hone].
  pose proof (get_access_token_frame true w1) as (_ & _ & _ & H).
  destruct (get_access_token true w1) as [[tok|e] w2]; cbn [fst snd] in *.
  - destruct H as (d & _ & _ & Hl).
    assert (exists l0, w_log w2 = w_log w1 ++ l0 /\
                       count is_draft_request l0 = 0%nat /\
                       count is_upload_request l0 = 0%nat /\
                       forall t' a', ~ In (DraftRequest t' a') l0)
      as (l0 & Hl0 & Hd0 & Hu0 & Hin0).
    { destruct Hl as [Hl|Hl].
      - exists []. rewrite app_nil_r. repeat split; auto.
      - eexists. split; [exact Hl|]. repeat split.
        intros t' a' [H|[H|[]]]; discriminate. }
    set (w3 := with_log (DraftRequest tok a) (draft_answered w2)).
    assert (Hlog3 : w_log w3 =
                    w_log w ++ [DraftRequest token a] ++ l0
                      ++ [DraftRequest tok a]).
    { unfold w3. cbn. rewrite Hl0, Hlog1. now rewrite <- !app_assoc. }
    assert (Htwo : forall r : result json,
              exists l r' w',
                (r, w3) = (r', w') /\ w_log w' = w_log w ++ l /\
                (1 <= count is_draft_request l <= 2)%nat /\
                count is_upload_request l = 0%nat /\
                (forall t' a', In (DraftRequest t' a') l -> a' = a)).
    { intros r0. eexists _, r0, w3. split; [reflexivity|].
      split; [exact Hlog3|]. rewrite !count_app, Hd0, Hu0. cbn.
      repeat split; try lia.
      intros t' a' Hin. cbn [app] in Hin. destruct Hin as [[= _ ->]|Hin];
        [reflexivity|].
      apply in_app_or in Hin as [Hin|[[= _ ->]|[]]]; [|reflexivity].
      now apply Hin0 in Hin. }
    destruct (hd_error (w_draft_replies w2)) as [[|r2]|]; cbn [raise ret];
      try apply Htwo.
    destruct (jhas "errcode" r2 && jnonzero (jget "errcode" JNull r2));
      apply Htwo.
  - destruct H as (Hl & _).
    exists [DraftRequest token a; TokenRequest true]. eexists _, w2.
    split; [reflexivity|]. rewrite Hl, Hlog1, <- app_assoc.
    repeat split; cbn; try lia.
    intros t' a' [[= _ ->]|[H|[]]]; [reflexivity|discriminate].
Qed.

Lemma submit_draft_frame (a : article) (w : world) :
  exists l r w',
    submit_draft a w = (r, w') /\
    w_log w' = w_log w ++ l /\
    (count is_draft_request l <= 2)%nat /\
    (forall t' a', In (DraftRequest t' a') l -> a' = a).
Proof.
  unfold submit_draft, bind.
  pose proof (get_access_token_frame false w) as (_ & _ & _ & H).
  destruct (get_access_token false w) as [[tok|e] w1]; cbn [fst snd] in *.
  - destruct H as (d & _ & _ & Hl).
    destruct (post_draft_frame tok a w1)
      as (l & r & w' & Heq & Hlog & [_ Hc] & _ & Hin).
    rewrite Heq.
    destruct Hl as [Hl|Hl].
    + exists l, r, w'. rewrite Hlog, Hl. repeat split; auto.
    + eexists _, r, w'. split; [reflexivity|]. rewrite Hlog, Hl.
      rewrite <- app_assoc. split; [reflexivity|].
      rewrite count_app. cbn. split; [lia|].
      intros t' a' Hi. cbn [app] in Hi.
      destruct Hi as [Hi|[Hi|Hi]]; try discriminate. now apply Hin in Hi.
  - destruct H as (Hl & _). eexists _, _, w1. split; [reflexivity|].
    split; [exact Hl|]. cbn. split; [lia|].
    intros t' a' [Hi|[]]. discriminate.
Qed.

Lemma count_zero_not_in (l : list event) (t : jval) (a : article) :
  count is_draft_request l = 0%nat -> ~ In (DraftRequest t a) l.
Proof.
  unfold count. induction l as [|e l IH]; [auto|]. cbn [filter].
  destruct e; cbn [is_draft_request length]; try discriminate;
    intros H [Hin|Hin]; try discriminate; now apply IH.
Qed.

Lemma count_zero_of_none (l : list event) :
  (forall t a, ~ In (DraftRequest t a) l) ->
  count is_draft_request l = 0%nat.
Proof.
  unfold count. induction l as [|e l IH]; [reflexivity|]. intros H.
  destruct e; cbn [filter is_draft_request];
    try (apply IH; intros t' a' Hin; apply (H t' a'); now right).
  exfalso. apply (H token a). now left.
Qed.

Lemma prepare_cover_frame (thumb : jval) (w : world) :
  exists l r w',
    prepare_cover thumb w = (r, w') /\
    w_log w' = w_log w ++ l /\
    count is_draft_request l = 0%nat /\
    (forall th, r = Ok th ->
       jtruthy thumb = true \/ w_exists w default_cover = false ->
       th = thumb).
Proof.
  unfold prepare_cover.
  destruct (jtruthy thumb) eqn:Htr; cbn [negb].
  { exists [], (Ok thumb), w. rewrite app_nil_r. cbn [ret].
    repeat split; auto. congruence. }
  unfold bind at 1, path_exists. cbv beta iota.
  destruct (w_exists w default_cover) eqn:Hex.
  - destruct (upload_image_frame default_cover w)
      as (l & Hl & _ & _ & Hcd & _).
    unfold bind.
    destruct (upload_image default_cover w) as [[[mid url]|e] w1];
      cbn [fst snd ret] in *; exists l; eexists _, w1;
      repeat split; auto; intros th _ [H|H]; discriminate.
  - exists [], (Ok thumb), w. rewrite app_nil_r. cbn [ret].
    repeat split; auto. congruence.
Qed.

Lemma create_draft_stages (cfg title content : str) (author : option str)
  (thumb : jval) (digest : option str) (show : Z) (base_dir : str) :
  create_draft cfg title content author thumb digest show base_dir =
    (thumb' <- prepare_cover thumb ;;
     content' <- _upload_content_images (_remove_cover_image content)
                   base_dir ;;
     f <- lift (enforce_fields cfg title author digest) ;;
     submit_draft {| a_title := f_title f; a_author := f_author f;
                     a_digest := f_digest f;
                     a_content := _fix_wechat_editor_issues content';
                     a_thumb_media_id := thumb';
                     a_show_cover_pic := show |}).
Proof. reflexivity. Qed.

(** X18. One call of [create_draft] submits at most twice, and only an
    article that went through every stage: its title, author and digest are
    the enforced fields, its content came out of the editor rewrite, its
    cover is the one given (also when none was given and the default cover
    file is missing). When field enforcement raises, nothing is
    submitted. *)
Theorem create_draft_submits_the_checked_article
  (cfg title content : str) (author : option str) (thumb : jval)
  (digest : option str) (show : Z) (base_dir : str) (w : world) :
  exists l,
    w_log (snd (create_draft cfg title content author thumb digest show
                  base_dir w)) = w_log w ++ l /\
    (count is_draft_request l <= 2)%nat /\
    (forall e, enforce_fields cfg title author digest = Raise e ->
               count is_draft_request l = 0%nat) /\
    (forall t a, In (DraftRequest t a) l ->
       exists f c,
         enforce_fields cfg title author digest = Ok f /\
         a_title a = f_title f /\ a_author a = f_author f /\
         a_digest a = f_digest f /\
         a_content a = _fix_wechat_editor_issues c /\
         a_show_cover_pic a = show /\
         (jtruthy thumb = true \/ w_exists w default_cover = false ->
          a_thumb_media_id a = thumb)).
Proof.
  rewrite create_draft_stages.
  destruct (prepare_cover_frame thumb w)
    as (l0 & r0 & w0 & Heq0 & Hl0 & Hd0 & Hth).
  unfold bind at 1. rewrite Heq0.
  assert (Hnone : forall l' : list event,
            count is_draft_request l' = 0%nat ->
            (count is_draft_request l' <= 2)%nat /\
            (forall e, enforce_fields cfg title author digest = Raise e ->
                       count is_draft_request l' = 0%nat) /\
            (forall t a, In (DraftRequest t a) l' ->
               exists f c,
                 enforce_fields cfg title author digest = Ok f /\
                 a_title a = f_title f /\ a_author a = f_author f /\
                 a_digest a = f_digest f /\
                 a_content a = _fix_wechat_editor_issues c /\
                 a_show_cover_pic a = show /\
                 (jtruthy thumb = true \/ w_exists w default_cover = false ->
                  a_thumb_media_id a = thumb))).
  { intros l' Hc. split; [lia|]. split; [auto|].
    intros t a Hin. now apply (count_zero_not_in l' t a Hc) in Hin. }
  destruct r0 as [th|e0].
  2: { exists l0. cbn [snd]. split; [exact Hl0|]. now apply Hnone. }
  unfold _upload_content_images, re_sub_M.
  destruct (sub_pieces_frame base_dir
              (scan false img_pattern None 0 (_remove_cover_image content))
              w0)
    as (l1 & c & w1 & Heq1 & Hl1 & _ & _ & Hd1 & _).
  unfold bind at 1. rewrite Heq1.
  unfold bind at 1, lift.
  destruct (enforce_fields cfg title author digest) as [f|e] eqn:Hf.
  2: { exists (l0 ++ l1). cbn [snd]. rewrite Hl1, Hl0, app_assoc.
       split; [reflexivity|]. apply Hnone. rewrite count_app. lia. }
  match goal with |- context [submit_draft ?a w1] => set (art := a) end.
  destruct (submit_draft_frame art w1)
    as (l2 & r2 & w2 & Heq2 & Hl2 & Hc2 & Hin2).
  rewrite Heq2. cbn [snd]. exists (l0 ++ l1 ++ l2).
  split; [rewrite Hl2, Hl1, Hl0; now rewrite !app_assoc|].
  split; [rewrite !count_app; lia|]. split; [discriminate|].
  intros t a Hin.
  apply in_app_or in Hin as [Hin|Hin];
    [now apply (count_zero_not_in l0 t a Hd0) in Hin|].
  apply in_app_or in Hin as [Hin|Hin];
    [now apply (count_zero_not_in l1 t a Hd1) in Hin|].
  apply Hin2 in Hin. subst a. exists f, c. unfold art.
  cbn [a_title a_author a_digest a_content a_show_cover_pic
       a_thumb_media_id].
  repeat split; auto.
Qed.

(** ** The error report: [_get_public_ip] and [_handle_api_error] *)

Lemma text_constants_decode :
  forallb decodes_well
    ["无法获取"; "失败 (错误码"; "💡 解决方法：";
     "  1. 登录微信公众平台 https://mp.weixin.qq.com";
     "  2. 设置与开发 → 基本配置 → IP白名单";
     "  3. 添加以下公网IP到白名单";
     "  需要添加到白名单的IP: ";
     "  （这是微信服务器看到的您的真实公网IP）";
     "  无法自动检测公网IP，请手动查询：";
     "  - 访问 https://ipinfo.io 查看您的公网IP";
     "  - 或访问 https://ifconfig.me";
     "  1. 检查配置文件中的AppID和AppSecret是否正确";
     "  2. 配置文件位置: ";
     "  3. AppID应该以wx开头，长度18位";
     "  API调用次数已达上限，请明天再试";
     "  或联系微信公众平台提升配额";
     "封面"; "标题"] = true.
Proof. vm_compute. reflexivity. Qed.

Lemma error_codes_decode :
  forallb (fun kv => match Utf8.encode (snd kv) with
                     | Some _ => true
                     | None => false
                     end) ERROR_CODES = true /\
  u "封面" = cover_word /\ u "标题" = title_word.
Proof. vm_compute. auto. Qed.

Module SearchFacts.

Lemma startswith_app (n b : str) : startswith n (n ++ b) = true.
Proof.
  induction n as [|c n IH]; [reflexivity|].
  cbn [app startswith]. now rewrite N.eqb_refl, IH.
Qed.

Lemma contains_app (n a b : str) : contains n (a ++ n ++ b) = true.
Proof.
  induction a as [|x a IH].
  - cbn [app]. destruct (n ++ b) eqn:E; cbn [contains];
      rewrite <- E, startswith_app; reflexivity.
  - cbn [app contains]. rewrite IH. apply orb_true_r.
Qed.

Lemma contains_nonempty (n s : str) :
  n <> [] -> contains n s = true -> s <> [].
Proof.
  intros Hn H ->. cbn in H. destruct n; [now apply Hn|discriminate].
Qed.

(** [re.search] finds a match of the pattern inside the subject, and no
    position to the left of it starts one. *)
Lemma re_search_sound (ic : bool) (r : regex) (s : str) (m : rmatch) :
  re_search ic r s = Some m ->
  exists pre rest,
    s = pre ++ m_text m ++ rest /\
    matches ic r [] (m_text m) rest (m_caps m) /\
    forall p q, s = p ++ q -> (length p < length pre)%nat ->
                match_at ic r q = None.
Proof.
  revert m. induction s as [|c s IH]; intros m; cbn [re_search].
  - destruct (match_at ic r []) as [m0|] eqn:E; [|discriminate].
    intros H. injection H as <-.
    apply ReFacts.match_at_sound in E as (rest & Hs & Hm).
    exists [], rest. cbn [app length]. repeat split; auto. intros; lia.
  - destruct (match_at ic r (c :: s)) as [m0|] eqn:E.
    + intros H. injection H as <-.
      pose proof E as E'.
      apply ReFacts.match_at_sound in E' as (rest & Hs & Hm).
      exists [], rest. cbn [app length]. repeat split; auto. intros; lia.
    + intros H. destruct (IH m H) as (pre & rest & Hs & Hm & Hleft).
      exists (c :: pre), rest. cbn [app length]. split; [now rewrite Hs|].
      split; [exact Hm|]. intros p q Hpq Hlen.
      destruct p as [|x p].
      * cbn [app] in Hpq. now subst q.
      * cbn [app] in Hpq. injection Hpq as <- Hpq.
        apply (Hleft p q Hpq). cbn [length] in Hlen. lia.
Qed.

(** Where the subject holds a match, [re.search] finds one. *)
Lemma re_search_complete (ic : bool) (r : regex) (pre t rest : str)
  (caps' : captures) :
  matches ic r [] t rest caps' ->
  exists m, re_search ic r (pre ++ t ++ rest) = Some m.
Proof.
  intros Hm. induction pre as [|c pre IH].
  - cbn [app].
    destruct (ReFacts.match_at_complete ic r t rest caps' Hm) as (m & E).
    exists m. destruct (t ++ rest); cbn [re_search]; now rewrite E.
  - destruct IH as (m & E). cbn [app re_search].
    destruct (match_at ic r (c :: pre ++ t ++ rest)) as [m0|];
      [now exists m0|now exists m].
Qed.

End SearchFacts.

Module StripFacts.

Lemma lstrip_split (s : str) :
  exists a, s = a ++ lstrip s /\ forallb space a = true.
Proof.
  induction s as [|c s (a & Hs & Ha)]; [now exists []|].
  cbn [lstrip]. destruct (space c) eqn:Hc.
  - exists (c :: a). cbn [app forallb]. rewrite Hc, Ha. now rewrite <- Hs.
  - now exists [].
Qed.

Lemma lstrip_head (s : str) :
  match lstrip s with [] => True | c :: _ => space c = false end.
Proof.
  induction s as [|c s IH]; [exact I|]. cbn [lstrip].
  destruct (space c) eqn:Hc; [exact IH|exact Hc].
Qed.

(** A text that starts with a character which is no white space is left
    alone by [lstrip]. *)
Lemma lstrip_id (c : codepoint) (s : str) :
  space c = false -> lstrip (c :: s) = c :: s.
Proof. intros H. cbn [lstrip]. now rewrite H. Qed.

Lemma rstrip_split (s : str) :
  exists b, s = rstrip s ++ b /\ forallb space b = true.
Proof.
  unfold rstrip. destruct (lstrip_split (rev s)) as (a & Hs & Ha).
  exists (rev a). split.
  - rewrite <- rev_app_distr, <- Hs. symmetry. apply rev_involutive.
  - rewrite forallb_forall in *. intros x Hx. apply Ha. now apply in_rev.
Qed.

Lemma rstrip_last (s : str) (d : codepoint) :
  rstrip s <> [] -> space (last (rstrip s) d) = false.
Proof.
  unfold rstrip. pose proof (lstrip_head (rev s)) as H.
  destruct (lstrip (rev s)) as [|c t]; [now intros []|].
  intros _. cbn [rev]. now rewrite last_last.
Qed.

(** [rstrip] keeps the first character of what it leaves. *)
Lemma rstrip_head (c : codepoint) (s : str) :
  space c = false -> exists t, rstrip (c :: s) = c :: t.
Proof.
  intros Hc. unfold rstrip. cbn [rev].
  destruct (lstrip_split (rev s ++ [c])) as (a & Hs & Ha).
  destruct (lstrip (rev s ++ [c])) as [|x t] eqn:E.
  - rewrite app_nil_r in Hs. subst a.
    rewrite forallb_app in Ha. cbn in Ha. rewrite Hc in Ha.
    now rewrite andb_false_r in Ha.
  - assert (Hrev : rev (rev s ++ [c]) = rev (a ++ x :: t)) by now rewrite Hs.
    rewrite rev_app_distr in Hrev. cbn [rev app] in Hrev.
    rewrite rev_involutive in Hrev.
    rewrite rev_app_distr in Hrev. cbn [rev] in Hrev.
    destruct (rev t ++ [x]) as [|y t'] eqn:Et.
    + now destruct (rev t).
    + cbn [app] in Hrev. injection Hrev as <- _. now exists t'.
Qed.

(** What [strip] returns sits in the text between two runs of white
    space, and neither starts nor ends with white space. *)
Lemma str_strip_split (s : str) :
  exists a b,
    s = a ++ str_strip s ++ b /\
    forallb space a = true /\ forallb space b = true.
Proof.
  unfold str_strip. destruct (lstrip_split s) as (a & Hs & Ha).
  destruct (rstrip_split (lstrip s)) as (b & Hb & Hb').
  exists a, b. repeat split; auto. now rewrite <- Hb.
Qed.

Lemma str_strip_ends (s : str) (d : codepoint) :
  match str_strip s with
  | [] => True
  | c :: t => space c = false /\ space (last (c :: t) d) = false
  end.
Proof.
  unfold str_strip. pose proof (lstrip_head s) as Hh.
  destruct (lstrip s) as [|c t] eqn:E; [exact I|].
  destruct (rstrip_head c t Hh) as (t' & Ht).
  pose proof (rstrip_last (c :: t) d) as Hl. rewrite Ht in *.
  split; [exact Hh|]. apply Hl. discriminate.
Qed.

(** [strip] does nothing to a text with no white space at its ends. *)
Lemma str_strip_id (s : str) (d : codepoint) :
  match s with
  | [] => True
  | c :: t => space c = false /\ space (last (c :: t) d) = false
  end -> str_strip s = s.
Proof.
  destruct s as [|c t]; [reflexivity|]. intros [Hc Hl].
  unfold str_strip. rewrite (lstrip_id c t Hc). unfold rstrip.
  assert (H : exists x r, rev (c :: t) = x :: r /\ x = last (c :: t) d).
  { destruct (exists_last (l := c :: t)) as (r & x & E); [discriminate|].
    rewrite E. rewrite rev_app_distr. cbn [rev app].
    exists x, (rev r). split; [reflexivity|]. now rewrite last_last. }
  destruct H as (x & r & E & Hx). rewrite E. subst x.
  rewrite (lstrip_id _ r Hl). rewrite <- E. apply rev_involutive.
Qed.

Lemma str_strip_idempotent (s : str) : str_strip (str_strip s) = str_strip s.
Proof. apply (str_strip_id _ 0%N). apply str_strip_ends. Qed.

End StripFacts.

Module IpFacts.

(** A match of the address pattern is a dotted quad, and group 1 holds
    all of it. *)
Lemma ip_pattern_shape (decimal : charset) (caps : captures)
  (m rest : str) (caps' : captures) :
  matches false (ip_pattern decimal) caps m rest caps' ->
  group 1 caps' = m /\ dotted_quad decimal m.
Proof.
  unfold ip_pattern. cbn [Seq matches Plus].
  intros (c0 &
          (a & ? & c1 & -> &
             (? & a' & c1' & -> & (x1 & -> & Hx1 & ->) & (Ha & ->)) &
           ? & ? & c2 & -> & (p1 & -> & Hp1 & ->) &
           b & ? & c3 & -> &
             (? & b' & c3' & -> & (x2 & -> & Hx2 & ->) & (Hb & ->)) &
           ? & ? & c4 & -> & (p2 & -> & Hp2 & ->) &
           c & ? & c5 & -> &
             (? & c' & c5' & -> & (x3 & -> & Hx3 & ->) & (Hc & ->)) &
           ? & d & c6 & -> & (p3 & -> & Hp3 & ->) &
           (? & d' & c7 & -> & (x4 & -> & Hx4 & ->) & (Hd & ->))) & ->).
  unfold chr_eqb in Hp1, Hp2, Hp3.
  apply N.eqb_eq in Hp1, Hp2, Hp3. subst p1 p2 p3.
  split; [cbn [group set_group Nat.eqb]; reflexivity|].
  exists ([x1] ++ a'), ([x2] ++ b'), ([x3] ++ c'), ([x4] ++ d').
  split; [|repeat split; try discriminate].
  - cbn. repeat (rewrite <- app_assoc || rewrite <- app_comm_cons).
    reflexivity.
  - repeat first [rewrite forallb_app | progress cbn [forallb app]].
    rewrite Hx1, Hx2, Hx3, Hx4, Ha, Hb, Hc, Hd. reflexivity.
Qed.

Lemma dotted_quad_has_dot (decimal : charset) (ip : str) :
  dotted_quad decimal ip -> contains (lit ".") ip = true.
Proof.
  intros (a & b & c & d & -> & _). apply SearchFacts.contains_app.
Qed.

(** Whatever a service is taken to say holds a dot. *)
Lemma ask_service_has_dot (decimal : charset) (fetch : str -> ip_answer)
  (url ip : str) :
  ask_service decimal fetch url = Some ip -> contains (lit ".") ip = true.
Proof.
  unfold ask_service. destruct (fetch url) as [|status text]; [discriminate|].
  destruct (status =? 200)%Z; [|discriminate].
  destruct (contains (lit "ipip.net") url).
  - destruct (re_search false (ip_pattern decimal) (str_strip text))
      as [m|] eqn:E; [|discriminate].
    intros H. injection H as <-.
    apply SearchFacts.re_search_sound in E as (pre & rest & _ & Hm & _).
    apply ip_pattern_shape in Hm as [-> Hq].
    now apply (dotted_quad_has_dot decimal).
  - destruct (truthy (str_strip text)); [|discriminate].
    destruct (contains (lit ".") (str_strip text)) eqn:Hd; [|discriminate].
    destruct (length (str_strip text) <=? 15)%nat; [|discriminate].
    cbn [andb]. intros H. injection H as <-. exact Hd.
Qed.

Lemma first_answer_some (decimal : charset) (fetch : str -> ip_answer)
  (l : list (str * string)) (ip : str) :
  first_answer decimal fetch l = Some ip ->
  exists url region,
    In (url, region) l /\ ask_service decimal fetch url = Some ip.
Proof.
  induction l as [|[url region] l IH]; [discriminate|].
  cbn [first_answer].
  destruct (ask_service decimal fetch url) as [ip0|] eqn:E.
  - intros H. injection H as <-. exists url, region. split; [now left|auto].
  - intros H. destruct (IH H) as (url' & region' & Hin & Ha).
    exists url', region'. split; [now right|auto].
Qed.

Lemma first_answer_none (decimal : charset) (fetch : str -> ip_answer)
  (l : list (str * string)) :
  first_answer decimal fetch l = None <->
  forall url region,
    In (url, region) l -> ask_service decimal fetch url = None.
Proof.
  induction l as [|[url region] l IH]; cbn [first_answer].
  - split; [intros _ ? ? []|reflexivity].
  - destruct (ask_service decimal fetch url) as [ip0|] eqn:E.
    + split; [discriminate|]. intros H.
      rewrite (H url region) in E; [discriminate|now left].
    + rewrite IH. split.
      * intros H url' region' [Heq|Hin]; [|now apply (H url' region')].
        injection Heq as <- <-. exact E.
      * intros H url' region' Hin. apply (H url' region'). now right.
Qed.

Lemma unavailable_has_no_dot : contains (lit ".") unavailable = false.
Proof. vm_compute. reflexivity. Qed.

(** The two ways [_get_public_ip] ends. *)
Lemma public_ip_cases (decimal : charset) (fetch : str -> ip_answer) :
  (first_answer decimal fetch services = None /\
   _get_public_ip decimal fetch = unavailable) \/
  (exists ip,
     first_answer decimal fetch services = Some ip /\
     _get_public_ip decimal fetch = ip /\
     contains (lit ".") ip = true /\ ip <> unavailable).
Proof.
  unfold _get_public_ip.
  destruct (first_answer decimal fetch services) as [ip|] eqn:E.
  - right. exists ip.
    destruct (first_answer_some decimal fetch services ip E)
      as (url & region & _ & Ha).
    apply ask_service_has_dot in Ha.
    repeat split; auto. intros ->.
    rewrite unavailable_has_no_dot in Ha. discriminate.
  - left. auto.
Qed.

End IpFacts.

(** X19. [_get_public_ip] returns its "not available" text exactly when
    none of the four services gave an address: a service that fails, that
    answers with another status or with a text that is no address never
    stops the search, and no address is ever taken for that text, since
    every address holds a dot. *)
Theorem public_ip_unavailable_iff_no_service_answers
  (decimal : charset) (fetch : str -> ip_answer) :
  (_get_public_ip decimal fetch = unavailable <->
   forall url region,
     In (url, region) services -> ask_service decimal fetch url = None) /\
  (_get_public_ip decimal fetch <> unavailable ->
   contains (lit ".") (_get_public_ip decimal fetch) = true).
Proof.
  rewrite <- IpFacts.first_answer_none.
  destruct (IpFacts.public_ip_cases decimal fetch)
    as [[Hn Hr]|(ip & Hs & Hr & Hdot & Hne)]; rewrite Hr.
  - split; [split; auto|]. intros H. now destruct H.
  - split; [|auto]. split; [intros H; now destruct (Hne H)|].
    rewrite Hs. discriminate.
Qed.

(** X20. When ipip.net answers with status 200 and its text holds four
    runs of decimal digits with dots between them, the address returned is
    such a dotted quad, it occurs in the answer, and the other services
    are not consulted. *)
Theorem ipip_answer_gives_a_dotted_quad
  (decimal : charset) (fetch : str -> ip_answer) (text : str) (m : rmatch) :
  fetch ipip_url = IpResponse 200 text ->
  re_search false (ip_pattern decimal) (str_strip text) = Some m ->
  dotted_quad decimal (_get_public_ip decimal fetch) /\
  (exists pre post, text = pre ++ _get_public_ip decimal fetch ++ post) /\
  forall fetch' : str -> ip_answer,
    fetch' ipip_url = fetch ipip_url ->
    _get_public_ip decimal fetch' = _get_public_ip decimal fetch.
Proof.
  intros Hf Hs.
  assert (Hask : forall f, f ipip_url = fetch ipip_url ->
            _get_public_ip decimal f = group 1 (m_caps m)).
  { intros f Hfe. unfold _get_public_ip, services.
    cbn [first_answer]. unfold ask_service at 1. rewrite Hfe, Hf.
    change (200 =? 200)%Z with true. cbv beta iota.
    replace (contains (lit "ipip.net") ipip_url) with true
      by (vm_compute; reflexivity).
    now rewrite Hs. }
  rewrite (Hask fetch eq_refl).
  apply SearchFacts.re_search_sound in Hs as (pre & rest & Ht & Hm & _).
  apply IpFacts.ip_pattern_shape in Hm as [Hg Hq]. rewrite Hg.
  split; [exact Hq|]. split.
  - destruct (StripFacts.str_strip_split text) as (a & b & Hab & _).
    exists (a ++ pre), (rest ++ b). rewrite Hab at 1. rewrite Ht.
    now rewrite <- !app_assoc.
  - intros f Hfe. rewrite (Hask f Hfe). exact Hg.
Qed.

Lemma ipip_answer_gives_a_dotted_quad_witness :
  _get_public_ip ascii_digit ipip_only = lit "198.51.100.24" /\
  dotted_quad ascii_digit (_get_public_ip ascii_digit ipip_only).
Proof.
  split; [vm_compute; reflexivity|].
  refine (proj1 (ipip_answer_gives_a_dotted_quad ascii_digit ipip_only
                   (u "当前 IP：198.51.100.24  来自于：中国" ++ nl)
                   {| m_text := lit "198.51.100.24";
                      m_caps := [(1%nat, lit "198.51.100.24")] |} _ _));
    vm_compute; reflexivity.
Defined.

Module ReportFacts.

Lemma jnum_eqb_eq (v : jval) (n : Z) : jnum_eqb v n = true <-> v = JNum n.
Proof.
  destruct v as [|k|s]; cbn [jnum_eqb]; try (split; discriminate).
  rewrite Z.eqb_eq. split; [now intros ->|congruence].
Qed.

(** The codes that come with advice are codes of the table. *)
Lemma advised_codes_are_listed (errcode : jval) :
  jnum_eqb errcode 40164 || jnum_in errcode [40001; 40125; 40013]%Z
    || jnum_eqb errcode 45009 = true ->
  exists n text, errcode = JNum n /\ error_text n ERROR_CODES = Some text.
Proof.
  unfold jnum_in. cbn [existsb]. rewrite !orb_true_iff, !jnum_eqb_eq.
  intros [[H|[H|[H|[H|H]]]]|H]; try discriminate; subst errcode;
    eexists; eexists; (split; [reflexivity|vm_compute; reflexivity]).
Qed.

Lemma unadvised (errcode : jval) :
  (forall n, errcode = JNum n -> error_text n ERROR_CODES = None) ->
  jnum_eqb errcode 40164 = false /\
  jnum_in errcode [40001; 40125; 40013]%Z = false /\
  jnum_eqb errcode 45009 = false.
Proof.
  intros H.
  destruct (jnum_eqb errcode 40164 || jnum_in errcode [40001; 40125; 40013]%Z
              || jnum_eqb errcode 45009) eqn:E.
  - apply advised_codes_are_listed in E as (n & text & -> & Ht).
    rewrite (H n eq_refl) in Ht. discriminate.
  - apply orb_false_elim in E as [E E3]. apply orb_false_elim in E as [E1 E2].
    auto.
Qed.

End ReportFacts.

(** X21. Only the white-list error 40164 makes [_handle_api_error] look
    for the public address: for every other error code the message is
    the same whatever the address services would answer. *)
Theorem only_the_whitelist_error_asks_for_the_address
  (decimal decimal' : charset) (fetch fetch' : str -> ip_answer)
  (config_file : str) (errcode errmsg : jval) (context : str) :
  errcode <> JNum 40164 ->
  _handle_api_error decimal fetch config_file errcode errmsg context =
  _handle_api_error decimal' fetch' config_file errcode errmsg context.
Proof.
  intros H. unfold _handle_api_error.
  destruct (jnum_eqb errcode 40164) eqn:E; [|reflexivity].
  apply ReportFacts.jnum_eqb_eq in E. contradiction.
Qed.

Lemma only_the_whitelist_error_asks_for_the_address_witness :
  _handle_api_error ascii_digit ipip_only (lit "config.json")
    (JNum 42001) (JStr (lit "expired")) (u "创建草稿") =
  _handle_api_error ascii_digit no_service (lit "config.json")
    (JNum 42001) (JStr (lit "expired")) (u "创建草稿").
Proof.
  apply only_the_whitelist_error_asks_for_the_address. discriminate.
Defined.

(** X22. For an error code of the table [ERROR_CODES] the text of the
    table is shown and the message of the server is dropped: the result
    starts with the context, the code and the table's text, and does not
    depend on [errmsg]. *)
Theorem listed_codes_hide_the_server_message
  (decimal : charset) (fetch : str -> ip_answer) (config_file : str)
  (n : Z) (text : str) (errmsg errmsg' : jval) (context : str) :
  error_text n ERROR_CODES = Some text ->
  _handle_api_error decimal fetch config_file (JNum n) errmsg context =
  _handle_api_error decimal fetch config_file (JNum n) errmsg' context /\
  exists advice,
    _handle_api_error decimal fetch config_file (JNum n) errmsg context =
    context ++ u "失败 (错误码" ++ format_jval (JNum n) ++ lit "): " ++ text
      ++ advice.
Proof.
  intros Ht.
  assert (Hh : forall e, headline (JNum n) e context =
                 context ++ u "失败 (错误码" ++ format_jval (JNum n)
                   ++ lit "): " ++ text).
  { intros e. unfold headline, chinese_msg. now rewrite Ht. }
  unfold _handle_api_error. rewrite (Hh errmsg), (Hh errmsg').
  split; [reflexivity|].
  repeat match goal with
         | |- context [if ?b then _ else _] => destruct b
         end;
    rewrite <- ?app_assoc;
    solve [ eexists; repeat (rewrite <- app_assoc);
            repeat f_equal; reflexivity
          | exists []; now rewrite !app_nil_r ].
Qed.

Lemma listed_codes_hide_the_server_message_witness :
  _handle_api_error ascii_digit no_service (lit "config.json")
    (JNum 45009) (JStr (lit "reach max api daily quota limit"))
    (u "上传图片") =
  _handle_api_error ascii_digit no_service (lit "config.json")
    (JNum 45009) JNull (u "上传图片").
Proof.
  refine (proj1 (listed_codes_hide_the_server_message ascii_digit
                   no_service (lit "config.json") 45009
                   (u "接口调用超过限制（每日API调用量已用完）")
                   (JStr (lit "reach max api daily quota limit")) JNull
                   (u "上传图片") _)).
  vm_compute. reflexivity.
Defined.

(** X23. For an error code that is not in the table the message is the
    one line made of the context, the code and the server's own message:
    no advice follows and no address is looked up. *)
Theorem unlisted_codes_show_the_server_message
  (decimal : charset) (fetch : str -> ip_answer) (config_file : str)
  (errcode errmsg : jval) (context : str) :
  (forall n, errcode = JNum n -> error_text n ERROR_CODES = None) ->
  _handle_api_error decimal fetch config_file errcode errmsg context =
  context ++ u "失败 (错误码" ++ format_jval errcode ++ lit "): "
    ++ format_jval errmsg.
Proof.
  intros H. destruct (ReportFacts.unadvised errcode H) as (E1 & E2 & E3).
  unfold _handle_api_error. rewrite E1, E2, E3.
  unfold headline, chinese_msg. destruct errcode as [|n|s]; auto.
  now rewrite (H n eq_refl).
Qed.

Lemma unlisted_codes_show_the_server_message_witness :
  _handle_api_error ascii_digit ipip_only (lit "config.json")
    (JNum 40007) (JStr (lit "invalid media_id")) (u "创建草稿") =
  u "创建草稿失败 (错误码40007): invalid media_id".
Proof.
  etransitivity.
  - apply unlisted_codes_show_the_server_message.
    intros n H. injection H as <-. vm_compute. reflexivity.
  - vm_compute. reflexivity.
Defined.

(** X24. For the white-list error 40164 the message ends with the
    address to add when some service gave one, and with the hint to look
    it up by hand exactly when none did. *)
Theorem whitelist_error_reports_the_address
  (decimal : charset) (fetch : str -> ip_answer) (config_file : str)
  (errmsg : jval) (context : str) :
  let report :=
    _handle_api_error decimal fetch config_file (JNum 40164) errmsg context in
  let steps := headline (JNum 40164) errmsg context ++ whitelist_steps in
  ((forall url region,
      In (url, region) services -> ask_service decimal fetch url = None) /\
   report = steps ++ manual_lookup) \/
  (exists ip,
     first_answer decimal fetch services = Some ip /\
     report = steps ++ detected_ip ip).
Proof.
  cbv zeta. unfold _handle_api_error.
  change (jnum_eqb (JNum 40164) 40164) with true. cbv iota.
  destruct (IpFacts.public_ip_cases decimal fetch)
    as [[Hn Hr]|(ip & Hs & Hr & _ & Hne)]; rewrite Hr.
  - left. split; [now apply IpFacts.first_answer_none|].
    replace (str_eqb unavailable unavailable) with true
      by (symmetry; now apply str_eqb_eq).
    reflexivity.
  - right. exists ip. split; [exact Hs|].
    destruct (str_eqb ip unavailable) eqn:E; [|reflexivity].
    apply str_eqb_eq in E. contradiction.
Qed.

(** ** Loading the configuration *)

Module ConfigFacts.

Lemma load_config_stages (c : console) :
  load_config c = (ensure_config ~;; validate_config) c.
Proof. reflexivity. Qed.

(** The check reads the file and the input is not its business: it
    leaves both as they are, whatever it returns; and on an object with
    three texts it returns what [checked] says. *)
Lemma validate_config_frame (c : console) :
  c_config (snd (validate_config c)) = c_config c /\
  c_stdin (snd (validate_config c)) = c_stdin c.
Proof.
  unfold validate_config, cbind, read_config, stripped_field, cfail, cret,
    say.
  destruct (c_config c) as [[| |d]|] eqn:Hc; cbn [fst snd]; auto.
  repeat match goal with
         | |- context [match ?x with _ => _ end] =>
             lazymatch x with
             | context [match _ with _ => _ end] => fail
             | _ => destruct x
             end
         end; cbn [fst snd c_config c_stdin]; auto.
Qed.

Lemma validate_config_object (c : console) (d : json) (a s au : str) :
  c_config c = Some (Object d) ->
  jget "appid" (JStr []) d = JStr a ->
  jget "appsecret" (JStr []) d = JStr s ->
  jget "author" (JStr []) d = JStr au ->
  fst (validate_config c) = checked a s au.
Proof.
  intros Hc Ha Hs Hau.
  unfold validate_config, cbind, read_config, stripped_field, cfail, cret,
    say, checked, usable, kept_author.
  rewrite Hc, Ha. cbv beta iota. rewrite Hs. cbv beta iota. rewrite Hau.
  cbv beta iota.
  destruct (truthy (str_strip a)); cbn [negb orb andb]; [|reflexivity].
  destruct (str_in (str_strip a) appid_placeholders);
    cbn [negb orb andb]; [reflexivity|].
  destruct (truthy (str_strip s)); cbn [negb orb andb]; [|reflexivity].
  destruct (str_in (str_strip s) appsecret_placeholders);
    cbn [negb orb andb]; [reflexivity|].
  destruct (negb (truthy (str_strip au))
            || str_in (str_strip au) author_placeholders);
    destruct (negb (startswith (lit "wx") (str_strip a))
              || negb (length (str_strip a) =? 18)%nat);
    reflexivity.
Qed.

(** Only an object whose three fields are texts (or are missing) gets
    through the check. *)
Lemma validate_config_done (c : console) (p : publisher) :
  fst (validate_config c) = Done p ->
  exists d a s au,
    c_config c = Some (Object d) /\
    jget "appid" (JStr []) d = JStr a /\
    jget "appsecret" (JStr []) d = JStr s /\
    jget "author" (JStr []) d = JStr au /\
    checked a s au = Done p.
Proof.
  intros H.
  destruct (c_config c) as [[| |d]|] eqn:Hc;
    try (unfold validate_config, cbind, read_config in H;
         rewrite Hc in H; discriminate H).
  destruct (jget "appid" (JStr []) d) as [|n|a] eqn:Ha;
    try (unfold validate_config, cbind, read_config, stripped_field in H;
         rewrite Hc, Ha in H; discriminate H).
  destruct (jget "appsecret" (JStr []) d) as [|n|s] eqn:Hs;
    try (unfold validate_config, cbind, read_config, stripped_field in H;
         rewrite Hc, Ha in H; cbv beta iota in H; rewrite Hs in H;
         discriminate H).
  destruct (jget "author" (JStr []) d) as [|n|au] eqn:Hau;
    try (unfold validate_config, cbind, read_config, stripped_field in H;
         rewrite Hc, Ha in H; cbv beta iota in H; rewrite Hs in H;
         cbv beta iota in H; rewrite Hau in H; discriminate H).
  exists d, a, s, au. repeat split; auto.
  now rewrite <- (validate_config_object c d a s au Hc Ha Hs Hau).
Qed.

Lemma kept_author_strip (au : str) :
  str_strip (kept_author (str_strip au)) = kept_author (str_strip au) /\
  kept_author (kept_author (str_strip au)) = kept_author (str_strip au).
Proof.
  unfold kept_author.
  destruct (negb (truthy (str_strip au))
            || str_in (str_strip au) author_placeholders) eqn:E.
  - split; reflexivity.
  - rewrite E. split; [apply StripFacts.str_strip_idempotent|reflexivity].
Qed.

Lemma checked_done (a s au : str) (p : publisher) :
  checked a s au = Done p ->
  appid p = str_strip a /\ appsecret p = str_strip s /\
  author p = kept_author (str_strip au) /\
  usable appid_placeholders (appid p) = true /\
  usable appsecret_placeholders (appsecret p) = true.
Proof.
  unfold checked.
  destruct (usable appid_placeholders (str_strip a)) eqn:Ha;
    cbn [negb]; [|discriminate].
  destruct (usable appsecret_placeholders (str_strip s)) eqn:Hs;
    cbn [negb]; [|discriminate].
  intros H. injection H as <-. cbn [appid appsecret author]. auto.
Qed.

(** The set-up dialogue, by its outcomes. *)
Lemma interactive_setup_cases (c : console) :
  (exists a s au rest,
     c_stdin c = a :: s :: au :: rest /\
     ((Utf8.encode (str_strip a) <> None /\
       Utf8.encode (str_strip s) <> None /\
       Utf8.encode (str_strip au) <> None /\
       fst (_interactive_setup c) = Done tt /\
       c_config (snd (_interactive_setup c)) = Some (saved_config a s au) /\
       c_stdin (snd (_interactive_setup c)) = rest) \/
      (fst (_interactive_setup c) = Fails UnencodableInput /\
       c_config (snd (_interactive_setup c)) = Some NotJson))) \/
  ((length (c_stdin c) < 3)%nat /\
   fst (_interactive_setup c) = Fails EOFError /\
   c_config (snd (_interactive_setup c)) = c_config c).
Proof.
  unfold _interactive_setup, cbind, input.
  destruct (c_stdin c) as [|a [|s [|au rest]]] eqn:Hin;
    cbn [c_stdin c_config c_out fst snd length];
    try (right; repeat split; auto; lia).
  left. exists a, s, au, rest. split; [reflexivity|].
  unfold save_config, say, cret, with_config, saved_config.
  destruct (startswith (lit "wx") (str_strip a));
    cbn [negb c_stdin c_config c_out fst snd];
    destruct (Utf8.encode (str_strip a));
    destruct (Utf8.encode (str_strip s));
    destruct (Utf8.encode (str_strip au));
    cbn [c_stdin c_config c_out fst snd];
    solve [ left; repeat split; auto; discriminate
          | right; split; reflexivity ].
Qed.

End ConfigFacts.

Module LoadFacts.

(** With a file in place nothing is asked and the check runs on it. *)
Lemma load_config_existing (c : console) (t : config_text) :
  c_config c = Some t -> load_config c = validate_config c.
Proof.
  intros Hc. rewrite ConfigFacts.load_config_stages.
  unfold ensure_config, cbind at 1 2, config_exists. rewrite Hc.
  reflexivity.
Qed.

(** Without a file, the first answer decides. *)
Lemma load_config_first_start (c : console) (answer : str)
  (rest : list str) :
  c_config c = None -> c_stdin c = answer :: rest ->
  load_config c =
  if accepts answer then
    (_interactive_setup ~;; validate_config)
      {| c_stdin := rest; c_config := None; c_out := c_out c |}
  else (Fails ConfigMissing,
        {| c_stdin := rest; c_config := None; c_out := c_out c |}).
Proof.
  intros Hc Hin. rewrite ConfigFacts.load_config_stages.
  unfold ensure_config, cbind, config_exists, input.
  rewrite Hc. cbn [negb]. rewrite Hin, ?Hc.
  destruct (accepts answer); reflexivity.
Qed.

Lemma load_config_no_input (c : console) :
  c_config c = None -> c_stdin c = [] ->
  load_config c = (Fails EOFError, c).
Proof.
  intros Hc Hin. rewrite ConfigFacts.load_config_stages.
  unfold ensure_config, cbind, config_exists, input.
  rewrite Hc. cbn [negb]. rewrite Hin. reflexivity.
Qed.

Lemma checked_strip (a s au : str) :
  checked (str_strip a) (str_strip s) (str_strip au) = checked a s au.
Proof.
  unfold checked. now rewrite !StripFacts.str_strip_idempotent.
Qed.

End LoadFacts.

(** X25. What [load_config] returns has been checked: the AppID and the
    AppSecret are not empty and are none of the placeholders, the author
    is no placeholder, none of the three starts or ends with white space,
    and each is the stripped field of the object the configuration file
    then holds (the author emptied when it is a placeholder). *)
Theorem loaded_configuration_is_clean (c : console) (p : publisher) :
  fst (load_config c) = Done p ->
  usable appid_placeholders (appid p) = true /\
  usable appsecret_placeholders (appsecret p) = true /\
  kept_author (author p) = author p /\
  str_strip (appid p) = appid p /\
  str_strip (appsecret p) = appsecret p /\
  str_strip (author p) = author p /\
  exists d a s au,
    c_config (snd (load_config c)) = Some (Object d) /\
    jget "appid" (JStr []) d = JStr a /\
    jget "appsecret" (JStr []) d = JStr s /\
    jget "author" (JStr []) d = JStr au /\
    appid p = str_strip a /\ appsecret p = str_strip s /\
    author p = kept_author (str_strip au).
Proof.
  rewrite ConfigFacts.load_config_stages. unfold cbind at 1 2.
  destruct (ensure_config c) as [[[]|e] c1]; [|discriminate].
  intros H.
  destruct (ConfigFacts.validate_config_done c1 p H)
    as (d & a & s & au & Hc & Ha & Hs & Hau & Hp).
  destruct (ConfigFacts.checked_done a s au p Hp)
    as (Eid & Esec & Eau & Uid & Usec).
  destruct (ConfigFacts.kept_author_strip au) as [Ks Kk].
  split; [exact Uid|]. split; [exact Usec|].
  split; [now rewrite Eau|].
  split; [rewrite Eid; apply StripFacts.str_strip_idempotent|].
  split; [rewrite Esec; apply StripFacts.str_strip_idempotent|].
  split; [now rewrite Eau|].
  exists d, a, s, au.
  rewrite (proj1 (ConfigFacts.validate_config_frame c1)).
  repeat split; auto.
Qed.

Lemma loaded_configuration_is_clean_witness :
  exists p,
    fst (load_config (configured sample_config)) = Done p /\
    appid p = lit "wx0123456789abcdef" /\ author p = [] /\
    str_strip (appid p) = appid p.
Proof.
  eexists. split; [vm_compute; reflexivity|].
  split; [reflexivity|]. split; [reflexivity|].
  refine (proj1 (proj2 (proj2 (proj2
    (loaded_configuration_is_clean (configured sample_config) _ _))))).
  vm_compute. reflexivity.
Defined.

(** X26. When the configuration file is there, [load_config] only reads
    it: the file is left as it is, nothing is read from the input, and
    the result is that of the check alone. *)
Theorem existing_configuration_is_only_read
  (c : console) (t : config_text) :
  c_config c = Some t ->
  c_config (snd (load_config c)) = Some t /\
  c_stdin (snd (load_config c)) = c_stdin c /\
  fst (load_config c) = fst (validate_config c).
Proof.
  intros Hc. rewrite (LoadFacts.load_config_existing c t Hc).
  destruct (ConfigFacts.validate_config_frame c) as [H1 H2].
  rewrite H1, H2. auto.
Qed.

Lemma existing_configuration_is_only_read_witness :
  c_config (snd (load_config
     {| c_stdin := [lit "y"]; c_config := Some NotJson; c_out := [] |})) =
    Some NotJson /\
  c_stdin (snd (load_config
     {| c_stdin := [lit "y"]; c_config := Some NotJson; c_out := [] |})) =
    [lit "y"].
Proof.
  destruct (existing_configuration_is_only_read
              {| c_stdin := [lit "y"]; c_config := Some NotJson;
                 c_out := [] |} NotJson eq_refl) as (H1 & H2 & _).
  split; [exact H1|exact H2].
Defined.

(** X27. No configuration file comes into being unless the set-up was
    accepted and its three questions were answered: when the file is
    missing and the input ends early or the first answer declines,
    [load_config] raises ([EOFError], or the [FileNotFoundError] of line
    69) and there is still no file. *)
Theorem no_file_without_a_completed_setup (c : console) :
  c_config c = None ->
  (forall answer rest,
     c_stdin c = answer :: rest ->
     accepts answer = false \/ (length rest < 3)%nat) ->
  c_config (snd (load_config c)) = None /\
  (fst (load_config c) = Fails EOFError \/
   fst (load_config c) = Fails ConfigMissing).
Proof.
  intros Hc Hin. destruct (c_stdin c) as [|answer rest] eqn:E.
  - rewrite (LoadFacts.load_config_no_input c Hc E). cbn [fst snd]. auto.
  - rewrite (LoadFacts.load_config_first_start c answer rest Hc E).
    destruct (accepts answer) eqn:Ha; [|cbn [fst snd c_config]; auto].
    destruct (Hin answer rest eq_refl) as [H|Hlen]; [congruence|].
    set (c0 := {| c_stdin := rest; c_config := None; c_out := c_out c |}).
    unfold cbind.
    destruct (ConfigFacts.interactive_setup_cases c0)
      as [(a & s & au & rest' & Hs & _)|(_ & Hf & Hk)].
    + cbn [c0 c_stdin] in Hs. subst rest. cbn [length] in Hlen. lia.
    + destruct (_interactive_setup c0) as [o c1]. cbn [fst snd] in Hf, Hk.
      subst o. cbn [fst snd]. rewrite Hk. auto.
Qed.

Lemma no_file_without_a_completed_setup_witness :
  c_config (snd (load_config (first_start [lit "n"; lit "wx1"]))) = None /\
  c_config (snd (load_config (first_start [lit "yes"; lit "wx1"]))) = None.
Proof.
  split.
  - refine (proj1 (no_file_without_a_completed_setup
                     (first_start [lit "n"; lit "wx1"]) eq_refl _)).
    intros answer rest H. cbn [first_start c_stdin] in H.
    injection H as <- <-. left. vm_compute. reflexivity.
  - refine (proj1 (no_file_without_a_completed_setup
                     (first_start [lit "yes"; lit "wx1"]) eq_refl _)).
    intros answer rest H. cbn [first_start c_stdin] in H.
    injection H as <- <-. right. cbn [length]. lia.
Defined.

(** X28. A first start whose set-up is accepted saves the three
    stripped answers before it checks them: the file is written even when
    the check then raises, the result is the check of the answers, the
    lines after the three answers stay unread, and a second
    [load_config] gives the same result from the file without reading
    any input. *)
Theorem first_start_saves_then_checks
  (c : console) (answer a s au : str) (rest : list str) :
  c_config c = None ->
  c_stdin c = answer :: a :: s :: au :: rest ->
  accepts answer = true ->
  Utf8.encode (str_strip a) <> None ->
  Utf8.encode (str_strip s) <> None ->
  Utf8.encode (str_strip au) <> None ->
  c_config (snd (load_config c)) = Some (saved_config a s au) /\
  c_stdin (snd (load_config c)) = rest /\
  fst (load_config c) = checked a s au /\
  fst (load_config (snd (load_config c))) = checked a s au /\
  c_stdin (snd (load_config (snd (load_config c)))) = rest.
Proof.
  intros Hc Hin Hacc Ea Es Eau.
  rewrite (LoadFacts.load_config_first_start c answer _ Hc Hin), Hacc.
  set (c0 := {| c_stdin := a :: s :: au :: rest; c_config := None;
                c_out := c_out c |}).
  unfold cbind.
  destruct (ConfigFacts.interactive_setup_cases c0)
    as [(a' & s' & au' & rest' & Hs & Hcase)|(Hlen & _)];
    [|cbn [c0 c_stdin length] in Hlen; lia].
  cbn [c0 c_stdin] in Hs. injection Hs as <- <- <- <-.
  destruct Hcase as [(_ & _ & _ & Hd & Hf & Hr)|[Hu Hn]].
  - destruct (_interactive_setup c0) as [o c1]. cbn [fst snd] in Hd, Hf, Hr.
    subst o.
    destruct (ConfigFacts.validate_config_frame c1) as [F1 F2].
    assert (Hv : forall c2, c_config c2 = Some (saved_config a s au) ->
                 fst (validate_config c2) = checked a s au).
    { intros c2 H2. rewrite <- LoadFacts.checked_strip.
      apply (ConfigFacts.validate_config_object c2 _ _ _ _ H2);
        reflexivity. }
    rewrite F1, F2, Hf, Hr, (Hv c1 Hf).
    assert (Hc2 : c_config (snd (validate_config c1)) =
                  Some (saved_config a s au)) by now rewrite F1.
    rewrite (LoadFacts.load_config_existing _ _ Hc2).
    destruct (ConfigFacts.validate_config_frame (snd (validate_config c1)))
      as [G1 G2].
    rewrite G2, F2, Hr, (Hv _ Hc2). auto.
  - exfalso. revert Hu. unfold _interactive_setup, cbind, input, c0.
    cbn [c_stdin c_config c_out]. unfold save_config, say, cret.
    destruct (startswith (lit "wx") (str_strip a));
      cbn [negb c_stdin c_config c_out];
      destruct (Utf8.encode (str_strip a)); try (now destruct Ea);
      destruct (Utf8.encode (str_strip s)); try (now destruct Es);
      destruct (Utf8.encode (str_strip au)); try (now destruct Eau);
      discriminate.
Qed.

Lemma first_start_saves_then_checks_witness :
  c_config (snd (load_config
     (first_start [lit "Y"; lit " "; lit "k"; lit "me"; lit "next"]))) =
    Some (saved_config (lit " ") (lit "k") (lit "me")) /\
  fst (load_config
     (first_start [lit "Y"; lit " "; lit "k"; lit "me"; lit "next"])) =
    Fails (ValueError BadAppid).
Proof.
  destruct (first_start_saves_then_checks
              (first_start [lit "Y"; lit " "; lit "k"; lit "me"; lit "next"])
              (lit "Y") (lit " ") (lit "k") (lit "me") [lit "next"]
              eq_refl eq_refl)
    as (H1 & _ & H3 & _); try (vm_compute; (reflexivity || discriminate)).
  split; [exact H1|]. rewrite H3. vm_compute. reflexivity.
Defined.
